(** * Integer geohashes (corsc/go-geohash, geohash_int.go)

    A shallow embedding of the Go package [geohash] and the proofs of its
    specified properties.

    - [float64] is IEEE 754 binary64, modelled by the Standard Library's
      [spec_float] with [prec = 53] and [emax = 1024]: every operation is
      the correctly rounded one and computes inside Rocq.
    - [int64] and [int] are [Z] with two's complement wrap-around written
      out ([wrap64]).
    - [panic] is the [Panic] outcome of [result]; loops run on fuel and an
      exhausted loop is the [Diverge] outcome. *)

From Stdlib Require Import ZArith Lia List Bool String DecimalString QArith Qabs.
From Stdlib Require Import Permutation.
From Stdlib Require Import Floats.SpecFloat.
Import ListNotations.
Local Open Scope Z_scope.

(** ** binary64 *)

Module Float64.

Definition prec : Z := 53.
Definition emax : Z := 1024.

Definition float64 := spec_float.

Definition add : float64 -> float64 -> float64 := SFadd prec emax.
Definition sub : float64 -> float64 -> float64 := SFsub prec emax.
Definition mul : float64 -> float64 -> float64 := SFmul prec emax.
Definition div : float64 -> float64 -> float64 := SFdiv prec emax.
Definition neg : float64 -> float64 := SFopp.

(** [x < y], [x <= y], [x == y]; all false when an operand is NaN. *)
Definition ltb : float64 -> float64 -> bool := SFltb.
Definition leb : float64 -> float64 -> bool := SFleb.
Definition eqb : float64 -> float64 -> bool := SFeqb.

(** Go's [x > y], [x >= y] and [x != y]. *)
Definition gtb (x y : float64) : bool := ltb y x.
Definition geb (x y : float64) : bool := leb y x.
Definition neqb (x y : float64) : bool := negb (eqb x y).

(** The conversion [float64(n)] of an integer: round to nearest, ties to
    even. *)
Definition of_int (n : Z) : float64 := binary_normalize prec emax n 0 false.

(** A decimal literal [n / 10^k] of the source text, correctly rounded:
    both [n] and [10^k] are below [2^53] wherever this is used, so the one
    division rounds once. *)
Definition of_dec (n : Z) (k : Z) : float64 := div (of_int n) (of_int (10 ^ k)).

Definition is_finite (x : float64) : bool :=
  match x with
  | S754_zero _ | S754_finite _ _ _ => true
  | _ => false
  end.

Definition valid (x : float64) : bool := valid_binary prec emax x.

(** The integer part of a finite value, towards zero. *)
Definition trunc_Z (x : float64) : option Z :=
  match x with
  | S754_zero _ => Some 0
  | S754_finite s m e => Some (cond_Zopp s (Z.shiftl (Zpos m) e))
  | _ => None
  end.

(** The conversion [int(x)] (and [int64(x)]) of a float: truncation towards
    zero.  Go leaves the result open when the value does not fit; amd64's
    CVTTSD2SI, which the gc compiler emits, gives [-2^63] then and for NaN. *)
Definition to_int (x : float64) : Z :=
  match trunc_Z x with
  | Some z => if (- 2 ^ 63 <=? z) && (z <? 2 ^ 63) then z else - 2 ^ 63
  | None => - 2 ^ 63
  end.

(** [math.Pow(float64(2), float64(p))] for an integer [p]: the power of two
    itself, which binary64 holds exactly, [+Inf] above the range and [0]
    below it. *)
Definition pow2 (p : Z) : float64 := SFldexp prec emax (SFone prec emax) p.

(** [math.Pow(10, float64(places))] for a non-negative [places] small
    enough that [10^places] is below [2^53]. *)
Definition pow10 (places : Z) : float64 := of_int (10 ^ places).

(** [math.Copysign(x, sign)]. *)
Definition signbit (x : float64) : bool :=
  match x with
  | S754_zero s | S754_infinity s | S754_finite s _ _ => s
  | S754_nan => false
  end.

Definition Copysign (x sign : float64) : float64 :=
  if Bool.eqb (signbit x) (signbit sign) then x else neg x.

(** The value of [x] rounded towards zero, as a float. *)
Definition trunc (x : float64) : float64 :=
  match x with
  | S754_finite s m e =>
      if 0 <=? e then x
      else match Z.shiftl (Zpos m) e with
           | 0 => S754_zero s
           | q => binary_normalize prec emax (cond_Zopp s q) 0 s
           end
  | _ => x
  end.

(** [math.Modf(f)]: integer and fractional part, both with the sign of [f];
    [Modf(±Inf) = (±Inf, NaN)]. *)
Definition Modf (f : float64) : float64 * float64 :=
  match f with
  | S754_nan => (S754_nan, S754_nan)
  | S754_infinity _ => (f, S754_nan)
  | S754_zero _ => (f, f)
  | S754_finite _ _ _ =>
      let i := trunc f in
      (i, Copysign (sub f i) f)
  end.

(** [math.Floor] and [math.Ceil], written as the Go library does. *)
Definition Floor (x : float64) : float64 :=
  match x with
  | S754_finite true _ _ =>
      let '(d, fract) := Modf (neg x) in
      let d := if neqb fract (S754_zero false) then add d (of_int 1) else d in
      neg d
  | S754_finite false _ _ => fst (Modf x)
  | _ => x
  end.

Definition Ceil (x : float64) : float64 := neg (Floor (neg x)).

(** [math.Mod(x, y)]: the remainder of the truncated division, exact, with
    the sign of [x]. *)
Definition Mod (x y : float64) : float64 :=
  match x, y with
  | S754_nan, _ | _, S754_nan => S754_nan
  | S754_infinity _, _ => S754_nan
  | _, S754_zero _ => S754_nan
  | _, S754_infinity _ => x
  | S754_zero _, _ => x
  | S754_finite sx mx ex, S754_finite _ my ey =>
      let e := Z.min ex ey in
      let r := Z.rem (Z.shiftl (Zpos mx) (ex - e)) (Z.shiftl (Zpos my) (ey - e)) in
      binary_normalize prec emax (cond_Zopp sx r) e sx
  end.

(** The exact value of a finite float in units of [2^-1074], the spacing of
    the subnormals: every finite binary64 is an integer there. *)
Definition emin : Z := -1074.

Definition val (x : float64) : Z :=
  match x with
  | S754_finite s m e => cond_Zopp s (Zpos m * 2 ^ (e - emin))
  | _ => 0
  end.

(** The same value as a rational number. *)
Definition to_Q (x : float64) : Q := Qmake (val x) (2 ^ 1074)%positive.

(** The magnitude of a finite float with mantissa [m] and exponent [e]. *)
Definition mag (m : positive) (e : Z) : Z := Zpos m * 2 ^ (e - emin).

(** [x] is a well-formed finite binary64 of value [v]. *)
Definition represents (x : float64) (v : Z) : Prop :=
  valid x = true /\ is_finite x = true /\ val x = v.

(** A sufficient condition for binary64 to hold the value [v] exactly: at
    most 53 significant bits, and below the overflow threshold. *)
Definition exact (v : Z) : Prop :=
  exists N k, v = N * 2 ^ k /\ Z.abs N < 2 ^ 53 /\ 0 <= k <= 2045.

(** A mantissa of at most 53 bits, as every rounded result has. *)
Definition short_mantissa (x : float64) : Prop :=
  match x with
  | S754_finite _ m _ => Zpos (digits2_pos m) <= 53
  | _ => True
  end.

End Float64.

Import Float64.

(** ** Outcomes of a call *)

(** A call returns, panics with a message, or does not come back within
    the fuel its loops were given. *)
Inductive result (A : Type) : Type :=
  | Ok (a : A)
  | Panic (msg : string)
  | Diverge.

Arguments Ok {A} a.
Arguments Panic {A} msg.
Arguments Diverge {A}.

Definition bind {A B : Type} (r : result A) (k : A -> result B) : result B :=
  match r with
  | Ok a => k a
  | Panic msg => Panic msg
  | Diverge => Diverge
  end.

Notation "x <- r ;; k" := (bind r (fun x => k))
  (at level 61, r at next level, right associativity).
Notation "r ;;; k" := (bind r (fun _ => k))
  (at level 61, right associativity).

Definition is_panic {A : Type} (r : result A) : bool :=
  match r with Panic _ => true | _ => false end.

(** ** Machine integers *)

(** [int64] (and [int] on a 64-bit target) arithmetic wraps around. *)
Definition wrap64 (z : Z) : Z := (z + 2 ^ 63) mod 2 ^ 64 - 2 ^ 63.

(** [%d] of [fmt.Sprintf]. *)
Definition sprint_d (z : Z) : string := NilZero.string_of_int (Z.to_int z).

(** ** The package *)

(** [MaxBitDepth] defines both the maximum and default geohash accuracy. *)
Definition MaxBitDepth : Z := 52.

(** [bearing]: the compass direction in matrix form relative to a centre of
    0,0; [x] steps in latitude, [y] in longitude. *)
Record bearing : Type := mkBearing { x : Z; y : Z }.

Definition North : bearing := mkBearing 1 0.
Definition NorthEast : bearing := mkBearing 1 1.
Definition East : bearing := mkBearing 0 1.
Definition SouthEast : bearing := mkBearing (-1) 1.
Definition South : bearing := mkBearing (-1) 0.
Definition SouthWest : bearing := mkBearing (-1) (-1).
Definition West : bearing := mkBearing 0 (-1).
Definition NorthWest : bearing := mkBearing 1 (-1).

(** [bitsToDistanceInMeters], the map literal of [init], entry by entry. *)
Definition bitsToDistanceInMeters : list (Z * float64) :=
  [ (52, of_dec 5971 4); (50, of_dec 11943 4); (48, of_dec 23889 4);
    (46, of_dec 47774 4); (44, of_dec 95547 4); (42, of_dec 191095 4);
    (40, of_dec 382189 4); (38, of_dec 764378 4); (36, of_dec 1528757 4);
    (34, of_dec 305751 3); (32, of_dec 6115028 4); (30, of_dec 12230056 4);
    (28, of_dec 24460112 4); (26, of_dec 48920224 4); (24, of_dec 97840449 4);
    (22, of_dec 195680898 4); (20, of_dec 391361797 4);
    (18, of_dec 7827235938 5); (16, of_dec 1565447188 4);
    (14, of_dec 3130894375 4); (12, of_dec 626178875 3);
    (10, of_dec 125235775 2); (8, of_dec 25047155 1); (6, of_int 5009431);
    (4, of_int 10018863) ].

(** [validateBitDepth] will ensure the supplied bitDepth is valid or cause
    panic() otherwise. *)
Definition validateBitDepth (bitDepth : Z) : result unit :=
  if (bitDepth >? MaxBitDepth) || (bitDepth <=? 0) then
    Panic ("bitDepth must be greater than 0 and less than or equal to "
             ++ sprint_d MaxBitDepth ++ ", was " ++ sprint_d bitDepth)
  else if neqb (Mod (of_int bitDepth) (of_int 2)) (of_int 0) then
    Panic ("bitDepth must be even, was " ++ sprint_d bitDepth)
  else Ok tt.

(** The variables of [EncodeInt] that its loop reads and writes. *)
Record EncodeVars : Type := mkEncodeVars {
  bitsTotal : Z;
  maxLat : float64;
  minLat : float64;
  maxLng : float64;
  minLng : float64;
  geohash : Z
}.

(** One pass through the body of the loop of [EncodeInt]. *)
Definition EncodeInt_body (latitude longitude : float64) (v : EncodeVars)
  : EncodeVars :=
  let geohash := wrap64 (geohash v * 2) in
  if Z.rem (bitsTotal v) 2 =? 0 then
    let mid := div (add (maxLng v) (minLng v)) (of_int 2) in
    if gtb longitude mid then
      mkEncodeVars (wrap64 (bitsTotal v + 1)) (maxLat v) (minLat v)
        (maxLng v) mid (wrap64 (geohash + 1))
    else
      mkEncodeVars (wrap64 (bitsTotal v + 1)) (maxLat v) (minLat v)
        mid (minLng v) geohash
  else
    let mid := div (add (maxLat v) (minLat v)) (of_int 2) in
    if gtb latitude mid then
      mkEncodeVars (wrap64 (bitsTotal v + 1)) (maxLat v) mid
        (maxLng v) (minLng v) (wrap64 (geohash + 1))
    else
      mkEncodeVars (wrap64 (bitsTotal v + 1)) mid (minLat v)
        (maxLng v) (minLng v) geohash.

(** [for bitsTotal < bitDepth { ... }] *)
Fixpoint EncodeInt_loop (fuel : nat) (latitude longitude : float64)
  (bitDepth : Z) (v : EncodeVars) : result EncodeVars :=
  if bitsTotal v <? bitDepth then
    match fuel with
    | O => Diverge
    | S fuel' =>
        EncodeInt_loop fuel' latitude longitude bitDepth
          (EncodeInt_body latitude longitude v)
    end
  else Ok v.

Definition EncodeInt_init : EncodeVars :=
  mkEncodeVars 0 (of_int 90) (of_int (-90)) (of_int 180) (of_int (-180)) 0.

(** [EncodeInt] will encode a pair of latitude and longitude values into a
    geohash integer. *)
Definition EncodeInt (latitude longitude : float64) (bitDepth : Z) : result Z :=
  validateBitDepth bitDepth ;;;
  v <- EncodeInt_loop (Z.to_nat bitDepth) latitude longitude bitDepth
         EncodeInt_init ;;
  Ok (geohash v).

(** [getBit] returns the bit at the requested location. *)
Definition getBit (geohash position : Z) : Z :=
  Z.land (to_int (div (of_int geohash) (pow2 position))) 1.

(** A bounding box, in the order [DecodeBboxInt] returns it. *)
Record Bbox : Type := mkBbox {
  bMinLat : float64;
  bMinLng : float64;
  bMaxLat : float64;
  bMaxLng : float64
}.

(** One pass through the body of the loop of [DecodeBboxInt]. *)
Definition DecodeBboxInt_body (geohash steps thisStep : Z) (b : Bbox) : Bbox :=
  let lonBit := getBit geohash (wrap64 (wrap64 (wrap64 (steps - thisStep) * 2) - 1)) in
  let latBit := getBit geohash (wrap64 (wrap64 (wrap64 (steps - thisStep) * 2) - 2)) in
  let b :=
    if latBit =? 0 then
      mkBbox (bMinLat b) (bMinLng b)
        (div (add (bMaxLat b) (bMinLat b)) (of_int 2)) (bMaxLng b)
    else
      mkBbox (div (add (bMaxLat b) (bMinLat b)) (of_int 2)) (bMinLng b)
        (bMaxLat b) (bMaxLng b) in
  if lonBit =? 0 then
    mkBbox (bMinLat b) (bMinLng b) (bMaxLat b)
      (div (add (bMaxLng b) (bMinLng b)) (of_int 2))
  else
    mkBbox (bMinLat b) (div (add (bMaxLng b) (bMinLng b)) (of_int 2))
      (bMaxLat b) (bMaxLng b).

(** [for thisStep := int64(0); thisStep < steps; thisStep++ { ... }] *)
Fixpoint DecodeBboxInt_loop (fuel : nat) (geohash steps thisStep : Z)
  (b : Bbox) : result Bbox :=
  if thisStep <? steps then
    match fuel with
    | O => Diverge
    | S fuel' =>
        DecodeBboxInt_loop fuel' geohash steps (wrap64 (thisStep + 1))
          (DecodeBboxInt_body geohash steps thisStep b)
    end
  else Ok b.

Definition DecodeBboxInt_init : Bbox :=
  mkBbox (of_int (-90)) (of_int (-180)) (of_int 90) (of_int 180).

(** [DecodeBboxInt] will decode a geohash integer into the bounding box
    that matches it. *)
Definition DecodeBboxInt (geohash bitDepth : Z) : result Bbox :=
  validateBitDepth bitDepth ;;;
  let steps := Z.quot bitDepth 2 in
  DecodeBboxInt_loop (Z.to_nat steps) geohash steps 0 DecodeBboxInt_init.

(** What [DecodeInt] returns. *)
Record Point : Type := mkPoint {
  lat : float64;
  lng : float64;
  latErr : float64;
  lngErr : float64
}.

(** [DecodeInt] decodes an integer geohash into a latitude and a longitude
    along with the maximum error of the calculation. *)
Definition DecodeInt (geohash bitDepth : Z) : result Point :=
  validateBitDepth bitDepth ;;;
  b <- DecodeBboxInt geohash bitDepth ;;
  let lat := div (add (bMinLat b) (bMaxLat b)) (of_int 2) in
  let lng := div (add (bMinLng b) (bMaxLng b)) (of_int 2) in
  let latErr := sub (bMaxLat b) lat in
  let lngErr := sub (bMaxLng b) lng in
  Ok (mkPoint lat lng latErr lngErr).

(** [NeighborInt] will find the neighbor of a integer geohash in certain
    bearing/direction. *)
Definition NeighborInt (geohash : Z) (bearing : bearing) (bitDepth : Z)
  : result Z :=
  validateBitDepth bitDepth ;;;
  p <- DecodeInt geohash bitDepth ;;
  let neighborLat :=
    add (lat p) (mul (mul (of_int (x bearing)) (latErr p)) (of_int 2)) in
  let neighborLng :=
    add (lng p) (mul (mul (of_int (y bearing)) (lngErr p)) (of_int 2)) in
  EncodeInt neighborLat neighborLng bitDepth.

(** [NeighborsInt] is the same as calling [NeighborInt] for each direction
    and will return all 8 neighbors and the center location. *)
Definition NeighborsInt (geohash bitDepth : Z) : result (list Z) :=
  validateBitDepth bitDepth ;;;
  let output := [] in
  n <- NeighborInt geohash North bitDepth ;; let output := output ++ [n] in
  n <- NeighborInt geohash NorthEast bitDepth ;; let output := output ++ [n] in
  n <- NeighborInt geohash East bitDepth ;; let output := output ++ [n] in
  n <- NeighborInt geohash SouthEast bitDepth ;; let output := output ++ [n] in
  n <- NeighborInt geohash South bitDepth ;; let output := output ++ [n] in
  n <- NeighborInt geohash SouthWest bitDepth ;; let output := output ++ [n] in
  n <- NeighborInt geohash West bitDepth ;; let output := output ++ [n] in
  n <- NeighborInt geohash NorthWest bitDepth ;; let output := output ++ [n] in
  let output := output ++ [geohash] in
  Ok output.

(** [round] is the "missing" round function from the math lib. *)
Definition round (val roundOn : float64) (places : Z) : float64 :=
  let pow := pow10 places in
  let digit := mul pow val in
  let '(_, div') := Modf digit in
  let _div := Copysign div' val in
  let _roundOn := Copysign roundOn val in
  let round := if geb _div _roundOn then Ceil digit else Floor digit in
  div round pow.

(** [for lng := 0; lng <= int(lngStep); lng++ { ... }], the inner loop of
    [BboxesInt]. *)
Fixpoint BboxesInt_lng (fuel : nat) (hashSouthWest bitDepth : Z)
  (lngStep : float64) (lat lng : Z) (output : list Z) : result (list Z) :=
  if lng <=? to_int lngStep then
    match fuel with
    | O => Diverge
    | S fuel' =>
        n <- NeighborInt hashSouthWest (mkBearing lat lng) bitDepth ;;
        BboxesInt_lng fuel' hashSouthWest bitDepth lngStep lat
          (wrap64 (lng + 1)) (output ++ [n])
    end
  else Ok output.

(** [for lat := 0; lat <= int(latStep); lat++ { ... }], the outer loop. *)
Fixpoint BboxesInt_lat (fuel : nat) (hashSouthWest bitDepth : Z)
  (latStep lngStep : float64) (lat : Z) (output : list Z) : result (list Z) :=
  if lat <=? to_int latStep then
    match fuel with
    | O => Diverge
    | S fuel' =>
        output <- BboxesInt_lng (Z.to_nat (to_int lngStep + 1)) hashSouthWest
                    bitDepth lngStep lat 0 output ;;
        BboxesInt_lat fuel' hashSouthWest bitDepth latStep lngStep
          (wrap64 (lat + 1)) output
    end
  else Ok output.

(** [BboxesInt] will return all the hash integers between minLat, minLon,
    maxLat, maxLon at the requested bitDepth. *)
Definition BboxesInt (minLat minLon maxLat maxLon : float64) (bitDepth : Z)
  : result (list Z) :=
  validateBitDepth bitDepth ;;;
  hashSouthWest <- EncodeInt minLat minLon bitDepth ;;
  hashNorthEast <- EncodeInt maxLat maxLon bitDepth ;;
  p <- DecodeInt hashSouthWest bitDepth ;;
  let perLat := mul (latErr p) (of_int 2) in
  let perLng := mul (lngErr p) (of_int 2) in
  sw <- DecodeBboxInt hashSouthWest bitDepth ;;
  ne <- DecodeBboxInt hashNorthEast bitDepth ;;
  let latStep := round (div (sub (bMinLat ne) (bMinLat sw)) perLat) (of_dec 5 1) 0 in
  let lngStep := round (div (sub (bMaxLng ne) (bMaxLng sw)) perLng) (of_dec 5 1) 0 in
  BboxesInt_lat (Z.to_nat (to_int latStep + 1)) hashSouthWest bitDepth
    latStep lngStep 0 [].

(** The body of [for key, value := range bitsToDistanceInMeters] of
    [FindBitDepth], over the entries in the order the range yields them.
    Go leaves the order of a map range open, so it is an argument. *)
Fixpoint FindBitDepth_range (entries : list (Z * float64))
  (distanceMeters : float64) : Z :=
  match entries with
  | [] => 0
  | (key, value) :: rest =>
      if gtb value distanceMeters then wrap64 (MaxBitDepth - key)
      else FindBitDepth_range rest distanceMeters
  end.

(** The orders a range over [bitsToDistanceInMeters] can take. *)
Definition range_order (entries : list (Z * float64)) : Prop :=
  Permutation entries bitsToDistanceInMeters.

(** [FindBitDepth] will attempt to find the maximum bitdepth which contains
    the supplied distance; [order] is the order this call's range takes. *)
Definition FindBitDepth (order : list (Z * float64)) (distanceMeters : float64)
  : Z :=
  FindBitDepth_range order distanceMeters.

(** [Shift] provides a convenient way to convert from MaxBitDepth to
    another. *)
Definition Shift (value bitDepth : Z) : result Z :=
  validateBitDepth bitDepth ;;;
  Ok (wrap64 (Z.shiftl value (wrap64 (MaxBitDepth - bitDepth) mod 2 ^ 64))).

(** The sibling revision of the file (src/unnamed/part_000) keeps the radii
    in a slice indexed by [(MaxBitDepth - bitDepth) / 2]. *)
Module RadiusSlice.

Definition bitsToRadiusMap : list float64 :=
  [ of_dec 5971 4; of_dec 11943 4; of_dec 23889 4; of_dec 47774 4;
    of_dec 95547 4; of_dec 191095 4; of_dec 382189 4; of_dec 764378 4;
    of_dec 1528757 4; of_dec 305751 3; of_dec 6115028 4; of_dec 12230056 4;
    of_dec 24460112 4; of_dec 48920224 4; of_dec 97840449 4;
    of_dec 195680898 4; of_dec 391361797 4; of_dec 7827235938 5;
    of_dec 1565447188 4; of_dec 3130894375 4; of_dec 626178875 3;
    of_dec 125235775 2; of_dec 25047155 1; of_int 5009431;
    of_int 10018863 ].

(** [for key, value := range bitsToRadiusMap], from index [key] on. *)
Fixpoint FindBitDepth_range (key : Z) (values : list float64)
  (distance : float64) : Z :=
  match values with
  | [] => 0
  | value :: rest =>
      if gtb value distance then wrap64 (MaxBitDepth - wrap64 (key * 2))
      else FindBitDepth_range (key + 1) rest distance
  end.

Definition FindBitDepth (distance : float64) : Z :=
  FindBitDepth_range 0 bitsToRadiusMap distance.

End RadiusSlice.

(** ** Vocabulary of the specification *)

(** A bit depth the validator accepts: even and in [(0, 52]]. *)
Definition valid_depth (bitDepth : Z) : Prop :=
  0 < bitDepth <= 52 /\ Z.even bitDepth = true.

(** The value, in units of [2^-1074], of boundary [j] of the subdivision of
    [[-H, H]] into [2^s] cells: [-H + j * 2H / 2^s]. *)
Definition grid (H s j : Z) : Z := H * (2 * j - 2 ^ s) * 2 ^ (1074 - s).

(** [lo] and [hi] are the two boundaries of cell [a] at level [s]. *)
Definition cell (H s a : Z) (lo hi : float64) : Prop :=
  represents lo (grid H s a) /\ represents hi (grid H s (a + 1)).

(** The index of the cell that [t] decoding steps out of [steps] reach,
    when [bit] gives the bit the decoder reads at each position: the
    latitude bit of step [i] is at position [2 * (steps - i) - 2] and the
    longitude bit at [2 * (steps - i) - 1]. *)
Fixpoint latIndex (bit : Z -> Z) (steps : Z) (t : nat) : Z :=
  match t with
  | O => 0
  | S t' =>
      2 * latIndex bit steps t'
      + (if bit (2 * (steps - Z.of_nat t') - 2) =? 0 then 0 else 1)
  end.

Fixpoint lngIndex (bit : Z -> Z) (steps : Z) (t : nat) : Z :=
  match t with
  | O => 0
  | S t' =>
      2 * lngIndex bit steps t'
      + (if bit (2 * (steps - Z.of_nat t') - 1) =? 0 then 0 else 1)
  end.

(** Bit [p] of a non-negative integer, as [0] or [1]. *)
Definition bitOf (h p : Z) : Z := Z.b2z (Z.testbit h p).

(** The depths the validator turns down. *)
Definition invalid_depth (bitDepth : Z) : Prop :=
  bitDepth <= 0 \/ 52 < bitDepth \/ Z.odd bitDepth = true.

(** What the validator answers at [d], against the parity of [d]. *)
Definition validate_agrees (d : Z) : bool :=
  match validateBitDepth d with
  | Ok _ => Z.even d
  | Panic _ => Z.odd d
  | Diverge => false
  end.

(** The state of the encoder after [t] pairs of passes over a point of
    exact coordinates [la] and [ln]: its two intervals are the cells whose
    indices are the bits of the hash so far, and they contain the point. *)
Definition encode_inv (la ln : Z) (t : Z) (v : EncodeVars) : Prop :=
  bitsTotal v = 2 * t /\ 0 <= geohash v < 4 ^ t /\
  cell 90 t (latIndex (bitOf (geohash v)) t (Z.to_nat t)) (minLat v) (maxLat v) /\
  cell 180 t (lngIndex (bitOf (geohash v)) t (Z.to_nat t)) (minLng v) (maxLng v) /\
  grid 90 t (latIndex (bitOf (geohash v)) t (Z.to_nat t)) <= la
    <= grid 90 t (latIndex (bitOf (geohash v)) t (Z.to_nat t) + 1) /\
  grid 180 t (lngIndex (bitOf (geohash v)) t (Z.to_nat t)) <= ln
    <= grid 180 t (lngIndex (bitOf (geohash v)) t (Z.to_nat t) + 1).

(** The state of the encoder after [t] pairs of passes over the centre of
    the cell of hash [h] at [s] steps: the hash so far is the top of [h],
    and the intervals are those the decoder had after [t] steps. *)
Definition reencode_inv (h s : Z) (t : Z) (v : EncodeVars) : Prop :=
  bitsTotal v = 2 * t /\ geohash v = h / 4 ^ (s - t) /\
  cell 90 t (latIndex (getBit h) s (Z.to_nat t)) (minLat v) (maxLat v) /\
  cell 180 t (lngIndex (getBit h) s (Z.to_nat t)) (minLng v) (maxLng v).

(** An entry of the table: a well-formed finite radius, at most the radius
    of key 4. *)
Definition radius_ok (kv : Z * float64) : bool :=
  valid (snd kv) && is_finite (snd kv) && (val (snd kv) <=? 10018863 * 2 ^ 1074).

(** The row and the column of the cell of a hash, [steps] bisections deep:
    the numbers its latitude bits (even positions) and its longitude bits
    (odd positions) spell, most significant first. *)
Definition rowOf (h steps : Z) : Z := latIndex (bitOf h) steps (Z.to_nat steps).
Definition colOf (h steps : Z) : Z := lngIndex (bitOf h) steps (Z.to_nat steps).

(** [x] falls into cell [a] of the [2^s] cells of [[-H, H]]: above its lower
    boundary and at most at its upper one; the first cell also takes what
    lies at or below, and the last what lies above. *)
Definition in_cell (H s a x : Z) : Prop :=
  (a = 0 \/ grid H s a < x) /\ (a = 2 ^ s - 1 \/ x <= grid H s (a + 1)).

(** The cell index nearest to [a] among the [2^s] of a level. *)
Definition clamp (s a : Z) : Z := Z.max 0 (Z.min (2 ^ s - 1) a).

(** The state of the encoder after [t] pairs of passes over any finite
    point: its intervals are the cells its hash spells, and the point falls
    into them. *)
Definition encode_cell_inv (la ln : Z) (t : Z) (v : EncodeVars) : Prop :=
  bitsTotal v = 2 * t /\ 0 <= geohash v < 4 ^ t /\
  cell 90 t (rowOf (geohash v) t) (minLat v) (maxLat v) /\
  cell 180 t (colOf (geohash v) t) (minLng v) (maxLng v) /\
  in_cell 90 t (rowOf (geohash v) t) la /\
  in_cell 180 t (colOf (geohash v) t) ln.

(** * Facts about binary64 *)

Lemma fexp_eq e : fexp prec emax e = Z.max (e - 53) (-1074).
Proof. reflexivity. Qed.

Lemma digits2_pos_bounds (m : positive) :
  2 ^ (Zpos (digits2_pos m) - 1) <= Zpos m < 2 ^ Zpos (digits2_pos m).
Proof.
  induction m as [m IH | m IH |]; simpl digits2_pos.
  - rewrite Pos2Z.inj_succ.
    replace (Z.succ (Zpos (digits2_pos m)) - 1) with (Z.succ (Zpos (digits2_pos m) - 1)) by lia.
    rewrite !Z.pow_succ_r by lia. lia.
  - rewrite Pos2Z.inj_succ.
    replace (Z.succ (Zpos (digits2_pos m)) - 1) with (Z.succ (Zpos (digits2_pos m) - 1)) by lia.
    rewrite !Z.pow_succ_r by lia. lia.
  - simpl. lia.
Qed.

Lemma digits_unique (m : positive) (d : Z) :
  2 ^ (d - 1) <= Zpos m < 2 ^ d -> Zpos (digits2_pos m) = d.
Proof.
  intros [Hlo Hhi]. pose proof (digits2_pos_bounds m) as [Glo Ghi].
  set (d' := Zpos (digits2_pos m)) in *.
  assert (0 < d') by (unfold d'; lia).
  destruct (Z.lt_trichotomy d' d) as [Hlt | [Heq | Hgt]]; [exfalso | exact Heq | exfalso].
  - assert (2 ^ d' <= 2 ^ (d - 1)) by (apply Z.pow_le_mono_r; lia). lia.
  - destruct (Z_lt_le_dec d 0) as [Hneg | Hnn].
    + rewrite Z.pow_neg_r in Hhi by lia. lia.
    + assert (2 ^ d <= 2 ^ (d' - 1)) by (apply Z.pow_le_mono_r; lia). lia.
Qed.

Lemma digits_mul_pow2 (m r : positive) (k : Z) :
  0 <= k -> Zpos r = Zpos m * 2 ^ k ->
  Zpos (digits2_pos r) = Zpos (digits2_pos m) + k.
Proof.
  intros Hk Hr. apply digits_unique. rewrite Hr.
  pose proof (digits2_pos_bounds m) as [Glo Ghi].
  replace (Zpos (digits2_pos m) + k - 1) with ((Zpos (digits2_pos m) - 1) + k) by lia.
  rewrite !Z.pow_add_r by lia.
  assert (0 < 2 ^ k) by (apply Z.pow_pos_nonneg; lia).
  split; [apply Z.mul_le_mono_nonneg_r | apply Z.mul_lt_mono_pos_r]; lia.
Qed.

Lemma iter_xO_val (d m : positive) :
  Zpos (Pos.iter xO m d) = Zpos m * 2 ^ Zpos d.
Proof.
  induction d as [| d IH] using Pos.peano_ind.
  - simpl. lia.
  - rewrite Pos.iter_succ, Pos2Z.inj_succ, Z.pow_succ_r by lia.
    change (Zpos (Pos.iter xO m d)~0) with (2 * Zpos (Pos.iter xO m d)). lia.
Qed.

Lemma iter_pos_nat {A} (f : A -> A) (p : positive) (a : A) :
  iter_pos f p a = Nat.iter (Pos.to_nat p) f a.
Proof.
  revert a. induction p as [p IH | p IH |]; intros a; simpl iter_pos.
  - rewrite !IH, Pos2Nat.inj_xI.
    replace (S (2 * Pos.to_nat p)) with (Pos.to_nat p + S (Pos.to_nat p))%nat by lia.
    rewrite Nat.iter_add, Nat.iter_succ_r. reflexivity.
  - rewrite !IH, Pos2Nat.inj_xO.
    replace (2 * Pos.to_nat p)%nat with (Pos.to_nat p + Pos.to_nat p)%nat by lia.
    now rewrite Nat.iter_add.
  - reflexivity.
Qed.

Lemma shr_1_iter_exact (n : nat) (k : positive) (M : Z) :
  M = Zpos k * 2 ^ Z.of_nat n ->
  Nat.iter n shr_1 (Build_shr_record M false false)
  = Build_shr_record (Zpos k) false false.
Proof.
  revert M. induction n as [| n IH]; intros M HM.
  - simpl in *. f_equal. lia.
  - rewrite Nat.iter_succ_r.
    rewrite Nat2Z.inj_succ, Z.pow_succ_r in HM by lia.
    assert (Hpos : 0 < Zpos k * 2 ^ Z.of_nat n)
      by (apply Z.mul_pos_pos; [lia | apply Z.pow_pos_nonneg; lia]).
    destruct (Zpos k * 2 ^ Z.of_nat n) as [| q | q] eqn:Hq; try lia.
    replace M with (Zpos (xO q)) by lia.
    cbn [shr_1 orb]. now apply IH.
Qed.

Lemma shr_exact (p k : positive) (M e : Z) :
  M = Zpos k * 2 ^ Zpos p ->
  shr (Build_shr_record M false false) e (Zpos p)
  = (Build_shr_record (Zpos k) false false, e + Zpos p).
Proof.
  intros HM. unfold shr. rewrite iter_pos_nat.
  rewrite (shr_1_iter_exact _ k); [reflexivity |].
  now rewrite positive_nat_Z.
Qed.

(** [binary_round_aux] on an exactly located mantissa that is already short
    enough is the identity. *)
Lemma binary_round_aux_id (sx : bool) (mx : positive) (ex : Z) :
  fexp prec emax (Zpos (digits2_pos mx) + ex) <= ex ->
  ex <= 971 ->
  binary_round_aux prec emax sx (Zpos mx) ex loc_Exact = S754_finite sx mx ex.
Proof.
  intros Hn He. unfold binary_round_aux, shr_fexp.
  cbn [Zdigits2 shr_record_of_loc].
  assert (Hshr : forall r, shr r ex (fexp prec emax (Zpos (digits2_pos mx) + ex) - ex) = (r, ex)).
  { intros r. unfold shr.
    destruct (fexp prec emax (Zpos (digits2_pos mx) + ex) - ex) eqn:E; try reflexivity. lia. }
  rewrite Hshr. cbn [shr_m loc_of_shr_record round_nearest_even Zdigits2 shr_record_of_loc].
  rewrite Hshr. cbn [shr_m].
  replace (ex <=? emax - prec) with true; [reflexivity |].
  symmetry. apply Z.leb_le. unfold emax, prec. lia.
Qed.

(** ... and when it is too long by [n] bits that are all zero, they are
    dropped. *)
Lemma binary_round_aux_shr (sx : bool) (mx k : positive) (ex : Z) (n : positive) :
  fexp prec emax (Zpos (digits2_pos mx) + ex) - ex = Zpos n ->
  Zpos mx = Zpos k * 2 ^ Zpos n ->
  ex + Zpos n <= 971 ->
  binary_round_aux prec emax sx (Zpos mx) ex loc_Exact
  = S754_finite sx k (ex + Zpos n).
Proof.
  intros Hn Hk He. unfold binary_round_aux, shr_fexp.
  cbn [Zdigits2 shr_record_of_loc]. rewrite Hn.
  rewrite (shr_exact n k) by exact Hk.
  cbn [shr_m loc_of_shr_record round_nearest_even Zdigits2 shr_record_of_loc].
  assert (Hd : Zpos (digits2_pos mx) = Zpos (digits2_pos k) + Zpos n)
    by (apply digits_mul_pow2; [lia | exact Hk]).
  replace (Zpos (digits2_pos k) + (ex + Zpos n)) with (Zpos (digits2_pos mx) + ex) by lia.
  replace (fexp prec emax (Zpos (digits2_pos mx) + ex) - (ex + Zpos n)) with 0 by lia.
  cbn [shr shr_m].
  replace (ex + Zpos n <=? emax - prec) with true; [reflexivity |].
  symmetry. apply Z.leb_le. unfold emax, prec. lia.
Qed.


Lemma pow2_pos (k : Z) : 0 <= k -> 0 < 2 ^ k.
Proof. intros; apply Z.pow_pos_nonneg; lia. Qed.

Lemma pow2_lt_inv (a b : Z) : 0 <= b -> 2 ^ a < 2 ^ b -> a < b.
Proof. intros Hb H. apply (Z.pow_lt_mono_r_iff 2); lia. Qed.

Lemma pow2_split (a b : Z) : 0 <= b <= a -> 2 ^ a = 2 ^ (a - b) * 2 ^ b.
Proof. intros H. rewrite <- Z.pow_add_r by lia. f_equal; lia. Qed.

Lemma valid_finite_intro (s : bool) (m : positive) (e : Z) :
  fexp prec emax (Zpos (digits2_pos m) + e) = e -> e <= 971 ->
  valid (S754_finite s m e) = true.
Proof.
  intros Hc He. unfold valid, valid_binary, bounded, canonical_mantissa.
  rewrite Hc, Z.eqb_refl. apply Z.leb_le. unfold emax, prec. lia.
Qed.

(** An exact positive value has at most [53] significant bits above its
    trailing zeros, and is below [2^2098]. *)
Lemma exact_shape (mx : positive) (u : Z) :
  0 <= u -> exact (Zpos mx * 2 ^ u) ->
  Zpos (digits2_pos mx) + u <= 2098 /\
  (53 < Zpos (digits2_pos mx) ->
   exists K : positive, Zpos mx = Zpos K * 2 ^ (Zpos (digits2_pos mx) - 53)).
Proof.
  intros Hu (N & k & HV & HN & Hk).
  pose proof (digits2_pos_bounds mx) as [Dlo Dhi].
  set (d := Zpos (digits2_pos mx)) in *.
  assert (Hd : 0 < d) by (unfold d; lia).
  pose proof (pow2_pos u Hu) as Pu. pose proof (pow2_pos k ltac:(lia)) as Pk.
  assert (HNpos : 0 < N) by nia.
  rewrite Z.abs_eq in HN by lia.
  split.
  - (* 2^(d-1+u) <= V < 2^(53+k) *)
    assert (2 ^ (d - 1 + u) < 2 ^ (53 + k)).
    { rewrite !Z.pow_add_r by lia.
      apply Z.le_lt_trans with (Zpos mx * 2 ^ u).
      - apply Z.mul_le_mono_nonneg_r; lia.
      - rewrite HV. apply Z.mul_lt_mono_pos_r; lia. }
    apply pow2_lt_inv in H; lia.
  - intros Hbig.
    destruct (Z_le_gt_dec k u) as [Hku | Hku].
    + exfalso. rewrite (pow2_split u k) in HV by lia.
      assert (Zpos mx * 2 ^ (u - k) = N) by nia.
      assert (Zpos mx <= N).
      { pose proof (pow2_pos (u - k) ltac:(lia)). nia. }
      assert (2 ^ (d - 1) < 2 ^ 53) by lia.
      apply pow2_lt_inv in H1; lia.
    + rewrite (pow2_split k u) in HV by lia.
      assert (Hm : Zpos mx = N * 2 ^ (k - u)) by nia.
      assert (Hj : d - 53 <= k - u).
      { assert (2 ^ (d - 1) < 2 ^ (53 + (k - u))).
        { rewrite Z.pow_add_r by lia. rewrite Hm in Dlo.
          pose proof (pow2_pos (k - u) ltac:(lia)). nia. }
        apply pow2_lt_inv in H; lia. }
      rewrite (pow2_split (k - u) (d - 53)) in Hm by lia.
      pose proof (pow2_pos (k - u - (d - 53)) ltac:(lia)).
      exists (Z.to_pos (N * 2 ^ (k - u - (d - 53)))).
      rewrite Z2Pos.id by nia. lia.
Qed.

(** Rounding a value that binary64 holds changes nothing. *)
Lemma binary_round_exact (sx : bool) (mx : positive) (ex : Z) :
  emin <= ex -> exact (Zpos mx * 2 ^ (ex - emin)) ->
  represents (binary_round prec emax sx mx ex)
    (cond_Zopp sx (Zpos mx * 2 ^ (ex - emin))).
Proof.
  unfold emin. intros He Hex.
  destruct (exact_shape mx (ex - -1074) ltac:(lia) Hex) as [Hsz Hdiv].
  pose proof (digits2_pos_bounds mx) as [Dlo Dhi].
  unfold binary_round, shl_align.
  set (d := Zpos (digits2_pos mx)) in *.
  assert (Hd : 0 < d) by (unfold d; lia).
  pose proof (fexp_eq (d + ex)) as Hf.
  destruct (fexp prec emax (d + ex) - ex) as [| n | n] eqn:Hn.
  - (* already canonical *)
    rewrite binary_round_aux_id by (fold d; lia).
    split; [| split; [reflexivity | reflexivity]].
    apply valid_finite_intro; fold d; lia.
  - (* too long: the low bits are zero *)
    assert (Hbig : 53 < d) by lia.
    destruct (Hdiv Hbig) as [K HK].
    assert (Hnd : Zpos n = d - 53) by lia.
    rewrite (binary_round_aux_shr sx mx K ex n); fold d; try lia.
    2:{ rewrite Hnd. exact HK. }
    assert (HdK : d = Zpos (digits2_pos K) + (d - 53))
      by (apply digits_mul_pow2; [lia | exact HK]).
    split; [| split; [reflexivity |]].
    + apply valid_finite_intro; [| lia].
      rewrite fexp_eq. lia.
    + unfold val, emin. f_equal. rewrite HK.
      rewrite (pow2_split (ex + Zpos n - -1074) (ex - -1074)) by lia.
      replace (ex + Zpos n - -1074 - (ex - -1074)) with (d - 53) by lia. lia.
  - (* too short: shift left *)
    pose proof (iter_xO_val n mx) as Hmz.
    set (mz := Pos.iter xO mx n) in *.
    assert (Hdz : Zpos (digits2_pos mz) = d + Zpos n)
      by (apply digits_mul_pow2; [lia | exact Hmz]).
    assert (Hfz : fexp prec emax (Zpos (digits2_pos mz) + fexp prec emax (d + ex))
                  = fexp prec emax (d + ex)).
    { rewrite Hdz. replace (d + Zpos n + fexp prec emax (d + ex)) with (d + ex) by lia.
      reflexivity. }
    rewrite binary_round_aux_id by lia.
    split; [| split; [reflexivity |]].
    + apply valid_finite_intro; [exact Hfz | lia].
    + unfold val, emin. f_equal. rewrite Hmz.
      rewrite (pow2_split (ex - -1074) (fexp prec emax (d + ex) - -1074)) by lia.
      replace (ex - -1074 - (fexp prec emax (d + ex) - -1074)) with (Zpos n) by lia. lia.
Qed.

Lemma exact_opp (v : Z) : exact v -> exact (- v).
Proof.
  intros (N & k & HV & HN & Hk). exists (- N), k.
  rewrite Z.abs_opp. repeat split; try lia.
Qed.

Lemma exact_0 : exact 0.
Proof. exists 0, 0. simpl. lia. Qed.

Lemma binary_normalize_exact (M e : Z) (szero : bool) :
  emin <= e -> exact (M * 2 ^ (e - emin)) ->
  represents (binary_normalize prec emax M e szero) (M * 2 ^ (e - emin)).
Proof.
  intros He Hex. destruct M as [| m | m]; unfold binary_normalize.
  - repeat split.
  - exact (binary_round_exact false m e He Hex).
  - change (Zneg m) with (- Zpos m) in *. rewrite Z.mul_opp_l in *.
    apply (binary_round_exact true m e He).
    rewrite <- (Z.opp_involutive (Zpos m * 2 ^ (e - emin))).
    now apply exact_opp.
Qed.

(** A valid finite float has its exponent at or above [emin]. *)
Lemma valid_finite_emin (s : bool) (m : positive) (e : Z) :
  valid (S754_finite s m e) = true -> emin <= e /\ e <= 971.
Proof.
  unfold valid, valid_binary, bounded, canonical_mantissa.
  intros H. apply andb_prop in H as [Hc He].
  apply Z.eqb_eq in Hc. apply Z.leb_le in He.
  rewrite fexp_eq in Hc. unfold emin, emax, prec in *. lia.
Qed.

Lemma aligned_val (s : bool) (m : positive) (e ez : Z) :
  emin <= ez <= e ->
  cond_Zopp s (Zpos (fst (shl_align m e ez))) * 2 ^ (ez - emin)
  = val (S754_finite s m e).
Proof.
  unfold emin. intros H. unfold shl_align, val, emin.
  rewrite (pow2_split (e - -1074) (ez - -1074)) by lia.
  replace (e - -1074 - (ez - -1074)) with (e - ez) by lia.
  destruct (ez - e) as [| d | d] eqn:Hd; cbn [fst]; try lia.
  - replace (e - ez) with 0 by lia. rewrite Z.pow_0_r. destruct s; unfold cond_Zopp; lia.
  - rewrite iter_xO_val. replace (e - ez) with (Zpos d) by lia.
    destruct s; unfold cond_Zopp; lia.
Qed.

(** Addition is exact when binary64 holds the sum. *)
Lemma add_exact (x y : float64) (a b : Z) :
  represents x a -> represents y b -> exact (a + b) ->
  represents (add x y) (a + b).
Proof.
  intros (Vx & Fx & Hx) (Vy & Fy & Hy) Hex.
  destruct x as [sx | sx | | sx mx ex]; try discriminate Fx;
  destruct y as [sy | sy | | sy my ey]; try discriminate Fy.
  - simpl in Hx, Hy. subst a b. destruct sx, sy; repeat split.
  - simpl in Hx. subst a. simpl. repeat split; assumption.
  - simpl in Hy. subst b. rewrite Z.add_0_r. simpl. repeat split; assumption.
  - destruct (valid_finite_emin _ _ _ Vx), (valid_finite_emin _ _ _ Vy).
    unfold add, SFadd.
    set (ez := Z.min ex ey).
    assert (Hsum : (cond_Zopp sx (Zpos (fst (shl_align mx ex ez)))
                    + cond_Zopp sy (Zpos (fst (shl_align my ey ez)))) * 2 ^ (ez - emin)
                   = a + b).
    { rewrite Z.mul_add_distr_r, !aligned_val by (unfold ez; lia). congruence. }
    rewrite <- Hsum. apply binary_normalize_exact; [unfold ez; lia |].
    now rewrite Hsum.
Qed.

(** So is subtraction. *)
Lemma sub_exact (x y : float64) (a b : Z) :
  represents x a -> represents y b -> exact (a - b) ->
  represents (sub x y) (a - b).
Proof.
  intros (Vx & Fx & Hx) (Vy & Fy & Hy) Hex.
  destruct x as [sx | sx | | sx mx ex]; try discriminate Fx;
  destruct y as [sy | sy | | sy my ey]; try discriminate Fy.
  - simpl in Hx, Hy. subst a b. destruct sx, sy; repeat split.
  - simpl in Hx. subst a. simpl. repeat split; try assumption.
    rewrite <- Hy. unfold val. destruct sy; unfold negb, cond_Zopp; lia.
  - simpl in Hy. subst b. rewrite Z.sub_0_r. simpl. repeat split; assumption.
  - destruct (valid_finite_emin _ _ _ Vx), (valid_finite_emin _ _ _ Vy).
    unfold sub, SFsub.
    set (ez := Z.min ex ey).
    assert (Hsum : (cond_Zopp sx (Zpos (fst (shl_align mx ex ez)))
                    - cond_Zopp sy (Zpos (fst (shl_align my ey ez)))) * 2 ^ (ez - emin)
                   = a - b).
    { rewrite Z.mul_sub_distr_r, !aligned_val by (unfold ez; lia). congruence. }
    rewrite <- Hsum. apply binary_normalize_exact; [unfold ez; lia |].
    now rewrite Hsum.
Qed.

(** Integers below [2^53] convert exactly. *)
Lemma of_int_exact (n : Z) :
  Z.abs n < 2 ^ 53 -> represents (of_int n) (n * 2 ^ 1074).
Proof.
  intros Hn. unfold of_int.
  change (2 ^ 1074) with (2 ^ (0 - emin)).
  apply binary_normalize_exact; [unfold emin; lia |].
  exists n, 1074. unfold emin. repeat split; lia.
Qed.


Lemma mag_pos (m : positive) (e : Z) : emin <= e -> 0 < mag m e.
Proof.
  intros He. unfold mag. apply Z.mul_pos_pos; [lia | apply pow2_pos; lia].
Qed.

Lemma valid_finite_digits (s : bool) (m : positive) (e : Z) :
  valid (S754_finite s m e) = true ->
  Zpos (digits2_pos m) <= 53 /\ (emin < e -> Zpos (digits2_pos m) = 53).
Proof.
  unfold valid, valid_binary, bounded, canonical_mantissa.
  intros H. apply andb_prop in H as [Hc He].
  apply Z.eqb_eq in Hc. rewrite fexp_eq in Hc. unfold emin. lia.
Qed.

Lemma mag_lt_exp (s1 s2 : bool) (m1 m2 : positive) (e1 e2 : Z) :
  valid (S754_finite s1 m1 e1) = true ->
  valid (S754_finite s2 m2 e2) = true ->
  e1 < e2 -> mag m1 e1 < mag m2 e2.
Proof.
  intros V1 V2 Hlt.
  destruct (valid_finite_emin _ _ _ V1) as [L1 _].
  destruct (valid_finite_digits _ _ _ V1) as [D1 _].
  destruct (valid_finite_digits _ _ _ V2) as [_ D2].
  specialize (D2 ltac:(lia)).
  pose proof (digits2_pos_bounds m1) as [_ B1].
  pose proof (digits2_pos_bounds m2) as [B2 _].
  rewrite D2 in B2. unfold mag, emin in *.
  assert (Zpos m1 < 2 ^ 53).
  { apply Z.lt_le_trans with (1 := B1). apply Z.pow_le_mono_r; lia. }
  pose proof (pow2_pos (e1 - -1074) ltac:(lia)) as P1.
  rewrite (pow2_split (e2 - -1074) (e1 - -1074 + 1)) by lia.
  rewrite (Z.pow_add_r 2 (e1 - -1074) 1) by lia.
  pose proof (pow2_pos (e2 - -1074 - (e1 - -1074 + 1)) ltac:(lia)) as P2.
  change (2 ^ (53 - 1)) with 4503599627370496 in B2.
  change (2 ^ 53) with 9007199254740992 in H.
  change (2 ^ 1) with 2.
  set (P := 2 ^ (e1 - -1074)) in *.
  set (R := 2 ^ (e2 - -1074 - (e1 - -1074 + 1))) in *.
  assert (S1 : Zpos m1 * P < 9007199254740992 * P)
    by (apply Z.mul_lt_mono_pos_r; lia).
  assert (S2 : 4503599627370496 * (P * 2) <= Zpos m2 * (P * 2))
    by (apply Z.mul_le_mono_nonneg_r; lia).
  assert (S3 : Zpos m2 * (P * 2) * 1 <= Zpos m2 * (P * 2) * R)
    by (apply Z.mul_le_mono_nonneg_l; lia).
  lia.
Qed.

Lemma mag_compare (s1 s2 : bool) (m1 m2 : positive) (e1 e2 : Z) :
  valid (S754_finite s1 m1 e1) = true ->
  valid (S754_finite s2 m2 e2) = true ->
  match e1 ?= e2 with
  | Lt => Lt
  | Gt => Gt
  | Eq => Pos.compare_cont Eq m1 m2
  end = (mag m1 e1 ?= mag m2 e2).
Proof.
  intros V1 V2. destruct (Z.compare_spec e1 e2) as [Heq | Hlt | Hgt].
  - subst e2. destruct (valid_finite_emin _ _ _ V1) as [L1 _].
    unfold mag. pose proof (pow2_pos (e1 - emin) ltac:(lia)) as P.
    change (Pos.compare_cont Eq m1 m2) with (Zpos m1 ?= Zpos m2).
    apply Zmult_compare_compat_r. lia.
  - symmetry. apply Z.compare_lt_iff. eapply mag_lt_exp; eassumption.
  - symmetry. apply Z.compare_gt_iff. eapply mag_lt_exp; eassumption.
Qed.

(** On valid finite floats the comparison of binary64 is that of the
    values. *)
Lemma compare_val (x y : float64) :
  valid x = true -> valid y = true ->
  is_finite x = true -> is_finite y = true ->
  SFcompare x y = Some (val x ?= val y).
Proof.
  intros Vx Vy Fx Fy.
  destruct x as [sx | sx | | sx mx ex]; try discriminate Fx;
  destruct y as [sy | sy | | sy my ey]; try discriminate Fy.
  - reflexivity.
  - destruct (valid_finite_emin _ _ _ Vy) as [L _].
    pose proof (mag_pos my ey L). cbn [SFcompare val]. fold (mag my ey).
    f_equal. symmetry.
    destruct sy; unfold cond_Zopp;
      [apply Z.compare_gt_iff | apply Z.compare_lt_iff]; lia.
  - destruct (valid_finite_emin _ _ _ Vx) as [L _].
    pose proof (mag_pos mx ex L). cbn [SFcompare val]. fold (mag mx ex).
    f_equal. symmetry.
    destruct sx; unfold cond_Zopp;
      [apply Z.compare_lt_iff | apply Z.compare_gt_iff]; lia.
  - destruct (valid_finite_emin _ _ _ Vx) as [Lx _].
    destruct (valid_finite_emin _ _ _ Vy) as [Ly _].
    pose proof (mag_pos mx ex Lx). pose proof (mag_pos my ey Ly).
    pose proof (mag_compare sx sy mx my ex ey Vx Vy) as Hc.
    pose proof (mag_compare sy sx my mx ey ex Vy Vx) as Hc'.
    cbn [SFcompare val]. fold (mag mx ex) (mag my ey). f_equal.
    destruct sx, sy; unfold cond_Zopp.
    + rewrite Z.compare_opp.
      rewrite <- Hc'. rewrite (Z.compare_antisym ex ey).
      destruct (ex ?= ey); cbn [CompOpp]; try reflexivity.
      exact (Pos.compare_cont_antisym mx my Eq).
    + symmetry. apply Z.compare_lt_iff. lia.
    + symmetry. apply Z.compare_gt_iff. lia.
    + exact Hc.
Qed.

(** The powers of two of the normal range. *)
Lemma pow2_eq (p : Z) :
  -1022 <= p <= 1023 -> pow2 p = S754_finite false 4503599627370496 (p - 52).
Proof.
  intros Hp. unfold pow2.
  change (SFone prec emax) with (S754_finite false 4503599627370496 (-52)).
  unfold SFldexp, binary_round, shl_align.
  change (Zpos (digits2_pos 4503599627370496)) with 53.
  rewrite fexp_eq.
  replace (Z.max (53 + (-52 + p) - 53) (-1074) - (-52 + p)) with 0 by lia.
  rewrite binary_round_aux_id.
  - f_equal; lia.
  - change (Zpos (digits2_pos 4503599627370496)) with 53. rewrite fexp_eq. lia.
  - lia.
Qed.

Lemma div_eucl_mul (K D : Z) : D <> 0 -> Z.div_eucl (K * D) D = (K, 0).
Proof.
  intros HD. rewrite (surjective_pairing (Z.div_eucl (K * D) D)).
  change (fst (Z.div_eucl (K * D) D)) with (K * D / D).
  change (snd (Z.div_eucl (K * D) D)) with ((K * D) mod D).
  now rewrite Z.div_mul, Z.mod_mul.
Qed.

Lemma SFdiv_core_pow2 (mx : positive) (ex p : Z) :
  let d := Zpos (digits2_pos mx) in
  d <= 53 -> -1074 <= d + ex - p - 54 ->
  SFdiv_core_binary prec emax (Zpos mx) ex 4503599627370496 (p - 52)
  = (Zpos mx * 2 ^ (54 - d), d + ex - p - 54, loc_Exact).
Proof.
  intros d Hd Hlo. unfold SFdiv_core_binary. cbn [Zdigits2]. fold d.
  change (Zpos (digits2_pos 4503599627370496)) with 53.
  rewrite fexp_eq.
  replace (Z.min (Z.max (d + ex - (53 + (p - 52)) - 53) (-1074)) (ex - (p - 52)))
    with (d + ex - p - 54) by lia.
  replace (ex - (p - 52) - (d + ex - p - 54)) with (106 - d) by lia.
  destruct (106 - d) as [| s | s] eqn:Hs; try lia.
  rewrite Z.shiftl_mul_pow2 by lia. rewrite <- Hs.
  rewrite (pow2_split (106 - d) 52) by lia.
  replace (106 - d - 52) with (54 - d) by lia.
  change (2 ^ 52) with 4503599627370496.
  rewrite Z.mul_assoc, div_eucl_mul by lia.
  reflexivity.
Qed.

(** Division by a power of two is exact on a value large enough for the
    quotient to stay normal. *)
Lemma div_pow2_exact (x : float64) (a c p : Z) :
  represents x a -> 0 <= p <= 1023 -> a = c * 2 ^ p ->
  a = 0 \/ 2 ^ (p + 53) <= Z.abs a ->
  represents (div x (pow2 p)) c.
Proof.
  intros (Vx & Fx & Hx) Hp Hc Hbig.
  rewrite pow2_eq by lia.
  pose proof (pow2_pos p ltac:(lia)) as Pp.
  destruct x as [sx | sx | | sx mx ex]; try discriminate Fx.
  - simpl in Hx. assert (c = 0) by nia. subst c. destruct sx; repeat split.
  - destruct (valid_finite_emin _ _ _ Vx) as [Lx Ux].
    destruct (valid_finite_digits _ _ _ Vx) as [Dx _].
    pose proof (digits2_pos_bounds mx) as [Blo Bhi].
    pose proof (mag_pos mx ex Lx) as Hmag.
    assert (Ha : Z.abs a = mag mx ex).
    { rewrite <- Hx. unfold val. fold (mag mx ex). destruct sx; unfold cond_Zopp; lia. }
    destruct Hbig as [Hz | Hbig]; [lia |].
    set (d := Zpos (digits2_pos mx)) in *.
    unfold emin in *.
    assert (Hlo : -1074 <= d + ex - p - 54).
    { assert (2 ^ (p + 53) < 2 ^ (d + (ex - -1074))).
      { apply Z.le_lt_trans with (1 := Hbig). rewrite Ha. unfold mag, emin.
        rewrite Z.pow_add_r by lia.
        apply Z.mul_lt_mono_pos_r; [apply pow2_pos; lia | lia]. }
      apply pow2_lt_inv in H; lia. }
    unfold div, SFdiv. rewrite SFdiv_core_pow2 by (fold d; lia). fold d.
    rewrite xorb_false_r.
    pose proof (pow2_pos (53 - d) ltac:(lia)) as P53.
    set (k := Z.to_pos (Zpos mx * 2 ^ (53 - d))).
    assert (Hk : Zpos k = Zpos mx * 2 ^ (53 - d)) by (unfold k; rewrite Z2Pos.id; nia).
    assert (HQ : Zpos mx * 2 ^ (54 - d) = Zpos (xO k)).
    { change (Zpos (xO k)) with (2 * Zpos k). rewrite Hk.
      replace (54 - d) with (53 - d + 1) by lia. rewrite Z.pow_add_r by lia.
      change (2 ^ 1) with 2. lia. }
    rewrite HQ.
    assert (Hdk : Zpos (digits2_pos k) = 53).
    { replace 53 with (d + (53 - d)) by lia. apply digits_mul_pow2; [lia | exact Hk]. }
    rewrite (binary_round_aux_shr sx (xO k) k _ 1).
    + split; [| split; [reflexivity |]].
      * apply valid_finite_intro; [rewrite Hdk, fexp_eq | ]; lia.
      * assert (Hval : val (S754_finite sx k (d + ex - p - 54 + 1)) * 2 ^ p = a).
        { rewrite <- Hx. unfold val, emin.
          rewrite Hk.
          rewrite (pow2_split (ex - -1074) (d + ex - p - 54 + 1 - -1074)) by lia.
          replace (ex - -1074 - (d + ex - p - 54 + 1 - -1074)) with (p + (53 - d)) by lia.
          rewrite Z.pow_add_r by lia.
          destruct sx; unfold cond_Zopp; lia. }
        nia.
    + cbn [digits2_pos]. rewrite Pos2Z.inj_succ, Hdk, fexp_eq. lia.
    + change (2 ^ 1) with 2. lia.
    + lia.
Qed.

(** *** The shape of a rounded result *)

Lemma shr_1_m (r : shr_record) :
  0 <= shr_m r -> shr_m (shr_1 r) = shr_m r / 2.
Proof.
  destruct r as [m r s]. cbn [shr_m]. intros Hm.
  destruct m as [| [p | p |] | p]; cbn [shr_1 shr_m]; try lia;
    try reflexivity.
  - apply (Z.div_unique _ 2 _ 1); lia.
  - apply (Z.div_unique _ 2 _ 0); lia.
Qed.

Lemma shr_1_iter_m (n : nat) (r : shr_record) :
  0 <= shr_m r -> shr_m (Nat.iter n shr_1 r) = shr_m r / 2 ^ Z.of_nat n.
Proof.
  intros Hm. induction n as [| n IH].
  - simpl. now rewrite Z.div_1_r.
  - rewrite Nat.iter_succ, shr_1_m.
    + rewrite IH, Z.div_div, Nat2Z.inj_succ, Z.pow_succ_r by (try apply pow2_pos; lia).
      f_equal. lia.
    + rewrite IH. apply Z.div_pos; [lia | apply pow2_pos; lia].
Qed.

Lemma Zdigits2_le (x k : Z) : 0 <= k -> 0 <= x < 2 ^ k -> Zdigits2 x <= k.
Proof.
  intros Hk Hx. destruct x as [| p | p]; cbn [Zdigits2]; try lia.
  pose proof (digits2_pos_bounds p) as [Hlo _].
  assert (2 ^ (Zpos (digits2_pos p) - 1) < 2 ^ k) by lia.
  apply pow2_lt_inv in H; lia.
Qed.

Lemma shr_record_of_loc_m (m : Z) (l : location) :
  shr_m (shr_record_of_loc m l) = m.
Proof. destruct l as [| []]; reflexivity. Qed.

(** After [shr_fexp] a mantissa has at most 53 bits. *)
Lemma shr_fexp_digits (m e : Z) (l : location) :
  0 <= m ->
  0 <= shr_m (fst (shr_fexp prec emax m e l)) /\
  Zdigits2 (shr_m (fst (shr_fexp prec emax m e l))) <= 53.
Proof.
  intros Hm. unfold shr_fexp, shr. rewrite fexp_eq.
  assert (Hd : 0 <= Zdigits2 m) by (destruct m; cbn; lia).
  assert (Hb : m < 2 ^ Zdigits2 m).
  { destruct m as [| p | p]; cbn [Zdigits2]; try lia.
    apply digits2_pos_bounds. }
  destruct (Z.max (Zdigits2 m + e - 53) (-1074) - e) as [| n | n] eqn:Hn;
    cbn [fst]; rewrite ?shr_record_of_loc_m.
  - split; [exact Hm | lia].
  - rewrite iter_pos_nat, shr_1_iter_m, shr_record_of_loc_m, positive_nat_Z
      by (rewrite shr_record_of_loc_m; exact Hm).
    pose proof (pow2_pos (Zpos n) ltac:(lia)) as Pn.
    split; [apply Z.div_pos; lia |].
    destruct (Z_le_gt_dec (Zpos n) (Zdigits2 m)) as [Hle | Hgt].
    + apply Z.le_trans with (Zdigits2 m - Zpos n); [| lia].
      apply Zdigits2_le; [lia |].
      split; [apply Z.div_pos; lia |].
      apply Z.div_lt_upper_bound; [lia |].
      rewrite <- Z.pow_add_r by lia.
      replace (Zpos n + (Zdigits2 m - Zpos n)) with (Zdigits2 m) by lia. exact Hb.
    + rewrite Z.div_small; [cbn; lia |].
      split; [exact Hm |]. apply Z.lt_le_trans with (1 := Hb).
      apply Z.pow_le_mono_r; lia.
  - split; [exact Hm | lia].
Qed.

Lemma round_nearest_even_nonneg (m : Z) (l : location) :
  0 <= m -> 0 <= round_nearest_even m l.
Proof.
  intros Hm. destruct l as [| []]; cbn [round_nearest_even]; try lia.
  destruct (Z.even m); lia.
Qed.

(** The finite results of a rounding have at most 53 bits. *)
Lemma binary_round_aux_short (sx : bool) (mx ex : Z) (lx : location) :
  0 <= mx -> short_mantissa (binary_round_aux prec emax sx mx ex lx).
Proof.
  intros Hm. unfold binary_round_aux.
  pose proof (shr_fexp_digits mx ex lx Hm) as [H1 _].
  destruct (shr_fexp prec emax mx ex lx) as [mrs' e']. cbn [fst] in H1.
  pose proof (shr_fexp_digits (round_nearest_even (shr_m mrs') (loc_of_shr_record mrs'))
                e' loc_Exact (round_nearest_even_nonneg _ _ H1)) as [_ H2].
  destruct (shr_fexp prec emax _ e' loc_Exact) as [mrs'' e'']. cbn [fst] in H2.
  destruct (shr_m mrs'') as [| m | m]; cbn [short_mantissa]; try exact I.
  destruct (e'' <=? emax - prec); [exact H2 | exact I].
Qed.

Lemma div_short (x y : float64) : short_mantissa (div x y).
Proof.
  destruct x as [sx | sx | | sx mx ex], y as [sy | sy | | sy my ey];
    try exact I.
  unfold div, SFdiv, SFdiv_core_binary.
  set (m' := match _ with Zpos _ => _ | 0 => _ | Zneg _ => _ end).
  assert (Hm' : 0 <= m').
  { unfold m'. destruct (_ - _ - _) as [| s | s]; try lia.
    rewrite Z.shiftl_mul_pow2 by lia. pose proof (pow2_pos (Zpos s)); lia. }
  rewrite (surjective_pairing (Z.div_eucl m' (Zpos my))).
  change (fst (Z.div_eucl m' (Zpos my))) with (m' / Zpos my).
  apply binary_round_aux_short. apply Z.div_pos; lia.
Qed.

Lemma to_int_range (x : float64) : - 2 ^ 63 <= to_int x < 2 ^ 63.
Proof.
  unfold to_int. destruct (trunc_Z x) as [z |]; [| lia].
  destruct (Z.leb_spec (- 2 ^ 63) z), (Z.ltb_spec z (2 ^ 63)); cbn [andb]; lia.
Qed.

(** No float64 converts to the largest [int]. *)
Lemma to_int_not_max (x : float64) :
  short_mantissa x -> to_int x <> 2 ^ 63 - 1.
Proof.
  intros Hs. unfold to_int.
  destruct x as [s | s | | s m e]; cbn [trunc_Z]; try (cbn; lia).
  cbn [short_mantissa] in Hs.
  pose proof (digits2_pos_bounds m) as [_ Hhi].
  assert (Hm : Zpos m < 2 ^ 53).
  { apply Z.lt_le_trans with (1 := Hhi). apply Z.pow_le_mono_r; lia. }
  change (2 ^ 53) with 9007199254740992 in Hm.
  change (2 ^ 63) with 9223372036854775808.
  set (z := cond_Zopp s (Z.shiftl (Zpos m) e)).
  destruct (_ && _); [| lia].
  unfold z. destruct (Z_le_gt_dec 0 e) as [He | He].
  - rewrite Z.shiftl_mul_pow2 by lia.
    destruct (Z.eq_dec e 0) as [-> | Hne].
    + rewrite Z.pow_0_r. destruct s; unfold cond_Zopp; lia.
    + replace e with (e - 1 + 1) by lia. rewrite Z.pow_add_r by lia.
      change (2 ^ 1) with 2. pose proof (pow2_pos (e - 1) ltac:(lia)).
      destruct s; unfold cond_Zopp; lia.
  - rewrite Z.shiftl_div_pow2 by lia.
    pose proof (pow2_pos (- e) ltac:(lia)) as P.
    assert (0 <= Zpos m / 2 ^ (- e) <= Zpos m).
    { split; [apply Z.div_pos; lia |]. apply Z.div_le_upper_bound; [lia | nia]. }
    destruct s; unfold cond_Zopp; lia.
Qed.

(** * The scenarios of the package's tests

    The tests of the repository, run on the embedding. *)

Example TestEncodeIntBasic :
  EncodeInt (of_dec 378324 4) (of_dec 1125584 4) 52 = Ok 4064984913515641.
Proof. vm_compute. reflexivity. Qed.

Example TestDecodeIntBasic :
  match DecodeInt 4064984913515641 52 with
  | Ok p =>
      gtb (SFabs (sub (of_dec 378324 4) (lat p))) (of_dec 1 4) = false /\
      gtb (SFabs (sub (of_dec 1125584 4) (lng p))) (of_dec 1 4) = false
  | _ => False
  end.
Proof. vm_compute. split; reflexivity. Qed.

Example TestNeighborInt :
  NeighborInt 1702789509 North 32 = Ok 1702789520 /\
  NeighborInt 27898503327470 SouthWest 46 = Ok 27898503327465.
Proof. split; vm_compute; reflexivity. Qed.

Example TestNeighborsInt :
  NeighborsInt 1702789509 32
  = Ok [1702789520; 1702789522; 1702789511; 1702789510; 1702789508;
        1702789422; 1702789423; 1702789434; 1702789509].
Proof. vm_compute. reflexivity. Qed.

Example TestBBoxesInt :
  match BboxesInt (of_int 30) (of_int 120) (of_dec 300001 4) (of_dec 1200001 4) 50,
        EncodeInt (of_dec 300001 4) (of_dec 1200001 4) 50 with
  | Ok results, Ok expected => existsb (Z.eqb expected) results = true
  | _, _ => False
  end.
Proof. vm_compute. reflexivity. Qed.

Example validator_messages :
  validateBitDepth (-1)
  = Panic "bitDepth must be greater than 0 and less than or equal to 52, was -1" /\
  validateBitDepth 0
  = Panic "bitDepth must be greater than 0 and less than or equal to 52, was 0" /\
  validateBitDepth 53
  = Panic "bitDepth must be greater than 0 and less than or equal to 52, was 53" /\
  validateBitDepth 51 = Panic "bitDepth must be even, was 51".
Proof. repeat split; vm_compute; reflexivity. Qed.

(** * Facts about the package *)

(** Bounds against the range of [int64]. *)
Ltac int64_lia := change (2 ^ 63) with 9223372036854775808 in *; lia.

Lemma trunc_Z_val (x : float64) :
  valid x = true -> is_finite x = true ->
  trunc_Z x = Some (Z.quot (val x) (2 ^ 1074)).
Proof.
  intros Vx Fx. destruct x as [s | s | | s m e]; try discriminate Fx.
  - reflexivity.
  - destruct (valid_finite_emin _ _ _ Vx) as [L _]. unfold emin in L.
    unfold trunc_Z, val, emin. f_equal.
    assert (Hq : Z.shiftl (Zpos m) e = Zpos m * 2 ^ (e - -1074) / 2 ^ 1074).
    { destruct (Z_le_gt_dec 0 e) as [He | He].
      - rewrite Z.shiftl_mul_pow2 by lia.
        replace (e - -1074) with (e + 1074) by lia.
        rewrite Z.pow_add_r, Z.mul_assoc, Z.div_mul by lia. reflexivity.
      - rewrite Z.shiftl_div_pow2 by lia.
        rewrite (pow2_split 1074 (e - -1074)) by lia.
        replace (1074 - (e - -1074)) with (- e) by lia.
        rewrite Z.div_mul_cancel_r; [reflexivity | |];
          apply Z.neq_sym, Z.lt_neq, pow2_pos; lia. }
    pose proof (pow2_pos (e - -1074) ltac:(lia)).
    destruct s; unfold cond_Zopp.
    + rewrite Z.quot_opp_l by lia. rewrite Z.quot_div_nonneg by lia. now f_equal.
    + rewrite Z.quot_div_nonneg by lia. exact Hq.
Qed.

Lemma of_int_2 : of_int 2 = pow2 1.
Proof. reflexivity. Qed.

(** The float that [getBit] truncates: [geohash / 2^position], exactly. *)
Lemma getBit_quotient (geohash position : Z) :
  0 <= geohash < 2 ^ 53 -> 0 <= position <= 52 ->
  represents (div (of_int geohash) (pow2 position))
    (geohash * 2 ^ (1074 - position)).
Proof.
  intros Hh Hp.
  apply (div_pow2_exact _ (geohash * 2 ^ 1074)).
  - apply of_int_exact. lia.
  - lia.
  - rewrite (pow2_split 1074 position) by lia. lia.
  - destruct (Z.eq_dec geohash 0) as [-> | Hnz]; [left; reflexivity | right].
    rewrite Z.abs_eq by (pose proof (pow2_pos 1074); lia).
    apply Z.le_trans with (1 * 2 ^ 1074).
    + rewrite Z.mul_1_l. apply Z.pow_le_mono_r; lia.
    + apply Z.mul_le_mono_nonneg_r; [pose proof (pow2_pos 1074) |]; lia.
Qed.

Lemma getBit_testbit (geohash position : Z) :
  0 <= geohash < 2 ^ 53 -> 0 <= position <= 52 ->
  getBit geohash position = bitOf geohash position.
Proof.
  intros Hh Hp. unfold getBit, to_int.
  destruct (getBit_quotient geohash position Hh Hp) as (V & F & Hv).
  rewrite (trunc_Z_val _ V F), Hv.
  pose proof (pow2_pos position ltac:(lia)) as Pp.
  pose proof (pow2_pos (1074 - position) ltac:(lia)) as Pq.
  assert (Hq : Z.quot (geohash * 2 ^ (1074 - position)) (2 ^ 1074)
               = geohash / 2 ^ position).
  { rewrite Z.quot_div_nonneg by nia.
    rewrite (pow2_split 1074 (1074 - position)) by lia.
    replace (1074 - (1074 - position)) with position by lia.
    rewrite Z.div_mul_cancel_r by lia. reflexivity. }
  rewrite Hq.
  assert (Hr : 0 <= geohash / 2 ^ position < 2 ^ 63).
  { split; [apply Z.div_pos; lia |].
    apply Z.le_lt_trans with geohash; [apply Z.div_le_upper_bound; nia | lia]. }
  replace ((- 2 ^ 63 <=? geohash / 2 ^ position) && (geohash / 2 ^ position <? 2 ^ 63))
    with true by (symmetry; apply andb_true_intro; split; [apply Z.leb_le | apply Z.ltb_lt]; lia).
  unfold bitOf. rewrite Z.testbit_spec' by lia.
  change 1 with (Z.ones 1) at 1. rewrite Z.land_ones by lia. reflexivity.
Qed.

(** *** The grid of cell boundaries *)

Lemma grid_refine (H s j : Z) :
  0 <= s <= 1073 -> grid H s j = grid H (s + 1) (2 * j).
Proof.
  intros Hs. unfold grid.
  rewrite (Z.pow_add_r 2 s 1) by lia. change (2 ^ 1) with 2.
  replace (1074 - s) with (1074 - (s + 1) + 1) by lia.
  rewrite (Z.pow_add_r 2 (1074 - (s + 1)) 1) by lia. change (2 ^ 1) with 2.
  ring.
Qed.

Lemma grid_mid_sum (H s a : Z) :
  0 <= s <= 1073 ->
  grid H s (a + 1) + grid H s a = grid H (s + 1) (2 * a + 1) * 2 ^ 1.
Proof.
  intros Hs. unfold grid.
  rewrite (Z.pow_add_r 2 s 1) by lia. change (2 ^ 1) with 2.
  replace (1074 - s) with (1074 - (s + 1) + 1) by lia.
  rewrite (Z.pow_add_r 2 (1074 - (s + 1)) 1) by lia. change (2 ^ 1) with 2.
  ring.
Qed.

Lemma grid_step (H s j : Z) :
  grid H s (j + 1) - grid H s j = H * 2 ^ (1074 - s) * 2.
Proof. unfold grid. ring. Qed.

Lemma grid_diff (H s j j' : Z) :
  grid H s j' - grid H s j = H * 2 ^ (1074 - s) * 2 * (j' - j).
Proof. unfold grid. ring. Qed.

Lemma grid_scale_pos (H s : Z) :
  0 < H -> 0 <= s <= 1074 -> 0 < H * 2 ^ (1074 - s) * 2.
Proof.
  intros HH Hs. pose proof (pow2_pos (1074 - s) ltac:(lia)).
  apply Z.mul_pos_pos; [apply Z.mul_pos_pos |]; lia.
Qed.

Lemma grid_lt (H s j j' : Z) :
  0 < H -> 0 <= s <= 1074 -> (grid H s j < grid H s j' <-> j < j').
Proof.
  intros HH Hs. pose proof (grid_diff H s j j') as E.
  pose proof (grid_scale_pos H s HH Hs) as K.
  set (k := H * 2 ^ (1074 - s) * 2) in *.
  split; intros Hlt; nia.
Qed.

Lemma grid_le (H s j j' : Z) :
  0 < H -> 0 <= s <= 1074 -> (grid H s j <= grid H s j' <-> j <= j').
Proof.
  intros HH Hs. pose proof (grid_diff H s j j') as E.
  pose proof (grid_scale_pos H s HH Hs) as K.
  set (k := H * 2 ^ (1074 - s) * 2) in *.
  split; intros Hlt; nia.
Qed.

Lemma exact_scaled (N s : Z) :
  Z.abs N < 2 ^ 53 -> 0 <= s <= 1074 -> exact (N * 2 ^ (1074 - s)).
Proof. intros HN Hs. exists N, (1074 - s). repeat split; lia. Qed.

Lemma grid_bound (H s j : Z) :
  0 < H <= 180 -> 0 <= s <= 28 -> 0 <= j <= 2 ^ s ->
  Z.abs (H * (2 * j - 2 ^ s)) <= 180 * 2 ^ 28.
Proof.
  intros HH Hs Hj.
  assert (2 ^ s <= 2 ^ 28) by (apply Z.pow_le_mono_r; lia).
  pose proof (pow2_pos s ltac:(lia)).
  apply Z.abs_le. split; nia.
Qed.

Lemma exact_grid (H s j : Z) :
  0 < H <= 180 -> 0 <= s <= 28 -> 0 <= j <= 2 ^ s -> exact (grid H s j).
Proof.
  intros HH Hs Hj. unfold grid. apply exact_scaled; [| lia].
  pose proof (grid_bound H s j HH Hs Hj). 
  change (2 ^ 28) with 268435456 in *. change (2 ^ 53) with 9007199254740992. lia.
Qed.

Lemma cell_sum_exact (H s a : Z) :
  0 < H <= 180 -> 0 <= s <= 26 -> 0 <= a < 2 ^ s ->
  exact (grid H s (a + 1) + grid H s a).
Proof.
  intros HH Hs Ha.
  pose proof (pow2_pos s ltac:(lia)) as Ps.
  assert (P1 : 2 ^ (s + 1) = 2 * 2 ^ s)
    by (rewrite Z.pow_add_r by lia; change (2 ^ 1) with 2; lia).
  replace (grid H s (a + 1) + grid H s a)
    with (H * (2 * (2 * a + 1) - 2 ^ (s + 1)) * 2 ^ (1074 - s))
    by (unfold grid; rewrite P1; ring).
  apply exact_scaled; [| lia].
  pose proof (grid_bound H (s + 1) (2 * a + 1) HH ltac:(lia) ltac:(lia)) as Hb.
  change (2 ^ 28) with 268435456 in Hb.
  change (2 ^ 53) with 9007199254740992. lia.
Qed.

(** Halving the sum of the two boundaries of a cell is exact. *)
Lemma half_of_sum (H s a : Z) (sum : float64) :
  represents sum (grid H s (a + 1) + grid H s a) ->
  0 < H <= 180 -> 0 <= s <= 26 -> 0 <= a < 2 ^ s ->
  represents (div sum (of_int 2)) (grid H (s + 1) (2 * a + 1)).
Proof.
  intros Hsum HH Hs Ha. rewrite of_int_2.
  apply (div_pow2_exact _ (grid H s (a + 1) + grid H s a));
    [exact Hsum | lia | apply grid_mid_sum; lia |].
  rewrite grid_mid_sum by lia. unfold grid.
  pose proof (pow2_pos (1074 - (s + 1)) ltac:(lia)) as Pq.
  destruct (Z.eq_dec (H * (2 * (2 * a + 1) - 2 ^ (s + 1))) 0) as [Hz | Hnz0];
    [left; rewrite Hz; reflexivity | right].
  assert (Hnz : 1 <= Z.abs (H * (2 * (2 * a + 1) - 2 ^ (s + 1)))) by lia.
  change (2 ^ 1) with 2.
  rewrite (Z.abs_mul _ 2), (Z.abs_mul _ (2 ^ (1074 - (s + 1)))).
  rewrite (Z.abs_eq 2), (Z.abs_eq (2 ^ (1074 - (s + 1)))) by lia.
  assert (2 ^ (1 + 53) <= 2 ^ (1074 - (s + 1))) by (apply Z.pow_le_mono_r; lia).
  change (2 ^ (1 + 53)) with 18014398509481984 in *.
  set (P := 2 ^ (1074 - (s + 1))) in *.
  set (A := Z.abs (H * (2 * (2 * a + 1) - 2 ^ (s + 1)))) in *.
  assert (1 * P <= A * P) by (apply Z.mul_le_mono_nonneg_r; lia).
  lia.
Qed.

(** The midpoint of a cell, as the encoder and [DecodeBboxInt] compute it,
    is the boundary between its two halves. *)
Lemma cell_mid (H s a : Z) (lo hi : float64) :
  cell H s a lo hi -> 0 < H <= 180 -> 0 <= s <= 26 -> 0 <= a < 2 ^ s ->
  represents (div (add hi lo) (of_int 2)) (grid H (s + 1) (2 * a + 1)).
Proof.
  intros [Hlo Hhi] HH Hs Ha. apply half_of_sum; try assumption.
  apply add_exact; try assumption. now apply cell_sum_exact.
Qed.

(** [DecodeInt] adds the boundaries in the other order. *)
Lemma cell_mid_comm (H s a : Z) (lo hi : float64) :
  cell H s a lo hi -> 0 < H <= 180 -> 0 <= s <= 26 -> 0 <= a < 2 ^ s ->
  represents (div (add lo hi) (of_int 2)) (grid H (s + 1) (2 * a + 1)).
Proof.
  intros [Hlo Hhi] HH Hs Ha. apply half_of_sum; try assumption.
  rewrite Z.add_comm. apply add_exact; try assumption.
  rewrite Z.add_comm. now apply cell_sum_exact.
Qed.

(** The two halves of a cell are cells of the next level. *)
Lemma cell_lower (H s a : Z) (lo hi mid : float64) :
  cell H s a lo hi -> 0 <= s <= 1073 ->
  represents mid (grid H (s + 1) (2 * a + 1)) ->
  cell H (s + 1) (2 * a) lo mid.
Proof.
  intros [Hlo Hhi] Hs Hm. split; [| exact Hm].
  now rewrite <- grid_refine.
Qed.

Lemma cell_upper (H s a : Z) (lo hi mid : float64) :
  cell H s a lo hi -> 0 <= s <= 1073 ->
  represents mid (grid H (s + 1) (2 * a + 1)) ->
  cell H (s + 1) (2 * a + 1) mid hi.
Proof.
  intros [Hlo Hhi] Hs Hm. split; [exact Hm |].
  replace (2 * a + 1 + 1) with (2 * (a + 1)) by lia.
  now rewrite <- grid_refine.
Qed.

(** The outcome of a comparison of the source, on exact values. *)
Lemma gtb_val (x y : float64) (a b : Z) :
  represents x a -> represents y b -> gtb x y = (b <? a).
Proof.
  intros (Vx & Fx & Hx) (Vy & Fy & Hy).
  unfold gtb, ltb, SFltb. rewrite (compare_val y x) by assumption.
  rewrite Hx, Hy. unfold Z.ltb. reflexivity.
Qed.

Lemma leb_val (x y : float64) (a b : Z) :
  represents x a -> represents y b -> leb x y = (a <=? b).
Proof.
  intros (Vx & Fx & Hx) (Vy & Fy & Hy).
  unfold leb, SFleb. rewrite (compare_val x y) by assumption.
  rewrite Hx, Hy. unfold Z.leb. destruct (a ?= b); reflexivity.
Qed.

Lemma ltb_val (x y : float64) (a b : Z) :
  represents x a -> represents y b -> ltb x y = (a <? b).
Proof.
  intros (Vx & Fx & Hx) (Vy & Fy & Hy).
  unfold ltb, SFltb. rewrite (compare_val x y) by assumption.
  rewrite Hx, Hy. unfold Z.ltb. reflexivity.
Qed.

Lemma represents_self (x : float64) :
  valid x = true -> is_finite x = true -> represents x (val x).
Proof. intros; repeat split; assumption. Qed.

(** *** The validator *)

Lemma validate_agrees_upto :
  forallb validate_agrees (map Z.of_nat (seq 1 52)) = true.
Proof. vm_compute. reflexivity. Qed.

Lemma validate_in_range (d : Z) :
  0 < d <= 52 -> validate_agrees d = true.
Proof.
  intros Hd. pose proof validate_agrees_upto as Hall.
  rewrite forallb_forall in Hall. apply Hall.
  apply in_map_iff. exists (Z.to_nat d). split; [lia |].
  apply in_seq. lia.
Qed.

Lemma validateBitDepth_ok (d : Z) :
  valid_depth d -> validateBitDepth d = Ok tt.
Proof.
  intros [Hr He]. pose proof (validate_in_range d Hr) as H.
  unfold validate_agrees in H.
  destruct (validateBitDepth d) as [[] | msg |]; try reflexivity; try discriminate.
  rewrite <- Z.negb_even, He in H. discriminate.
Qed.

Lemma validateBitDepth_panic (d : Z) :
  ~ valid_depth d -> exists msg, validateBitDepth d = Panic msg.
Proof.
  intros Hn. destruct (Z_lt_le_dec 52 d) as [Hhi | Hhi].
  - unfold validateBitDepth. replace (d >? MaxBitDepth) with true; [eexists; reflexivity |].
    symmetry. apply Z.gtb_lt. unfold MaxBitDepth. lia.
  - destruct (Z_lt_le_dec 0 d) as [Hlo | Hlo].
    + pose proof (validate_in_range d ltac:(lia)) as H.
      unfold validate_agrees in H.
      destruct (validateBitDepth d) as [[] | msg |]; try discriminate.
      * exfalso. apply Hn. split; [lia | exact H].
      * eexists; reflexivity.
    + unfold validateBitDepth. replace (d <=? 0) with true; [rewrite orb_true_r; eexists; reflexivity |].
      symmetry. apply Z.leb_le. lia.
Qed.

Lemma valid_depth_dec (d : Z) : {valid_depth d} + {~ valid_depth d}.
Proof.
  unfold valid_depth.
  destruct (Z_lt_dec 0 d); [| right; lia].
  destruct (Z_le_dec d 52); [| right; lia].
  destruct (Z.even d); [left | right]; intuition (try lia; try discriminate).
Qed.

Lemma valid_depth_steps (d : Z) :
  valid_depth d -> 0 < Z.quot d 2 <= 26 /\ d = 2 * Z.quot d 2.
Proof.
  intros [Hr He]. rewrite Z.quot_div_nonneg by lia.
  apply Z.even_spec in He as [k Hk]. subst d.
  rewrite Z.mul_comm, Z.div_mul by lia. lia.
Qed.

(** *** Machine integers *)

Lemma wrap64_small (z : Z) : - 2 ^ 63 <= z < 2 ^ 63 -> wrap64 z = z.
Proof.
  intros Hz. unfold wrap64. rewrite Z.mod_small; lia.
Qed.

(** *** The decoder *)

Lemma index_step_range (a b t : Z) :
  0 <= t -> 0 <= a < 2 ^ t -> 0 <= b <= 1 -> 0 <= 2 * a + b < 2 ^ (t + 1).
Proof.
  intros Ht Ha Hb. rewrite Z.pow_add_r by lia. change (2 ^ 1) with 2. lia.
Qed.

Lemma latIndex_range (bit : Z -> Z) (steps : Z) (t : nat) :
  0 <= latIndex bit steps t < 2 ^ Z.of_nat t.
Proof.
  induction t as [| t IH]; [simpl; lia |].
  rewrite Nat2Z.inj_succ, <- Z.add_1_r. cbn [latIndex].
  apply index_step_range; [lia | exact IH |].
  destruct (_ =? 0); lia.
Qed.

Lemma lngIndex_range (bit : Z -> Z) (steps : Z) (t : nat) :
  0 <= lngIndex bit steps t < 2 ^ Z.of_nat t.
Proof.
  induction t as [| t IH]; [simpl; lia |].
  rewrite Nat2Z.inj_succ, <- Z.add_1_r. cbn [lngIndex].
  apply index_step_range; [lia | exact IH |].
  destruct (_ =? 0); lia.
Qed.

(** One bisection of the decoder: a zero bit keeps the lower half. *)
Lemma cell_bisect (H s a bit : Z) (lo hi : float64) :
  cell H s a lo hi -> 0 < H <= 180 -> 0 <= s <= 26 -> 0 <= a < 2 ^ s ->
  let mid := div (add hi lo) (of_int 2) in
  cell H (s + 1) (2 * a + (if bit =? 0 then 0 else 1))
    (if bit =? 0 then lo else mid) (if bit =? 0 then mid else hi).
Proof.
  intros Hc HH Hs Ha mid.
  pose proof (cell_mid H s a lo hi Hc HH Hs Ha) as Hm. fold mid in Hm.
  destruct (bit =? 0).
  - rewrite Z.add_0_r. eapply cell_lower; [exact Hc | lia | exact Hm].
  - eapply cell_upper; [exact Hc | lia | exact Hm].
Qed.

Lemma DecodeBboxInt_body_spec (h steps t alat alng : Z) (b : Bbox) :
  0 <= t < steps -> steps <= 26 ->
  cell 90 t alat (bMinLat b) (bMaxLat b) ->
  cell 180 t alng (bMinLng b) (bMaxLng b) ->
  0 <= alat < 2 ^ t -> 0 <= alng < 2 ^ t ->
  let b' := DecodeBboxInt_body h steps t b in
  cell 90 (t + 1)
    (2 * alat + (if getBit h (2 * (steps - t) - 2) =? 0 then 0 else 1))
    (bMinLat b') (bMaxLat b') /\
  cell 180 (t + 1)
    (2 * alng + (if getBit h (2 * (steps - t) - 1) =? 0 then 0 else 1))
    (bMinLng b') (bMaxLng b').
Proof.
  intros Ht Hs Clat Clng Halat Halng. unfold DecodeBboxInt_body.
  change (2 ^ 63) with 9223372036854775808.
  rewrite (wrap64_small (steps - t)) by int64_lia.
  rewrite (wrap64_small ((steps - t) * 2)) by int64_lia.
  rewrite !wrap64_small by int64_lia.
  replace ((steps - t) * 2 - 1) with (2 * (steps - t) - 1) by lia.
  replace ((steps - t) * 2 - 2) with (2 * (steps - t) - 2) by lia.
  pose proof (cell_bisect 90 t alat (getBit h (2 * (steps - t) - 2)) _ _ Clat
                ltac:(lia) ltac:(lia) Halat) as Blat.
  pose proof (cell_bisect 180 t alng (getBit h (2 * (steps - t) - 1)) _ _ Clng
                ltac:(lia) ltac:(lia) Halng) as Blng.
  cbv zeta in Blat, Blng.
  destruct (getBit h (2 * (steps - t) - 2) =? 0);
    destruct (getBit h (2 * (steps - t) - 1) =? 0); cbn; split; assumption.
Qed.

Lemma DecodeBboxInt_loop_spec (h steps : Z) :
  0 <= steps <= 26 ->
  forall (fuel : nat) (t : Z) (b : Bbox),
    0 <= t <= steps -> fuel = Z.to_nat (steps - t) ->
    cell 90 t (latIndex (getBit h) steps (Z.to_nat t)) (bMinLat b) (bMaxLat b) ->
    cell 180 t (lngIndex (getBit h) steps (Z.to_nat t)) (bMinLng b) (bMaxLng b) ->
    exists b',
      DecodeBboxInt_loop fuel h steps t b = Ok b' /\
      cell 90 steps (latIndex (getBit h) steps (Z.to_nat steps))
        (bMinLat b') (bMaxLat b') /\
      cell 180 steps (lngIndex (getBit h) steps (Z.to_nat steps))
        (bMinLng b') (bMaxLng b').
Proof.
  intros Hs. induction fuel as [| fuel IH]; intros t b Ht Hf Clat Clng.
  - assert (t = steps) by lia. subst t.
    exists b. cbn [DecodeBboxInt_loop]. rewrite Z.ltb_irrefl. auto.
  - assert (Hlt : t < steps) by lia.
    cbn [DecodeBboxInt_loop].
    replace (t <? steps) with true by (symmetry; apply Z.ltb_lt; lia).
    rewrite wrap64_small by int64_lia.
    pose proof (latIndex_range (getBit h) steps (Z.to_nat t)) as Rlat.
    pose proof (lngIndex_range (getBit h) steps (Z.to_nat t)) as Rlng.
    rewrite Z2Nat.id in Rlat, Rlng by lia.
    destruct (DecodeBboxInt_body_spec h steps t _ _ b ltac:(lia) ltac:(lia)
                Clat Clng Rlat Rlng) as [Clat' Clng'].
    apply IH; [lia | lia | |];
      replace (Z.to_nat (t + 1)) with (S (Z.to_nat t)) by lia;
      cbn [latIndex lngIndex]; rewrite Z2Nat.id by lia; assumption.
Qed.

Lemma cell_init_lat : cell 90 0 0 (of_int (-90)) (of_int 90).
Proof.
  split; [change (grid 90 0 0) with (-90 * 2 ^ 1074)
         | change (grid 90 0 (0 + 1)) with (90 * 2 ^ 1074)];
    apply of_int_exact; vm_compute; reflexivity.
Qed.

Lemma cell_init_lng : cell 180 0 0 (of_int (-180)) (of_int 180).
Proof.
  split; [change (grid 180 0 0) with (-180 * 2 ^ 1074)
         | change (grid 180 0 (0 + 1)) with (180 * 2 ^ 1074)];
    apply of_int_exact; vm_compute; reflexivity.
Qed.

(** What [DecodeBboxInt] returns, for every hash. *)
Lemma DecodeBboxInt_spec (h d : Z) :
  valid_depth d ->
  exists b,
    DecodeBboxInt h d = Ok b /\
    cell 90 (Z.quot d 2)
      (latIndex (getBit h) (Z.quot d 2) (Z.to_nat (Z.quot d 2)))
      (bMinLat b) (bMaxLat b) /\
    cell 180 (Z.quot d 2)
      (lngIndex (getBit h) (Z.quot d 2) (Z.to_nat (Z.quot d 2)))
      (bMinLng b) (bMaxLng b).
Proof.
  intros Hd. destruct (valid_depth_steps d Hd) as [Hs _].
  unfold DecodeBboxInt. rewrite (validateBitDepth_ok d Hd). cbn [bind].
  apply DecodeBboxInt_loop_spec; try lia.
  - exact cell_init_lat.
  - exact cell_init_lng.
Qed.

(** The centre of a cell and its half-width. *)
Lemma cell_centre (H s a : Z) (lo hi : float64) :
  cell H s a lo hi -> 0 < H <= 180 -> 0 <= s <= 26 -> 0 <= a < 2 ^ s ->
  let c := div (add lo hi) (of_int 2) in
  represents c (grid H (s + 1) (2 * a + 1)) /\
  represents (sub hi c) (H * 2 ^ (1074 - s)).
Proof.
  intros Hc HH Hs Ha c.
  pose proof (cell_mid_comm H s a lo hi Hc HH Hs Ha) as Hm. fold c in Hm.
  split; [exact Hm |].
  destruct Hc as [Hlo Hhi].
  replace (H * 2 ^ (1074 - s)) with (grid H s (a + 1) - grid H (s + 1) (2 * a + 1)).
  - apply sub_exact; try assumption.
    replace (grid H s (a + 1) - grid H (s + 1) (2 * a + 1)) with (H * 2 ^ (1074 - s)).
    + apply exact_scaled; [| lia].
      rewrite Z.abs_eq by lia. change (2 ^ 53) with 9007199254740992. lia.
    + rewrite (grid_refine H s (a + 1)) by lia.
      replace (2 * (a + 1)) with (2 * a + 1 + 1) by lia.
      rewrite grid_step.
      replace (1074 - s) with (1074 - (s + 1) + 1) by lia.
      rewrite Z.pow_add_r by lia. change (2 ^ 1) with 2. ring.
  - rewrite (grid_refine H s (a + 1)) by lia.
    replace (2 * (a + 1)) with (2 * a + 1 + 1) by lia.
    rewrite grid_step.
    replace (1074 - s) with (1074 - (s + 1) + 1) by lia.
    rewrite Z.pow_add_r by lia. change (2 ^ 1) with 2. ring.
Qed.

(** What [DecodeInt] returns, for every hash. *)
Lemma DecodeInt_spec (h d : Z) :
  valid_depth d ->
  let s := Z.quot d 2 in
  exists b p,
    DecodeBboxInt h d = Ok b /\ DecodeInt h d = Ok p /\
    cell 90 s (latIndex (getBit h) s (Z.to_nat s)) (bMinLat b) (bMaxLat b) /\
    cell 180 s (lngIndex (getBit h) s (Z.to_nat s)) (bMinLng b) (bMaxLng b) /\
    represents (lat p) (grid 90 (s + 1) (2 * latIndex (getBit h) s (Z.to_nat s) + 1)) /\
    represents (lng p) (grid 180 (s + 1) (2 * lngIndex (getBit h) s (Z.to_nat s) + 1)) /\
    represents (latErr p) (90 * 2 ^ (1074 - s)) /\
    represents (lngErr p) (180 * 2 ^ (1074 - s)).
Proof.
  intros Hd s. destruct (valid_depth_steps d Hd) as [Hs _]. fold s in Hs.
  destruct (DecodeBboxInt_spec h d Hd) as (b & Hb & Clat & Clng). fold s in Clat, Clng.
  pose proof (latIndex_range (getBit h) s (Z.to_nat s)) as Rlat.
  pose proof (lngIndex_range (getBit h) s (Z.to_nat s)) as Rlng.
  rewrite Z2Nat.id in Rlat, Rlng by lia.
  destruct (cell_centre 90 s _ _ _ Clat ltac:(lia) ltac:(lia) Rlat) as [C1 E1].
  destruct (cell_centre 180 s _ _ _ Clng ltac:(lia) ltac:(lia) Rlng) as [C2 E2].
  exists b. eexists. split; [exact Hb |].
  split.
  - unfold DecodeInt. rewrite (validateBitDepth_ok d Hd), Hb. cbn [bind]. reflexivity.
  - cbn [lat lng latErr lngErr]. auto 10.
Qed.

(** *** The encoder *)

Section EncoderPasses.

Variables latitude longitude : float64.

Lemma EncodeInt_body_bitsTotal (v : EncodeVars) :
  - 2 ^ 63 <= bitsTotal v + 1 < 2 ^ 63 ->
  bitsTotal (EncodeInt_body latitude longitude v) = bitsTotal v + 1.
Proof.
  intros Hr. unfold EncodeInt_body.
  destruct (Z.rem (bitsTotal v) 2 =? 0); destruct (gtb _ _); cbn [bitsTotal];
    now apply wrap64_small.
Qed.

(** Each pass appends one bit to the hash. *)
Lemma EncodeInt_body_geohash (v : EncodeVars) :
  0 <= geohash v < 2 ^ 62 ->
  exists b, 0 <= b <= 1 /\
    geohash (EncodeInt_body latitude longitude v) = 2 * geohash v + b.
Proof.
  intros Hg. change (2 ^ 62) with 4611686018427387904 in Hg.
  assert (W : wrap64 (geohash v * 2) = 2 * geohash v)
    by (rewrite wrap64_small; int64_lia).
  assert (W1 : wrap64 (2 * geohash v + 1) = 2 * geohash v + 1)
    by (rewrite wrap64_small; int64_lia).
  unfold EncodeInt_body. rewrite W.
  destruct (Z.rem (bitsTotal v) 2 =? 0); destruct (gtb _ _); cbn [geohash];
    rewrite ?W1; [exists 1 | exists 0 | exists 1 | exists 0]; lia.
Qed.

(** A pass with an even count bisects the longitude interval. *)
Lemma EncodeInt_body_lng (ln s a : Z) (v : EncodeVars) :
  Z.rem (bitsTotal v) 2 = 0 ->
  represents longitude ln ->
  cell 180 s a (minLng v) (maxLng v) -> 0 <= s <= 26 -> 0 <= a < 2 ^ s ->
  0 <= geohash v < 2 ^ 62 ->
  let v' := EncodeInt_body latitude longitude v in
  let b := if grid 180 (s + 1) (2 * a + 1) <? ln then 1 else 0 in
  cell 180 (s + 1) (2 * a + b) (minLng v') (maxLng v') /\
  minLat v' = minLat v /\ maxLat v' = maxLat v /\
  geohash v' = 2 * geohash v + b.
Proof.
  intros Hpar Hln Hc Hs Ha Hg v' b.
  pose proof (cell_mid 180 s a _ _ Hc ltac:(lia) Hs Ha) as Hm.
  pose proof (gtb_val _ _ _ _ Hln Hm) as Hcmp.
  change (2 ^ 62) with 4611686018427387904 in Hg.
  assert (W : wrap64 (geohash v * 2) = 2 * geohash v)
    by (rewrite wrap64_small; int64_lia).
  assert (W1 : wrap64 (2 * geohash v + 1) = 2 * geohash v + 1)
    by (rewrite wrap64_small; int64_lia).
  subst v' b. unfold EncodeInt_body. rewrite Hpar, W. cbn [Z.eqb].
  rewrite Hcmp.
  destruct (grid 180 (s + 1) (2 * a + 1) <? ln); cbn [minLng maxLng minLat maxLat geohash].
  - rewrite W1. split; [| repeat split; reflexivity].
    eapply cell_upper; [exact Hc | lia | exact Hm].
  - rewrite !Z.add_0_r. split; [| repeat split; reflexivity].
    eapply cell_lower; [exact Hc | lia | exact Hm].
Qed.

(** A pass with an odd count bisects the latitude interval. *)
Lemma EncodeInt_body_lat (la s a : Z) (v : EncodeVars) :
  Z.rem (bitsTotal v) 2 <> 0 ->
  represents latitude la ->
  cell 90 s a (minLat v) (maxLat v) -> 0 <= s <= 26 -> 0 <= a < 2 ^ s ->
  0 <= geohash v < 2 ^ 62 ->
  let v' := EncodeInt_body latitude longitude v in
  let b := if grid 90 (s + 1) (2 * a + 1) <? la then 1 else 0 in
  cell 90 (s + 1) (2 * a + b) (minLat v') (maxLat v') /\
  minLng v' = minLng v /\ maxLng v' = maxLng v /\
  geohash v' = 2 * geohash v + b.
Proof.
  intros Hpar Hla Hc Hs Ha Hg v' b.
  pose proof (cell_mid 90 s a _ _ Hc ltac:(lia) Hs Ha) as Hm.
  pose proof (gtb_val _ _ _ _ Hla Hm) as Hcmp.
  change (2 ^ 62) with 4611686018427387904 in Hg.
  assert (W : wrap64 (geohash v * 2) = 2 * geohash v)
    by (rewrite wrap64_small; int64_lia).
  assert (W1 : wrap64 (2 * geohash v + 1) = 2 * geohash v + 1)
    by (rewrite wrap64_small; int64_lia).
  subst v' b. unfold EncodeInt_body.
  replace (Z.rem (bitsTotal v) 2 =? 0) with false by (symmetry; apply Z.eqb_neq; exact Hpar).
  rewrite W, Hcmp.
  destruct (grid 90 (s + 1) (2 * a + 1) <? la); cbn [minLng maxLng minLat maxLat geohash].
  - rewrite W1. split; [| repeat split; reflexivity].
    eapply cell_upper; [exact Hc | lia | exact Hm].
  - rewrite !Z.add_0_r. split; [| repeat split; reflexivity].
    eapply cell_lower; [exact Hc | lia | exact Hm].
Qed.

(** Two passes from an even count: one bisection of each interval. *)
Lemma EncodeInt_body_pair (la ln t alat alng : Z) (v : EncodeVars) :
  represents latitude la -> represents longitude ln ->
  bitsTotal v = 2 * t -> 0 <= t < 26 ->
  cell 90 t alat (minLat v) (maxLat v) -> 0 <= alat < 2 ^ t ->
  cell 180 t alng (minLng v) (maxLng v) -> 0 <= alng < 2 ^ t ->
  0 <= geohash v < 2 ^ 60 ->
  let v' := EncodeInt_body latitude longitude (EncodeInt_body latitude longitude v) in
  let blng := if grid 180 (t + 1) (2 * alng + 1) <? ln then 1 else 0 in
  let blat := if grid 90 (t + 1) (2 * alat + 1) <? la then 1 else 0 in
  bitsTotal v' = 2 * (t + 1) /\
  cell 90 (t + 1) (2 * alat + blat) (minLat v') (maxLat v') /\
  cell 180 (t + 1) (2 * alng + blng) (minLng v') (maxLng v') /\
  geohash v' = 4 * geohash v + 2 * blng + blat.
Proof.
  intros Hla Hln Hbt Ht Clat Ralat Clng Ralng Hg v' blng blat.
  change (2 ^ 60) with 1152921504606846976 in Hg.
  set (v1 := EncodeInt_body latitude longitude v) in *.
  assert (Hb1 : bitsTotal v1 = 2 * t + 1).
  { unfold v1. rewrite EncodeInt_body_bitsTotal; int64_lia. }
  assert (Hpar0 : Z.rem (bitsTotal v) 2 = 0)
    by (rewrite Hbt, Z.mul_comm; apply Z.rem_mul; lia).
  destruct (EncodeInt_body_lng ln t alng v Hpar0 Hln Clng
              ltac:(lia) Ralng ltac:(change (2 ^ 62) with 4611686018427387904; lia))
    as (Clng1 & Emin & Emax & Eg1).
  fold v1 in Clng1, Emin, Emax, Eg1. fold blng in Clng1, Eg1.
  assert (Hblng : 0 <= blng <= 1) by (unfold blng; destruct (grid 180 (t + 1) (2 * alng + 1) <? ln); lia).
  assert (Hpar1 : Z.rem (bitsTotal v1) 2 <> 0).
  { rewrite Hb1. rewrite Z.rem_mod_nonneg by lia.
    rewrite Z.add_comm, Z.mul_comm, Z.mod_add by lia. discriminate. }
  rewrite <- Emin, <- Emax in Clat.
  destruct (EncodeInt_body_lat la t alat v1 Hpar1 Hla Clat
              ltac:(lia) Ralat ltac:(change (2 ^ 62) with 4611686018427387904; lia))
    as (Clat2 & Emin2 & Emax2 & Eg2).
  fold v' in Clat2, Emin2, Emax2, Eg2. fold blat in Clat2, Eg2.
  split; [| split; [exact Clat2 | split]].
  - unfold v'. rewrite EncodeInt_body_bitsTotal; int64_lia.
  - rewrite Emin2, Emax2. exact Clng1.
  - lia.
Qed.

(** Two turns of the loop at once. *)
Lemma EncodeInt_loop_pair (fuel : nat) (d t : Z) (v : EncodeVars) :
  bitsTotal v = 2 * t -> 0 <= t -> 2 * t + 2 <= d <= 52 ->
  EncodeInt_loop (S (S fuel)) latitude longitude d v
  = EncodeInt_loop fuel latitude longitude d
      (EncodeInt_body latitude longitude (EncodeInt_body latitude longitude v)).
Proof.
  intros Hbt Ht Hd. cbn [EncodeInt_loop].
  replace (bitsTotal v <? d) with true by (symmetry; apply Z.ltb_lt; lia).
  rewrite EncodeInt_body_bitsTotal by int64_lia.
  replace (bitsTotal v + 1 <? d) with true by (symmetry; apply Z.ltb_lt; lia).
  reflexivity.
Qed.

(** The loop rule for invariants stated at even counts. *)
Lemma EncodeInt_loop_pairs (S' : Z) (I : Z -> EncodeVars -> Prop) :
  0 <= S' <= 26 ->
  (forall t v, 0 <= t < S' -> I t v ->
     I (t + 1) (EncodeInt_body latitude longitude
                  (EncodeInt_body latitude longitude v))) ->
  (forall t v, I t v -> bitsTotal v = 2 * t) ->
  forall (n : nat) (t : Z) (v : EncodeVars),
    0 <= t <= S' -> Z.of_nat n = S' - t -> I t v ->
    exists v',
      EncodeInt_loop (2 * n) latitude longitude (2 * S') v = Ok v' /\
      I S' v'.
Proof.
  intros HS Hstep Hbt. induction n as [| n IH]; intros t v Ht Hn HI.
  - assert (t = S') by lia. subst t. exists v.
    change (2 * 0)%nat with O. cbn [EncodeInt_loop].
    rewrite (Hbt _ _ HI), Z.ltb_irrefl. auto.
  - replace (2 * S n)%nat with (S (S (2 * n))) by lia.
    rewrite (EncodeInt_loop_pair _ _ t) by (try apply (Hbt _ _ HI); lia).
    apply (IH (t + 1)); [lia | lia |]. apply Hstep; [lia | exact HI].
Qed.

End EncoderPasses.

(** *** Bits of the hash *)

Lemma bitOf_range (h p : Z) : 0 <= bitOf h p <= 1.
Proof. unfold bitOf. destruct (Z.testbit h p); simpl; lia. Qed.

Lemma bit_if (b : Z) : 0 <= b <= 1 -> (if b =? 0 then 0 else 1) = b.
Proof. intros Hb. destruct (Z.eqb_spec b 0); lia. Qed.

Lemma bitOf_div (h p n : Z) :
  0 <= p -> 0 <= n -> bitOf (h / 2 ^ n) p = bitOf h (p + n).
Proof.
  intros Hp Hn. unfold bitOf. now rewrite Z.div_pow2_bits.
Qed.

Lemma bitOf_0 (h : Z) : bitOf h 0 = h mod 2.
Proof. unfold bitOf. apply Z.bit0_mod. Qed.

Lemma pair_div4 (g b1 b0 : Z) :
  0 <= b1 <= 1 -> 0 <= b0 <= 1 -> (4 * g + 2 * b1 + b0) / 2 ^ 2 = g.
Proof.
  intros H1 H0. change (2 ^ 2) with 4.
  symmetry. apply (Z.div_unique _ 4 g (2 * b1 + b0)); lia.
Qed.

Lemma pair_bit0 (g b1 b0 : Z) :
  0 <= b1 <= 1 -> 0 <= b0 <= 1 -> bitOf (4 * g + 2 * b1 + b0) 0 = b0.
Proof.
  intros H1 H0. rewrite bitOf_0.
  symmetry. apply (Z.mod_unique _ 2 (2 * g + b1) b0); lia.
Qed.

Lemma pair_bit1 (g b1 b0 : Z) :
  0 <= b1 <= 1 -> 0 <= b0 <= 1 -> bitOf (4 * g + 2 * b1 + b0) 1 = b1.
Proof.
  intros H1 H0.
  change (bitOf (4 * g + 2 * b1 + b0) 1) with (bitOf (4 * g + 2 * b1 + b0) (0 + 1)).
  rewrite <- bitOf_div by lia.
  change (2 ^ 1) with 2.
  replace ((4 * g + 2 * b1 + b0) / 2) with (2 * g + b1)
    by (apply (Z.div_unique _ 2 _ b0); lia).
  rewrite bitOf_0. symmetry. apply (Z.mod_unique _ 2 g b1); lia.
Qed.

Lemma pair_bit_shift (g b1 b0 p : Z) :
  0 <= b1 <= 1 -> 0 <= b0 <= 1 -> 0 <= p ->
  bitOf (4 * g + 2 * b1 + b0) (p + 2) = bitOf g p.
Proof.
  intros H1 H0 Hp. rewrite <- bitOf_div by lia. now rewrite pair_div4.
Qed.

(** The indices read only the bits below [2 * steps]. *)
Lemma latIndex_ext (bit bit' : Z -> Z) (steps : Z) (n : nat) :
  (forall p, 0 <= p < 2 * steps -> bit p = bit' p) ->
  Z.of_nat n <= steps ->
  latIndex bit steps n = latIndex bit' steps n.
Proof.
  intros Hext. induction n as [| n IH]; intros Hn; [reflexivity |].
  cbn [latIndex]. rewrite IH, Hext by lia. reflexivity.
Qed.

Lemma lngIndex_ext (bit bit' : Z -> Z) (steps : Z) (n : nat) :
  (forall p, 0 <= p < 2 * steps -> bit p = bit' p) ->
  Z.of_nat n <= steps ->
  lngIndex bit steps n = lngIndex bit' steps n.
Proof.
  intros Hext. induction n as [| n IH]; intros Hn; [reflexivity |].
  cbn [lngIndex]. rewrite IH, Hext by lia. reflexivity.
Qed.

(** Appending a pair of bits to a hash keeps the indices of its prefix. *)
Lemma latIndex_shift (bit bit' : Z -> Z) (steps : Z) (n : nat) :
  (forall p, 0 <= p -> bit' (p + 2) = bit p) ->
  Z.of_nat n <= steps ->
  latIndex bit' (steps + 1) n = latIndex bit steps n.
Proof.
  intros Hsh. induction n as [| n IH]; intros Hn; [reflexivity |].
  cbn [latIndex]. rewrite IH by lia.
  replace (2 * (steps + 1 - Z.of_nat n) - 2) with (2 * (steps - Z.of_nat n) - 2 + 2) by lia.
  rewrite Hsh by lia. reflexivity.
Qed.

Lemma lngIndex_shift (bit bit' : Z -> Z) (steps : Z) (n : nat) :
  (forall p, 0 <= p -> bit' (p + 2) = bit p) ->
  Z.of_nat n <= steps ->
  lngIndex bit' (steps + 1) n = lngIndex bit steps n.
Proof.
  intros Hsh. induction n as [| n IH]; intros Hn; [reflexivity |].
  cbn [lngIndex]. rewrite IH by lia.
  replace (2 * (steps + 1 - Z.of_nat n) - 1) with (2 * (steps - Z.of_nat n) - 1 + 2) by lia.
  rewrite Hsh by lia. reflexivity.
Qed.

Lemma pow4 (t : Z) : 0 <= t -> 4 ^ t = 2 ^ (2 * t).
Proof. intros Ht. rewrite Z.pow_mul_r by lia. reflexivity. Qed.

(** *** Termination and range of the encoder *)

Lemma EncodeInt_loop_total (latitude longitude : float64) (d : Z) :
  0 <= d <= 52 ->
  forall (fuel : nat) (v : EncodeVars),
    0 <= bitsTotal v <= d -> fuel = Z.to_nat (d - bitsTotal v) ->
    0 <= geohash v < 2 ^ bitsTotal v ->
    exists v',
      EncodeInt_loop fuel latitude longitude d v = Ok v' /\
      bitsTotal v' = d /\ 0 <= geohash v' < 2 ^ d.
Proof.
  intros Hd. induction fuel as [| fuel IH]; intros v Hb Hf Hg.
  - assert (bitsTotal v = d) by lia.
    exists v. cbn [EncodeInt_loop]. rewrite H, Z.ltb_irrefl. rewrite H in Hg. auto.
  - cbn [EncodeInt_loop].
    replace (bitsTotal v <? d) with true by (symmetry; apply Z.ltb_lt; lia).
    assert (Hb' : bitsTotal (EncodeInt_body latitude longitude v) = bitsTotal v + 1)
      by (apply EncodeInt_body_bitsTotal; int64_lia).
    assert (Hlt : 2 ^ bitsTotal v <= 2 ^ 51) by (apply Z.pow_le_mono_r; lia).
    change (2 ^ 51) with 2251799813685248 in Hlt.
    destruct (EncodeInt_body_geohash latitude longitude v
                ltac:(change (2 ^ 62) with 4611686018427387904; lia))
      as (b & Hb01 & Hg').
    apply IH; rewrite ?Hb', ?Hg'; try lia.
    rewrite Z.pow_add_r by lia. change (2 ^ 1) with 2. lia.
Qed.

(** With less fuel than [bitDepth] the loop is still running. *)
Lemma EncodeInt_loop_short (latitude longitude : float64) (d : Z) :
  0 <= d <= 52 ->
  forall (fuel : nat) (v : EncodeVars),
    0 <= bitsTotal v -> Z.of_nat fuel < d - bitsTotal v ->
    EncodeInt_loop fuel latitude longitude d v = Diverge.
Proof.
  intros Hd. induction fuel as [| fuel IH]; intros v Hb Hf.
  - cbn [EncodeInt_loop].
    replace (bitsTotal v <? d) with true by (symmetry; apply Z.ltb_lt; lia).
    reflexivity.
  - cbn [EncodeInt_loop].
    replace (bitsTotal v <? d) with true by (symmetry; apply Z.ltb_lt; lia).
    assert (Hb' : bitsTotal (EncodeInt_body latitude longitude v) = bitsTotal v + 1)
      by (apply EncodeInt_body_bitsTotal; int64_lia).
    apply IH; rewrite Hb'; lia.
Qed.

Lemma EncodeInt_total (latitude longitude : float64) (d : Z) :
  valid_depth d ->
  exists v,
    EncodeInt_loop (Z.to_nat d) latitude longitude d EncodeInt_init = Ok v /\
    bitsTotal v = d /\
    EncodeInt latitude longitude d = Ok (geohash v) /\
    0 <= geohash v < 2 ^ d.
Proof.
  intros Hd. destruct Hd as [Hr He].
  destruct (EncodeInt_loop_total latitude longitude d ltac:(lia)
              (Z.to_nat d) EncodeInt_init) as (v & Hv & Hb & Hg);
    try (cbn; lia).
  exists v. repeat split; try assumption; try lia.
  unfold EncodeInt. rewrite (validateBitDepth_ok d (conj Hr He)). cbn [bind].
  rewrite Hv. reflexivity.
Qed.

(** *** The encoder inside the domain *)

Lemma choice_range (c : bool) : 0 <= (if c then 1 else 0) <= 1.
Proof. destruct c; lia. Qed.

(** The indices of a hash extended by one pair of bits. *)
Lemma index_extend (g b1 b0 t : Z) :
  0 <= t -> 0 <= b1 <= 1 -> 0 <= b0 <= 1 ->
  latIndex (bitOf (4 * g + 2 * b1 + b0)) (t + 1) (Z.to_nat (t + 1))
  = 2 * latIndex (bitOf g) t (Z.to_nat t) + b0 /\
  lngIndex (bitOf (4 * g + 2 * b1 + b0)) (t + 1) (Z.to_nat (t + 1))
  = 2 * lngIndex (bitOf g) t (Z.to_nat t) + b1.
Proof.
  intros Ht H1 H0.
  replace (Z.to_nat (t + 1)) with (S (Z.to_nat t)) by lia.
  cbn [latIndex lngIndex]. rewrite Z2Nat.id by lia.
  rewrite (latIndex_shift (bitOf g)), (lngIndex_shift (bitOf g));
    try lia; try (intros p Hp; now apply pair_bit_shift).
  replace (2 * (t + 1 - t) - 2) with 0 by lia.
  replace (2 * (t + 1 - t) - 1) with 1 by lia.
  rewrite pair_bit0, pair_bit1 by assumption.
  now rewrite !bit_if.
Qed.

Lemma bisect_contains (H t a x : Z) :
  0 <= t <= 1073 ->
  grid H t a <= x <= grid H t (a + 1) ->
  let b := if grid H (t + 1) (2 * a + 1) <? x then 1 else 0 in
  grid H (t + 1) (2 * a + b) <= x <= grid H (t + 1) (2 * a + b + 1).
Proof.
  intros Ht Hx b. subst b.
  rewrite (grid_refine H t a), (grid_refine H t (a + 1)) in Hx by lia.
  replace (2 * (a + 1)) with (2 * a + 1 + 1) in Hx by lia.
  destruct (Z.ltb_spec (grid H (t + 1) (2 * a + 1)) x).
  - lia.
  - rewrite Z.add_0_r. lia.
Qed.

Lemma encode_inv_step (latitude longitude : float64) (la ln t : Z)
  (v : EncodeVars) :
  represents latitude la -> represents longitude ln ->
  0 <= t < 26 -> encode_inv la ln t v ->
  encode_inv la ln (t + 1)
    (EncodeInt_body latitude longitude (EncodeInt_body latitude longitude v)).
Proof.
  intros Hla Hln Ht (Hbt & Hg & Clat & Clng & Xlat & Xlng).
  pose proof (latIndex_range (bitOf (geohash v)) t (Z.to_nat t)) as Rlat.
  pose proof (lngIndex_range (bitOf (geohash v)) t (Z.to_nat t)) as Rlng.
  rewrite Z2Nat.id in Rlat, Rlng by lia.
  assert (H4 : 4 ^ t <= 4 ^ 25) by (apply Z.pow_le_mono_r; lia).
  change (4 ^ 25) with 1125899906842624 in H4.
  destruct (EncodeInt_body_pair latitude longitude la ln t _ _ v Hla Hln Hbt Ht
              Clat Rlat Clng Rlng
              ltac:(change (2 ^ 60) with 1152921504606846976; lia))
    as (Hbt' & Clat' & Clng' & Hg').
  set (v' := EncodeInt_body latitude longitude (EncodeInt_body latitude longitude v)) in *.
  set (alat := latIndex (bitOf (geohash v)) t (Z.to_nat t)) in *.
  set (alng := lngIndex (bitOf (geohash v)) t (Z.to_nat t)) in *.
  set (blng := if grid 180 (t + 1) (2 * alng + 1) <? ln then 1 else 0) in *.
  set (blat := if grid 90 (t + 1) (2 * alat + 1) <? la then 1 else 0) in *.
  assert (Hblng : 0 <= blng <= 1) by (unfold blng; apply choice_range).
  assert (Hblat : 0 <= blat <= 1) by (unfold blat; apply choice_range).
  destruct (index_extend (geohash v) blng blat t ltac:(lia) Hblng Hblat) as [Ilat Ilng].
  fold alat in Ilat. fold alng in Ilng.
  unfold encode_inv. rewrite Hg', Ilat, Ilng.
  split; [exact Hbt' |].
  split; [rewrite Z.pow_add_r by lia; change (4 ^ 1) with 4; lia |].
  split; [exact Clat' |]. split; [exact Clng' |].
  split; [apply (bisect_contains 90 t alat la) | apply (bisect_contains 180 t alng ln)];
    try lia; assumption.
Qed.

(** *** Encoding, then decoding *)

Lemma to_Q_bound (x c e : float64) :
  Z.abs (val x - val c) <= val e ->
  (Qabs (to_Q x - to_Q c) <= to_Q e)%Q.
Proof.
  intros Hb. unfold to_Q, Qminus, Qplus, Qopp, Qabs, Qle. cbn [Qnum Qden].
  set (D := Zpos (2 ^ 1074)%positive).
  rewrite Pos2Z.inj_mul. fold D.
  assert (HD : 0 < D) by (unfold D; lia).
  replace (val x * D + - val c * D) with ((val x - val c) * D) by ring.
  rewrite Z.abs_mul, (Z.abs_eq D) by lia.
  rewrite Z.mul_assoc. apply Z.mul_le_mono_nonneg_r; [lia |].
  apply Z.mul_le_mono_nonneg_r; lia.
Qed.

Lemma leb_bounds_finite (x : float64) (a b : Z) :
  leb (of_int a) x = true -> leb x (of_int b) = true ->
  is_finite (of_int a) = true -> is_finite (of_int b) = true ->
  is_finite x = true.
Proof.
  intros Ha Hb Fa Fb.
  destruct x as [s | s | | s m e]; try reflexivity.
  - destruct s.
    + destruct (of_int a) as [? | [] | | [] ? ?]; discriminate.
    + destruct (of_int b) as [? | [] | | [] ? ?]; discriminate.
  - destruct (of_int a) as [? | [] | | [] ? ?]; discriminate.
Qed.

Lemma to_nat_double (s : Z) : 0 <= s -> Z.to_nat (2 * s) = (2 * Z.to_nat s)%nat.
Proof. intros Hs. lia. Qed.

(** The encoder in the domain: the hash it returns, and the cell that
    contains the point. *)
Lemma EncodeInt_spec (latitude longitude : float64) (d la ln : Z) :
  valid_depth d ->
  represents latitude la -> represents longitude ln ->
  -90 * 2 ^ 1074 <= la <= 90 * 2 ^ 1074 ->
  -180 * 2 ^ 1074 <= ln <= 180 * 2 ^ 1074 ->
  let s := Z.quot d 2 in
  exists g,
    EncodeInt latitude longitude d = Ok g /\ 0 <= g < 2 ^ d /\
    grid 90 s (latIndex (bitOf g) s (Z.to_nat s)) <= la
      <= grid 90 s (latIndex (bitOf g) s (Z.to_nat s) + 1) /\
    grid 180 s (lngIndex (bitOf g) s (Z.to_nat s)) <= ln
      <= grid 180 s (lngIndex (bitOf g) s (Z.to_nat s) + 1).
Proof.
  intros Hd Hla Hln Dla Dln s.
  destruct (valid_depth_steps d Hd) as [Hs Hds]. fold s in Hs, Hds.
  destruct (EncodeInt_loop_pairs latitude longitude s (encode_inv la ln)
              ltac:(lia)
              (fun t v Ht HI => encode_inv_step latitude longitude la ln t v Hla Hln
                                  ltac:(lia) HI)
              (fun t v HI => proj1 HI)
              (Z.to_nat s) 0 EncodeInt_init ltac:(lia) ltac:(lia))
    as (v & Hv & Hbt & Hg & _ & _ & Xlat & Xlng).
  { unfold encode_inv. cbn [bitsTotal geohash minLat maxLat minLng maxLng
                              EncodeInt_init Z.to_nat latIndex lngIndex].
    split; [reflexivity |]. split; [simpl; lia |].
    split; [exact cell_init_lat |]. split; [exact cell_init_lng |].
    change (grid 90 0 0) with (-90 * 2 ^ 1074).
    change (grid 90 0 (0 + 1)) with (90 * 2 ^ 1074).
    change (grid 180 0 0) with (-180 * 2 ^ 1074).
    change (grid 180 0 (0 + 1)) with (180 * 2 ^ 1074).
    split; assumption. }
  exists (geohash v).
  rewrite <- to_nat_double, <- Hds in Hv by lia.
  split.
  - unfold EncodeInt. rewrite (validateBitDepth_ok d Hd). cbn [bind].
    rewrite Hv. reflexivity.
  - rewrite pow4 in Hg by lia. rewrite <- Hds in Hg. auto.
Qed.

Lemma half_cell (H s a : Z) :
  0 <= s <= 1073 ->
  grid H (s + 1) (2 * a + 1) - grid H s a = H * 2 ^ (1074 - s) /\
  grid H s (a + 1) - grid H (s + 1) (2 * a + 1) = H * 2 ^ (1074 - s).
Proof.
  intros Hs.
  rewrite (grid_refine H s a), (grid_refine H s (a + 1)) by lia.
  replace (2 * (a + 1)) with (2 * a + 1 + 1) by lia.
  rewrite !grid_step.
  replace (1074 - s) with (1074 - (s + 1) + 1) by lia.
  rewrite Z.pow_add_r by lia. change (2 ^ 1) with 2. lia.
Qed.

Lemma centre_bound (H s a x : Z) :
  0 <= s <= 1073 -> grid H s a <= x <= grid H s (a + 1) ->
  Z.abs (x - grid H (s + 1) (2 * a + 1)) <= H * 2 ^ (1074 - s).
Proof.
  intros Hs Hx. destruct (half_cell H s a Hs) as [E1 E2]. lia.
Qed.

(** For a hash the encoder can return, [getBit] reads its bits. *)
Lemma index_getBit (g s : Z) :
  0 <= g < 2 ^ 53 -> 0 <= s <= 26 ->
  latIndex (getBit g) s (Z.to_nat s) = latIndex (bitOf g) s (Z.to_nat s) /\
  lngIndex (getBit g) s (Z.to_nat s) = lngIndex (bitOf g) s (Z.to_nat s).
Proof.
  intros Hg Hs.
  split; [apply latIndex_ext | apply lngIndex_ext]; try lia;
    intros p Hp; apply getBit_testbit; lia.
Qed.

Lemma represents_val (x : float64) (v : Z) : represents x v -> val x = v.
Proof. now intros (_ & _ & H). Qed.

(** C1.  For a latitude in [[-90, 90]], a longitude in [[-180, 180]] and a
    valid bit depth, [EncodeInt] returns a hash and [DecodeInt] of that
    hash at the same depth returns a centre and error terms with
    [|lat - lat'| <= latErr] and [|lng - lng'| <= lngErr], as exact real
    numbers. *)
Theorem roundtrip_within_error (latitude longitude : float64) (bitDepth : Z) :
  valid_depth bitDepth ->
  valid latitude = true -> valid longitude = true ->
  leb (of_int (-90)) latitude = true -> leb latitude (of_int 90) = true ->
  leb (of_int (-180)) longitude = true -> leb longitude (of_int 180) = true ->
  exists h p,
    EncodeInt latitude longitude bitDepth = Ok h /\
    DecodeInt h bitDepth = Ok p /\
    (Qabs (to_Q latitude - to_Q (lat p)) <= to_Q (latErr p))%Q /\
    (Qabs (to_Q longitude - to_Q (lng p)) <= to_Q (lngErr p))%Q.
Proof.
  intros Hd Vla Vln La1 La2 Ln1 Ln2.
  assert (Fla : is_finite latitude = true)
    by (apply (leb_bounds_finite latitude (-90) 90); auto).
  assert (Fln : is_finite longitude = true)
    by (apply (leb_bounds_finite longitude (-180) 180); auto).
  pose proof (represents_self latitude Vla Fla) as Hla.
  pose proof (represents_self longitude Vln Fln) as Hln.
  rewrite (leb_val _ _ _ _ (of_int_exact (-90) ltac:(vm_compute; reflexivity)) Hla) in La1.
  rewrite (leb_val _ _ _ _ Hla (of_int_exact 90 ltac:(vm_compute; reflexivity))) in La2.
  rewrite (leb_val _ _ _ _ (of_int_exact (-180) ltac:(vm_compute; reflexivity)) Hln) in Ln1.
  rewrite (leb_val _ _ _ _ Hln (of_int_exact 180 ltac:(vm_compute; reflexivity))) in Ln2.
  apply Z.leb_le in La1, La2, Ln1, Ln2.
  destruct (valid_depth_steps bitDepth Hd) as [Hs Hds].
  destruct (EncodeInt_spec latitude longitude bitDepth _ _ Hd Hla Hln
              (conj La1 La2) (conj Ln1 Ln2)) as (g & Hg & Rg & Xlat & Xlng).
  destruct (DecodeInt_spec g bitDepth Hd) as (b & p & _ & Hp & _ & _ & Clat & Clng & Elat & Elng).
  assert (Rg53 : 0 <= g < 2 ^ 53).
  { split; [lia |]. apply Z.lt_le_trans with (2 ^ bitDepth); [lia |].
    apply Z.pow_le_mono_r; destruct Hd; lia. }
  destruct (index_getBit g (Z.quot bitDepth 2) Rg53 ltac:(lia)) as [Ilat Ilng].
  rewrite Ilat in Clat. rewrite Ilng in Clng.
  exists g, p. split; [exact Hg |]. split; [exact Hp |].
  split; apply to_Q_bound.
  - rewrite (represents_val _ _ Clat), (represents_val _ _ Elat).
    apply centre_bound; [lia | exact Xlat].
  - rewrite (represents_val _ _ Clng), (represents_val _ _ Elng).
    apply centre_bound; [lia | exact Xlng].
Qed.

Lemma roundtrip_within_error_witness :
  exists h p,
    EncodeInt (of_dec 378324 4) (of_dec 1125584 4) 52 = Ok h /\
    DecodeInt h 52 = Ok p /\
    (Qabs (to_Q (of_dec 378324 4) - to_Q (lat p)) <= to_Q (latErr p))%Q /\
    (Qabs (to_Q (of_dec 1125584 4) - to_Q (lng p)) <= to_Q (lngErr p))%Q.
Proof.
  apply roundtrip_within_error.
  - split; [lia | reflexivity].
  - vm_compute; reflexivity.
  - vm_compute; reflexivity.
  - vm_compute; reflexivity.
  - vm_compute; reflexivity.
  - vm_compute; reflexivity.
  - vm_compute; reflexivity.
Defined.

(** *** The box and its centre *)

Lemma cell_ordered (H s a : Z) (lo hi c : float64) :
  0 < H -> 0 <= s <= 1073 ->
  cell H s a lo hi -> represents c (grid H (s + 1) (2 * a + 1)) ->
  leb lo hi = true /\ leb lo c = true /\ leb c hi = true.
Proof.
  intros HH Hs [Hlo Hhi] Hc.
  destruct (half_cell H s a Hs) as [E1 E2].
  assert (0 < H * 2 ^ (1074 - s))
    by (apply Z.mul_pos_pos; [lia | apply pow2_pos; lia]).
  rewrite (leb_val _ _ _ _ Hlo Hhi), (leb_val _ _ _ _ Hlo Hc), (leb_val _ _ _ _ Hc Hhi).
  repeat split; apply Z.leb_le; lia.
Qed.

(** C3.  For a valid bit depth and every hash, negative and out-of-range
    ones included, [DecodeBboxInt] returns a box with [minLat <= maxLat]
    and [minLng <= maxLng], and the centre that [DecodeInt] returns lies
    within it. *)
Theorem bbox_ordered_and_contains_centre (geohash bitDepth : Z) :
  valid_depth bitDepth ->
  exists b p,
    DecodeBboxInt geohash bitDepth = Ok b /\
    DecodeInt geohash bitDepth = Ok p /\
    leb (bMinLat b) (bMaxLat b) = true /\
    leb (bMinLng b) (bMaxLng b) = true /\
    leb (bMinLat b) (lat p) = true /\ leb (lat p) (bMaxLat b) = true /\
    leb (bMinLng b) (lng p) = true /\ leb (lng p) (bMaxLng b) = true.
Proof.
  intros Hd. destruct (valid_depth_steps bitDepth Hd) as [Hs _].
  destruct (DecodeInt_spec geohash bitDepth Hd)
    as (b & p & Hb & Hp & Clat & Clng & Plat & Plng & _ & _).
  destruct (cell_ordered 90 (Z.quot bitDepth 2) _ _ _ _ ltac:(lia) ltac:(lia) Clat Plat) as (A1 & A2 & A3).
  destruct (cell_ordered 180 (Z.quot bitDepth 2) _ _ _ _ ltac:(lia) ltac:(lia) Clng Plng) as (B1 & B2 & B3).
  exists b, p. auto 10.
Qed.

Lemma bbox_ordered_and_contains_centre_witness :
  exists b p,
    DecodeBboxInt (-7) 52 = Ok b /\
    DecodeInt (-7) 52 = Ok p /\
    leb (bMinLat b) (bMaxLat b) = true /\
    leb (bMinLng b) (bMaxLng b) = true /\
    leb (bMinLat b) (lat p) = true /\ leb (lat p) (bMaxLat b) = true /\
    leb (bMinLng b) (lng p) = true /\ leb (lng p) (bMaxLng b) = true.
Proof.
  apply bbox_ordered_and_contains_centre. split; [lia | reflexivity].
Defined.

Lemma to_Q_half (x y : float64) :
  val y = 2 * val x -> (2 * to_Q x == to_Q y)%Q.
Proof.
  intros H. unfold to_Q, Qeq, Qmult. cbn [Qnum Qden]. rewrite H.
  rewrite Pos2Z.inj_mul. ring.
Qed.

(** C4.  For every hash and every valid bit depth [d] with [d + 2 <= 52],
    the error terms of [DecodeInt] at depth [d + 2] are strictly smaller
    than those at depth [d]: exactly half of them. *)
Theorem error_halves_with_depth (geohash bitDepth : Z) :
  valid_depth bitDepth -> bitDepth + 2 <= 52 ->
  exists p p',
    DecodeInt geohash bitDepth = Ok p /\
    DecodeInt geohash (bitDepth + 2) = Ok p' /\
    ltb (latErr p') (latErr p) = true /\
    ltb (lngErr p') (lngErr p) = true /\
    (2 * to_Q (latErr p') == to_Q (latErr p))%Q /\
    (2 * to_Q (lngErr p') == to_Q (lngErr p))%Q.
Proof.
  intros Hd Hle.
  assert (Hd' : valid_depth (bitDepth + 2)).
  { destruct Hd as [Hr He]. split; [lia |].
    rewrite Z.even_add, He. reflexivity. }
  destruct (valid_depth_steps bitDepth Hd) as [Hs Hds].
  destruct (valid_depth_steps (bitDepth + 2) Hd') as [Hs' Hds'].
  assert (Hq : Z.quot (bitDepth + 2) 2 = Z.quot bitDepth 2 + 1) by lia.
  destruct (DecodeInt_spec geohash bitDepth Hd)
    as (b & p & _ & Hp & _ & _ & _ & _ & Elat & Elng).
  destruct (DecodeInt_spec geohash (bitDepth + 2) Hd')
    as (b' & p' & _ & Hp' & _ & _ & _ & _ & Elat' & Elng').
  rewrite Hq in Elat', Elng'.
  set (s := Z.quot bitDepth 2) in *.
  assert (P : 2 ^ (1074 - s) = 2 * 2 ^ (1074 - (s + 1))).
  { replace (1074 - s) with (1074 - (s + 1) + 1) by lia.
    rewrite Z.pow_add_r by lia. change (2 ^ 1) with 2. lia. }
  pose proof (pow2_pos (1074 - (s + 1)) ltac:(lia)) as Pp.
  exists p, p'. split; [exact Hp |]. split; [exact Hp' |].
  rewrite (ltb_val _ _ _ _ Elat' Elat), (ltb_val _ _ _ _ Elng' Elng).
  repeat split.
  - apply Z.ltb_lt. lia.
  - apply Z.ltb_lt. lia.
  - apply to_Q_half.
    rewrite (represents_val _ _ Elat), (represents_val _ _ Elat'). lia.
  - apply to_Q_half.
    rewrite (represents_val _ _ Elng), (represents_val _ _ Elng'). lia.
Qed.

Lemma error_halves_with_depth_witness :
  exists p p',
    DecodeInt 4064984913515641 50 = Ok p /\
    DecodeInt 4064984913515641 (50 + 2) = Ok p' /\
    ltb (latErr p') (latErr p) = true /\
    ltb (lngErr p') (lngErr p) = true /\
    (2 * to_Q (latErr p') == to_Q (latErr p))%Q /\
    (2 * to_Q (lngErr p') == to_Q (lngErr p))%Q.
Proof.
  apply error_halves_with_depth; [split; [lia | reflexivity] | lia].
Defined.

(** *** Decoding, then encoding *)

Lemma grid_refine_n (H s k j : Z) :
  0 <= s -> 0 <= k -> s + k <= 1074 ->
  grid H s j = grid H (s + k) (j * 2 ^ k).
Proof.
  intros Hs Hk Hsk. unfold grid.
  rewrite (Z.pow_add_r 2 s k) by lia.
  replace (1074 - s) with (1074 - (s + k) + k) by lia.
  rewrite (Z.pow_add_r 2 (1074 - (s + k)) k) by lia. ring.
Qed.

(** The index after [n] steps is a prefix of the index after [n + m]. *)
Lemma latIndex_prefix (bit : Z -> Z) (steps : Z) (n m : nat) :
  latIndex bit steps n * 2 ^ Z.of_nat m <= latIndex bit steps (n + m)
  < (latIndex bit steps n + 1) * 2 ^ Z.of_nat m.
Proof.
  induction m as [| m IH].
  - rewrite Nat.add_0_r. simpl. lia.
  - replace (n + S m)%nat with (S (n + m)) by lia. cbn [latIndex].
    rewrite Nat2Z.inj_succ, Z.pow_succ_r by lia.
    destruct (_ =? 0); lia.
Qed.

Lemma lngIndex_prefix (bit : Z -> Z) (steps : Z) (n m : nat) :
  lngIndex bit steps n * 2 ^ Z.of_nat m <= lngIndex bit steps (n + m)
  < (lngIndex bit steps n + 1) * 2 ^ Z.of_nat m.
Proof.
  induction m as [| m IH].
  - rewrite Nat.add_0_r. simpl. lia.
  - replace (n + S m)%nat with (S (n + m)) by lia. cbn [lngIndex].
    rewrite Nat2Z.inj_succ, Z.pow_succ_r by lia.
    destruct (_ =? 0); lia.
Qed.

(** Bisecting towards the centre of a cell below follows the bits of its
    index: [a] is the index at level [t], [2 * a + b] the one at level
    [t + 1] and [A] the one at level [s]. *)
Lemma centre_choice (H s t a b A : Z) :
  0 < H -> 0 <= t < s -> s <= 1073 -> 0 <= b <= 1 ->
  (2 * a + b) * 2 ^ (s - (t + 1)) <= A < (2 * a + b + 1) * 2 ^ (s - (t + 1)) ->
  (if grid H (t + 1) (2 * a + 1) <? grid H (s + 1) (2 * A + 1) then 1 else 0) = b.
Proof.
  intros HH Ht Hs Hb HA.
  rewrite (grid_refine_n H (t + 1) (s - t) (2 * a + 1)) by lia.
  replace (t + 1 + (s - t)) with (s + 1) by lia.
  replace (s - t) with (s - (t + 1) + 1) by lia.
  rewrite Z.pow_add_r by lia. change (2 ^ 1) with 2.
  pose proof (pow2_pos (s - (t + 1)) ltac:(lia)) as P.
  set (p := 2 ^ (s - (t + 1))) in *.
  destruct (Z.ltb_spec (grid H (s + 1) ((2 * a + 1) * (p * 2)))
                       (grid H (s + 1) (2 * A + 1))) as [Hlt | Hge].
  - apply grid_lt in Hlt; [| lia | lia]. nia.
  - apply grid_le in Hge; [| lia | lia]. nia.
Qed.

Lemma low_pair (X : Z) : X = 4 * (X / 4) + 2 * bitOf X 1 + bitOf X 0.
Proof.
  change (bitOf X 1) with (bitOf X (0 + 1)).
  rewrite <- bitOf_div, !bitOf_0 by lia. change (2 ^ 1) with 2.
  pose proof (Z.div_mod X 2 ltac:(lia)) as E1.
  pose proof (Z.div_mod (X / 2) 2 ltac:(lia)) as E2.
  rewrite Z.div_div in E2 by lia. change (2 * 2) with 4 in E2. lia.
Qed.

Lemma getBit_range (h p : Z) : 0 <= getBit h p <= 1.
Proof.
  unfold getBit. set (z := to_int (div (of_int h) (pow2 p))).
  change (Z.land z 1) with (Z.land z (Z.ones 1)).
  rewrite Z.land_ones by lia. change (2 ^ 1) with 2.
  pose proof (Z.mod_pos_bound z 2 ltac:(lia)). lia.
Qed.

Lemma reencode_inv_step (latitude longitude : float64) (h s t : Z)
  (v : EncodeVars) :
  0 <= h < 2 ^ 53 -> 0 <= t < s -> s <= 26 ->
  represents latitude
    (grid 90 (s + 1) (2 * latIndex (getBit h) s (Z.to_nat s) + 1)) ->
  represents longitude
    (grid 180 (s + 1) (2 * lngIndex (getBit h) s (Z.to_nat s) + 1)) ->
  reencode_inv h s t v ->
  reencode_inv h s (t + 1)
    (EncodeInt_body latitude longitude (EncodeInt_body latitude longitude v)).
Proof.
  intros Hh Ht Hs Hla Hln (Hbt & Hg & Clat & Clng).
  pose proof (latIndex_range (getBit h) s (Z.to_nat t)) as Rlat.
  pose proof (lngIndex_range (getBit h) s (Z.to_nat t)) as Rlng.
  rewrite Z2Nat.id in Rlat, Rlng by lia.
  assert (Hgr : 0 <= geohash v < 2 ^ 60).
  { rewrite Hg. split; [apply Z.div_pos; [lia | apply Z.pow_pos_nonneg; lia] |].
    apply Z.le_lt_trans with h.
    - apply Z.div_le_upper_bound; [apply Z.pow_pos_nonneg; lia |].
      pose proof (Z.pow_pos_nonneg 4 (s - t) ltac:(lia) ltac:(lia)). nia.
    - apply Z.lt_le_trans with (2 ^ 53); [lia | apply Z.pow_le_mono_r; lia]. }
  destruct (EncodeInt_body_pair latitude longitude _ _ t _ _ v Hla Hln Hbt
              ltac:(lia) Clat Rlat Clng Rlng Hgr)
    as (Hbt' & Clat' & Clng' & Hg').
  set (v' := EncodeInt_body latitude longitude (EncodeInt_body latitude longitude v)) in *.
  (* the bits the decoder reads at this step *)
  set (blat := getBit h (2 * (s - t) - 2)) in *.
  set (blng := getBit h (2 * (s - t) - 1)) in *.
  pose proof (getBit_range h (2 * (s - t) - 2)) as Rblat. fold blat in Rblat.
  pose proof (getBit_range h (2 * (s - t) - 1)) as Rblng. fold blng in Rblng.
  assert (Snat : Z.to_nat s = (S (Z.to_nat t) + Z.to_nat (s - (t + 1)))%nat) by lia.
  pose proof (latIndex_prefix (getBit h) s (S (Z.to_nat t)) (Z.to_nat (s - (t + 1)))) as Plat.
  pose proof (lngIndex_prefix (getBit h) s (S (Z.to_nat t)) (Z.to_nat (s - (t + 1)))) as Plng.
  rewrite <- Snat in Plat, Plng. cbn [latIndex lngIndex] in Plat, Plng.
  rewrite !Z2Nat.id in Plat, Plng by lia.
  fold blat in Plat. fold blng in Plng.
  rewrite bit_if in Plat, Plng by assumption.
  rewrite (centre_choice 90 s t _ blat _ ltac:(lia) ltac:(lia) ltac:(lia) Rblat Plat) in Clat', Hg'.
  rewrite (centre_choice 180 s t _ blng _ ltac:(lia) ltac:(lia) ltac:(lia) Rblng Plng) in Clng', Hg'.
  unfold reencode_inv.
  replace (Z.to_nat (t + 1)) with (S (Z.to_nat t)) by lia.
  cbn [latIndex lngIndex]. rewrite Z2Nat.id by lia.
  fold blat blng. rewrite !bit_if by assumption.
  split; [exact Hbt' |]. split; [| split; assumption].
  rewrite Hg', Hg.
  (* the top bits of the hash *)
  set (X := h / 4 ^ (s - (t + 1))).
  assert (HX4 : h / 4 ^ (s - t) = X / 4).
  { unfold X. rewrite Z.div_div by (try apply Z.pow_pos_nonneg; lia).
    replace (s - t) with (s - (t + 1) + 1) by lia.
    rewrite Z.pow_add_r by lia. reflexivity. }
  assert (Hb0 : blat = bitOf X 0).
  { unfold blat, X. rewrite getBit_testbit by lia.
    rewrite pow4 by lia. rewrite bitOf_div by lia. f_equal. lia. }
  assert (Hb1 : blng = bitOf X 1).
  { unfold blng, X. rewrite getBit_testbit by lia.
    rewrite pow4 by lia. rewrite bitOf_div by lia. f_equal. lia. }
  rewrite HX4, Hb0, Hb1. symmetry. apply low_pair.
Qed.

(** C9.  For a valid bit depth [d] and a hash in [[0, 2^d)], encoding the
    centre that [DecodeInt] returns gives the hash back. *)
Theorem decode_then_encode (h bitDepth : Z) :
  valid_depth bitDepth -> 0 <= h < 2 ^ bitDepth ->
  exists p,
    DecodeInt h bitDepth = Ok p /\
    EncodeInt (lat p) (lng p) bitDepth = Ok h.
Proof.
  intros Hd Hh.
  destruct (valid_depth_steps bitDepth Hd) as [Hs Hds].
  set (s := Z.quot bitDepth 2) in *.
  assert (Hh53 : 0 <= h < 2 ^ 53).
  { split; [lia |]. apply Z.lt_le_trans with (2 ^ bitDepth); [lia |].
    apply Z.pow_le_mono_r; lia. }
  destruct (DecodeInt_spec h bitDepth Hd)
    as (b & p & _ & Hp & _ & _ & Plat & Plng & _ & _).
  fold s in Plat, Plng.
  exists p. split; [exact Hp |].
  destruct (EncodeInt_loop_pairs (lat p) (lng p) s (reencode_inv h s)
              ltac:(lia)
              (fun t v Ht HI => reencode_inv_step (lat p) (lng p) h s t v Hh53
                                  ltac:(lia) ltac:(lia) Plat Plng HI)
              (fun t v HI => proj1 HI)
              (Z.to_nat s) 0 EncodeInt_init ltac:(lia) ltac:(lia))
    as (v & Hv & Hbt & Hg & _ & _).
  { unfold reencode_inv.
    cbn [bitsTotal geohash minLat maxLat minLng maxLng EncodeInt_init
         Z.to_nat latIndex lngIndex].
    split; [reflexivity |]. split; [| split; [exact cell_init_lat | exact cell_init_lng]].
    rewrite Z.sub_0_r, pow4, <- Hds by lia.
    symmetry. apply Z.div_small. exact Hh. }
  rewrite <- to_nat_double, <- Hds in Hv by lia.
  unfold EncodeInt. rewrite (validateBitDepth_ok bitDepth Hd). cbn [bind].
  rewrite Hv. cbn [bind]. rewrite Hg, Z.sub_diag. simpl. now rewrite Z.div_1_r.
Qed.

Lemma decode_then_encode_witness :
  exists p,
    DecodeInt 1702789509 32 = Ok p /\
    EncodeInt (lat p) (lng p) 32 = Ok 1702789509.
Proof.
  apply decode_then_encode; [split; [lia | reflexivity] | lia].
Defined.

(** *** The bit accessor *)

(** C7.  For a hash in [[0, 2^53)] and a position in [[0, 52]], [getBit]
    is the hash divided by [2^position] and masked with [1], that is bit
    [position] of the hash counted from the least significant one, and it
    is [0] or [1]. *)
Theorem getBit_is_bit_of_hash (geohash position : Z) :
  0 <= geohash < 2 ^ 53 -> 0 <= position <= 52 ->
  getBit geohash position = Z.land (geohash / 2 ^ position) 1 /\
  getBit geohash position = Z.b2z (Z.testbit geohash position) /\
  (getBit geohash position = 0 \/ getBit geohash position = 1).
Proof.
  intros Hh Hp. pose proof (getBit_testbit geohash position Hh Hp) as Hb.
  unfold bitOf in Hb. split; [| split; [exact Hb |]].
  - rewrite Hb, Z.testbit_spec' by lia.
    change (Z.land (geohash / 2 ^ position) 1)
      with (Z.land (geohash / 2 ^ position) (Z.ones 1)).
    rewrite Z.land_ones by lia. reflexivity.
  - rewrite Hb. destruct (Z.testbit geohash position); auto.
Qed.

Lemma getBit_is_bit_of_hash_witness :
  getBit 4064984913515641 3 = Z.land (4064984913515641 / 2 ^ 3) 1 /\
  getBit 4064984913515641 3 = Z.b2z (Z.testbit 4064984913515641 3) /\
  (getBit 4064984913515641 3 = 0 \/ getBit 4064984913515641 3 = 1).
Proof.
  apply getBit_is_bit_of_hash; [split; [lia | reflexivity] | lia].
Defined.

(** *** Bits above the depth *)

Lemma DecodeBboxInt_body_ext (h h' steps t : Z) (b : Bbox) :
  (forall p, 0 <= p < 2 * steps -> getBit h p = getBit h' p) ->
  0 <= t < steps -> steps <= 26 ->
  DecodeBboxInt_body h steps t b = DecodeBboxInt_body h' steps t b.
Proof.
  intros Hext Ht Hs. unfold DecodeBboxInt_body.
  rewrite (wrap64_small (steps - t)) by int64_lia.
  rewrite (wrap64_small ((steps - t) * 2)) by int64_lia.
  rewrite !wrap64_small by int64_lia.
  rewrite !(Hext _) by lia. reflexivity.
Qed.

Lemma DecodeBboxInt_loop_ext (h h' steps : Z) :
  (forall p, 0 <= p < 2 * steps -> getBit h p = getBit h' p) ->
  steps <= 26 ->
  forall (fuel : nat) (t : Z) (b : Bbox),
    0 <= t ->
    DecodeBboxInt_loop fuel h steps t b = DecodeBboxInt_loop fuel h' steps t b.
Proof.
  intros Hext Hs. induction fuel as [| fuel IH]; intros t b Ht;
    cbn [DecodeBboxInt_loop]; [reflexivity |].
  destruct (Z.ltb_spec t steps) as [Hlt | Hge]; [| reflexivity].
  rewrite wrap64_small by int64_lia.
  rewrite (DecodeBboxInt_body_ext h h') by (try assumption; lia).
  apply IH. lia.
Qed.

(** C10.  For a valid bit depth [d] and a hash in [[0, 2^53)],
    [DecodeBboxInt] of the hash is [DecodeBboxInt] of its low [d] bits. *)
Theorem decodeBbox_ignores_high_bits (h bitDepth : Z) :
  valid_depth bitDepth -> 0 <= h < 2 ^ 53 ->
  DecodeBboxInt h bitDepth = DecodeBboxInt (h mod 2 ^ bitDepth) bitDepth.
Proof.
  intros Hd Hh. destruct (valid_depth_steps bitDepth Hd) as [Hs Hds].
  unfold DecodeBboxInt. destruct (validateBitDepth bitDepth); cbn [bind]; try reflexivity.
  apply DecodeBboxInt_loop_ext; try lia.
  intros p Hp.
  assert (Hm : 0 <= h mod 2 ^ bitDepth < 2 ^ 53).
  { pose proof (Z.mod_pos_bound h (2 ^ bitDepth) ltac:(apply Z.pow_pos_nonneg; lia)).
    split; [lia |]. apply Z.le_lt_trans with h; [| lia].
    apply Z.mod_le; [lia | apply Z.pow_pos_nonneg; lia]. }
  rewrite !getBit_testbit by lia.
  unfold bitOf. rewrite Z.mod_pow2_bits_low by lia. reflexivity.
Qed.

Lemma decodeBbox_ignores_high_bits_witness :
  DecodeBboxInt (2 ^ 52 + 5) 4 = DecodeBboxInt ((2 ^ 52 + 5) mod 2 ^ 4) 4.
Proof.
  apply decodeBbox_ignores_high_bits;
    [split; [lia | reflexivity] | split; [| reflexivity]; discriminate].
Defined.

(** *** The encoder ends *)

(** C6.  For a valid bit depth [d] and every pair of coordinates, outside
    the domain or not, the loop of [EncodeInt] ends after exactly [d]
    passes, and [EncodeInt] returns a value in [[0, 2^d - 1]]. *)
Theorem encode_terminates_in_range (latitude longitude : float64) (bitDepth : Z) :
  valid_depth bitDepth ->
  exists v,
    EncodeInt_loop (Z.to_nat bitDepth) latitude longitude bitDepth EncodeInt_init
      = Ok v /\
    bitsTotal v = bitDepth /\
    (forall fuel, (fuel < Z.to_nat bitDepth)%nat ->
       EncodeInt_loop fuel latitude longitude bitDepth EncodeInt_init = Diverge) /\
    EncodeInt latitude longitude bitDepth = Ok (geohash v) /\
    0 <= geohash v <= 2 ^ bitDepth - 1.
Proof.
  intros Hd.
  destruct (EncodeInt_total latitude longitude bitDepth Hd) as (v & Hv & Hb & He & Hg).
  exists v. split; [exact Hv |]. split; [exact Hb |].
  split; [| split; [exact He | lia]].
  intros fuel Hf. destruct Hd as [Hr _].
  apply EncodeInt_loop_short; cbn [bitsTotal EncodeInt_init]; lia.
Qed.

Lemma encode_terminates_in_range_witness :
  exists v,
    EncodeInt_loop (Z.to_nat 52) (of_int 1000) S754_nan 52 EncodeInt_init
      = Ok v /\
    bitsTotal v = 52 /\
    (forall fuel, (fuel < Z.to_nat 52)%nat ->
       EncodeInt_loop fuel (of_int 1000) S754_nan 52 EncodeInt_init = Diverge) /\
    EncodeInt (of_int 1000) S754_nan 52 = Ok (geohash v) /\
    0 <= geohash v <= 2 ^ 52 - 1.
Proof.
  apply encode_terminates_in_range. split; [lia | reflexivity].
Defined.

(** *** Neighbours *)

Lemma NeighborInt_ok (geohash : Z) (b : bearing) (bitDepth : Z) :
  valid_depth bitDepth -> exists n, NeighborInt geohash b bitDepth = Ok n.
Proof.
  intros Hd. unfold NeighborInt.
  rewrite (validateBitDepth_ok bitDepth Hd). cbn [bind].
  destruct (DecodeInt_spec geohash bitDepth Hd) as (_ & p & _ & Hp & _).
  rewrite Hp. cbn [bind].
  destruct (EncodeInt_total
              (add (lat p) (mul (mul (of_int (x b)) (latErr p)) (of_int 2)))
              (add (lng p) (mul (mul (of_int (y b)) (lngErr p)) (of_int 2)))
              bitDepth Hd) as (v & _ & _ & He & _).
  eexists. exact He.
Qed.

Lemma NeighborsInt_ok (geohash bitDepth : Z) :
  valid_depth bitDepth ->
  exists n ne e se s sw w nw,
    NeighborInt geohash North bitDepth = Ok n /\
    NeighborInt geohash NorthEast bitDepth = Ok ne /\
    NeighborInt geohash East bitDepth = Ok e /\
    NeighborInt geohash SouthEast bitDepth = Ok se /\
    NeighborInt geohash South bitDepth = Ok s /\
    NeighborInt geohash SouthWest bitDepth = Ok sw /\
    NeighborInt geohash West bitDepth = Ok w /\
    NeighborInt geohash NorthWest bitDepth = Ok nw /\
    NeighborsInt geohash bitDepth = Ok [n; ne; e; se; s; sw; w; nw; geohash].
Proof.
  intros Hd.
  destruct (NeighborInt_ok geohash North bitDepth Hd) as [n Hn].
  destruct (NeighborInt_ok geohash NorthEast bitDepth Hd) as [ne Hne].
  destruct (NeighborInt_ok geohash East bitDepth Hd) as [e He].
  destruct (NeighborInt_ok geohash SouthEast bitDepth Hd) as [se Hse].
  destruct (NeighborInt_ok geohash South bitDepth Hd) as [s Hs].
  destruct (NeighborInt_ok geohash SouthWest bitDepth Hd) as [sw Hsw].
  destruct (NeighborInt_ok geohash West bitDepth Hd) as [w Hw].
  destruct (NeighborInt_ok geohash NorthWest bitDepth Hd) as [nw Hnw].
  exists n, ne, e, se, s, sw, w, nw.
  repeat (split; [assumption |]).
  unfold NeighborsInt. rewrite (validateBitDepth_ok bitDepth Hd).
  rewrite Hn, Hne, He, Hse, Hs, Hsw, Hw, Hnw. reflexivity.
Qed.

(** C5.  For every hash and valid bit depth, [NeighborsInt] returns nine
    values: the neighbours to the North, NorthEast, East, SouthEast, South,
    SouthWest, West and NorthWest, in that order, and then the hash
    itself. *)
Theorem neighbors_nine_in_order (geohash bitDepth : Z) :
  valid_depth bitDepth ->
  exists n ne e se s sw w nw,
    NeighborInt geohash North bitDepth = Ok n /\
    NeighborInt geohash NorthEast bitDepth = Ok ne /\
    NeighborInt geohash East bitDepth = Ok e /\
    NeighborInt geohash SouthEast bitDepth = Ok se /\
    NeighborInt geohash South bitDepth = Ok s /\
    NeighborInt geohash SouthWest bitDepth = Ok sw /\
    NeighborInt geohash West bitDepth = Ok w /\
    NeighborInt geohash NorthWest bitDepth = Ok nw /\
    NeighborsInt geohash bitDepth = Ok [n; ne; e; se; s; sw; w; nw; geohash] /\
    List.length [n; ne; e; se; s; sw; w; nw; geohash] = 9%nat /\
    nth_error [n; ne; e; se; s; sw; w; nw; geohash] 8 = Some geohash.
Proof.
  intros Hd.
  destruct (NeighborsInt_ok geohash bitDepth Hd)
    as (n & ne & e & se & s & sw & w & nw & H).
  exists n, ne, e, se, s, sw, w, nw.
  repeat (split; [apply H |]). split; reflexivity.
Qed.

Lemma neighbors_nine_in_order_witness :
  exists n ne e se s sw w nw,
    NeighborInt 1702789509 North 32 = Ok n /\
    NeighborInt 1702789509 NorthEast 32 = Ok ne /\
    NeighborInt 1702789509 East 32 = Ok e /\
    NeighborInt 1702789509 SouthEast 32 = Ok se /\
    NeighborInt 1702789509 South 32 = Ok s /\
    NeighborInt 1702789509 SouthWest 32 = Ok sw /\
    NeighborInt 1702789509 West 32 = Ok w /\
    NeighborInt 1702789509 NorthWest 32 = Ok nw /\
    NeighborsInt 1702789509 32 = Ok [n; ne; e; se; s; sw; w; nw; 1702789509] /\
    List.length [n; ne; e; se; s; sw; w; nw; 1702789509] = 9%nat /\
    nth_error [n; ne; e; se; s; sw; w; nw; 1702789509] 8 = Some 1702789509.
Proof.
  apply neighbors_nine_in_order. split; [lia | reflexivity].
Defined.

(** *** The validator in every operation *)

Lemma invalid_depth_iff (d : Z) : invalid_depth d <-> ~ valid_depth d.
Proof.
  unfold invalid_depth, valid_depth. rewrite <- Z.negb_even.
  destruct (Z.even d); cbn [negb]; intuition (try lia; try discriminate).
Qed.

Lemma round_short (val roundOn : float64) (places : Z) :
  short_mantissa (round val roundOn places).
Proof.
  unfold round. destruct (Modf (mul (pow10 places) val)) as [i f].
  apply div_short.
Qed.

(** *** The loops of the region enumerator end *)

Lemma BboxesInt_lng_ok (d : Z) (lngStep : float64) :
  valid_depth d -> to_int lngStep <> 2 ^ 63 - 1 ->
  forall (fuel : nat) (hsw lat lng : Z) (out : list Z),
    0 <= lng -> to_int lngStep + 1 - lng <= Z.of_nat fuel ->
    exists l, BboxesInt_lng fuel hsw d lngStep lat lng out = Ok l.
Proof.
  intros Hd Hmax. pose proof (to_int_range lngStep) as Hr.
  change (2 ^ 63) with 9223372036854775808 in *.
  induction fuel as [| fuel IH]; intros hsw lat lng out Hlng Hf;
    cbn [BboxesInt_lng]; destruct (Z.leb_spec lng (to_int lngStep)) as [Hle | Hgt];
    try (eexists; reflexivity); try lia.
  destruct (NeighborInt_ok hsw (mkBearing lat lng) d Hd) as [n Hn].
  rewrite Hn. cbn [bind].
  rewrite wrap64_small by int64_lia.
  apply IH; lia.
Qed.

Lemma BboxesInt_lat_ok (d : Z) (latStep lngStep : float64) :
  valid_depth d ->
  to_int latStep <> 2 ^ 63 - 1 -> to_int lngStep <> 2 ^ 63 - 1 ->
  forall (fuel : nat) (hsw lat : Z) (out : list Z),
    0 <= lat -> to_int latStep + 1 - lat <= Z.of_nat fuel ->
    exists l, BboxesInt_lat fuel hsw d latStep lngStep lat out = Ok l.
Proof.
  intros Hd Hmax Hmax'. pose proof (to_int_range latStep) as Hr.
  change (2 ^ 63) with 9223372036854775808 in *.
  induction fuel as [| fuel IH]; intros hsw lat out Hlat Hf;
    cbn [BboxesInt_lat]; destruct (Z.leb_spec lat (to_int latStep)) as [Hle | Hgt];
    try (eexists; reflexivity); try lia.
  destruct (BboxesInt_lng_ok d lngStep Hd Hmax' (Z.to_nat (to_int lngStep + 1))
              hsw lat 0 out ltac:(lia) ltac:(lia)) as [l Hl].
  rewrite Hl. cbn [bind].
  rewrite wrap64_small by int64_lia.
  apply IH; lia.
Qed.

(** [BboxesInt] returns, for every rectangle. *)
Lemma BboxesInt_ok (lat0 lon0 lat1 lon1 : float64) (d : Z) :
  valid_depth d -> exists l, BboxesInt lat0 lon0 lat1 lon1 d = Ok l.
Proof.
  intros Hd. unfold BboxesInt.
  rewrite (validateBitDepth_ok d Hd). cbn [bind].
  destruct (EncodeInt_total lat0 lon0 d Hd) as (v0 & _ & _ & E0 & _).
  destruct (EncodeInt_total lat1 lon1 d Hd) as (v1 & _ & _ & E1 & _).
  rewrite E0, E1. cbn [bind].
  destruct (DecodeInt_spec (geohash v0) d Hd) as (b0 & p0 & B0 & P0 & _).
  destruct (DecodeInt_spec (geohash v1) d Hd) as (b1 & p1 & B1 & _).
  rewrite P0, B0, B1. cbn [bind].
  apply BboxesInt_lat_ok; try assumption; try lia;
    apply to_int_not_max, round_short.
Qed.

Lemma Shift_ok (value d : Z) :
  valid_depth d -> Shift value d = Ok (wrap64 (Z.shiftl value (52 - d))).
Proof.
  intros Hd. unfold Shift. rewrite (validateBitDepth_ok d Hd). cbn [bind].
  destruct Hd as [Hr _]. unfold MaxBitDepth.
  rewrite (wrap64_small (52 - d)) by int64_lia.
  rewrite Z.mod_small by (change (2 ^ 64) with 18446744073709551616; lia).
  reflexivity.
Qed.

(** C2.  Each of [EncodeInt], [DecodeInt], [DecodeBboxInt], [NeighborInt],
    [NeighborsInt], [BboxesInt] and [Shift] panics if and only if the bit
    depth is [<= 0], [> 52] or odd; the panic is the validator's own,
    whatever the other arguments; and on every even depth in [[2, 52]]
    each of them returns. *)
Theorem invalid_bit_depth_signalled (bitDepth : Z)
  (latitude longitude : float64) (hash value : Z) (b : bearing)
  (lat0 lon0 lat1 lon1 : float64) :
  (is_panic (EncodeInt latitude longitude bitDepth) = true
   <-> invalid_depth bitDepth) /\
  (is_panic (DecodeInt hash bitDepth) = true <-> invalid_depth bitDepth) /\
  (is_panic (DecodeBboxInt hash bitDepth) = true <-> invalid_depth bitDepth) /\
  (is_panic (NeighborInt hash b bitDepth) = true <-> invalid_depth bitDepth) /\
  (is_panic (NeighborsInt hash bitDepth) = true <-> invalid_depth bitDepth) /\
  (is_panic (BboxesInt lat0 lon0 lat1 lon1 bitDepth) = true
   <-> invalid_depth bitDepth) /\
  (is_panic (Shift value bitDepth) = true <-> invalid_depth bitDepth) /\
  (invalid_depth bitDepth ->
   exists msg,
     validateBitDepth bitDepth = Panic msg /\
     EncodeInt latitude longitude bitDepth = Panic msg /\
     DecodeInt hash bitDepth = Panic msg /\
     DecodeBboxInt hash bitDepth = Panic msg /\
     NeighborInt hash b bitDepth = Panic msg /\
     NeighborsInt hash bitDepth = Panic msg /\
     BboxesInt lat0 lon0 lat1 lon1 bitDepth = Panic msg /\
     Shift value bitDepth = Panic msg) /\
  (0 < bitDepth <= 52 /\ Z.even bitDepth = true ->
   validateBitDepth bitDepth = Ok tt /\
   (exists h, EncodeInt latitude longitude bitDepth = Ok h) /\
   (exists p, DecodeInt hash bitDepth = Ok p) /\
   (exists bb, DecodeBboxInt hash bitDepth = Ok bb) /\
   (exists n, NeighborInt hash b bitDepth = Ok n) /\
   (exists l, NeighborsInt hash bitDepth = Ok l) /\
   (exists l, BboxesInt lat0 lon0 lat1 lon1 bitDepth = Ok l) /\
   (exists s, Shift value bitDepth = Ok s)).
Proof.
  assert (Hbad : invalid_depth bitDepth ->
    exists msg,
      validateBitDepth bitDepth = Panic msg /\
      EncodeInt latitude longitude bitDepth = Panic msg /\
      DecodeInt hash bitDepth = Panic msg /\
      DecodeBboxInt hash bitDepth = Panic msg /\
      NeighborInt hash b bitDepth = Panic msg /\
      NeighborsInt hash bitDepth = Panic msg /\
      BboxesInt lat0 lon0 lat1 lon1 bitDepth = Panic msg /\
      Shift value bitDepth = Panic msg).
  { intros Hi. apply invalid_depth_iff in Hi.
    destruct (validateBitDepth_panic bitDepth Hi) as [msg Hmsg].
    exists msg. unfold EncodeInt, DecodeInt, DecodeBboxInt, NeighborInt,
      NeighborsInt, BboxesInt, Shift. rewrite Hmsg. cbn [bind]. auto 10. }
  assert (Hgood : valid_depth bitDepth ->
    validateBitDepth bitDepth = Ok tt /\
    (exists h, EncodeInt latitude longitude bitDepth = Ok h) /\
    (exists p, DecodeInt hash bitDepth = Ok p) /\
    (exists bb, DecodeBboxInt hash bitDepth = Ok bb) /\
    (exists n, NeighborInt hash b bitDepth = Ok n) /\
    (exists l, NeighborsInt hash bitDepth = Ok l) /\
    (exists l, BboxesInt lat0 lon0 lat1 lon1 bitDepth = Ok l) /\
    (exists s, Shift value bitDepth = Ok s)).
  { intros Hd.
    destruct (EncodeInt_total latitude longitude bitDepth Hd) as (v & _ & _ & He & _).
    destruct (DecodeInt_spec hash bitDepth Hd) as (bb & p & Hb & Hp & _).
    destruct (NeighborsInt_ok hash bitDepth Hd)
      as (? & ? & ? & ? & ? & ? & ? & ? & _ & _ & _ & _ & _ & _ & _ & _ & Hl).
    split; [exact (validateBitDepth_ok bitDepth Hd) |].
    split; [eexists; exact He |]. split; [eexists; exact Hp |].
    split; [eexists; exact Hb |]. split; [exact (NeighborInt_ok hash b bitDepth Hd) |].
    split; [eexists; exact Hl |].
    split; [exact (BboxesInt_ok lat0 lon0 lat1 lon1 bitDepth Hd) |].
    eexists; exact (Shift_ok value bitDepth Hd). }
  assert (Hiff : forall (A : Type) (r : result A),
             (invalid_depth bitDepth -> exists msg, r = Panic msg) ->
             (valid_depth bitDepth -> is_panic r = false) ->
             (is_panic r = true <-> invalid_depth bitDepth)).
  { intros A r Hp Hn. split.
    - intros Hr. apply invalid_depth_iff. intros Hd. rewrite (Hn Hd) in Hr. discriminate.
    - intros Hi. destruct (Hp Hi) as [msg ->]. reflexivity. }
  assert (Hop : forall (A : Type) (r : result A),
             (forall msg, validateBitDepth bitDepth = Panic msg -> r = Panic msg) ->
             (valid_depth bitDepth -> is_panic r = false) ->
             (is_panic r = true <-> invalid_depth bitDepth)).
  { intros A r Hp Hn. apply Hiff; [| exact Hn].
    intros Hi. apply invalid_depth_iff in Hi.
    destruct (validateBitDepth_panic bitDepth Hi) as [msg Hmsg].
    exists msg. now apply Hp. }
  split; [apply Hop; [intros msg Hm; unfold EncodeInt; now rewrite Hm
                     | intros Hd; destruct (Hgood Hd) as (_ & [? E] & _); now rewrite E] |].
  split; [apply Hop; [intros msg Hm; unfold DecodeInt; now rewrite Hm
                     | intros Hd; destruct (Hgood Hd) as (_ & _ & [? E] & _); now rewrite E] |].
  split; [apply Hop; [intros msg Hm; unfold DecodeBboxInt; now rewrite Hm
                     | intros Hd; destruct (Hgood Hd) as (_ & _ & _ & [? E] & _); now rewrite E] |].
  split; [apply Hop; [intros msg Hm; unfold NeighborInt; now rewrite Hm
                     | intros Hd; destruct (Hgood Hd) as (_ & _ & _ & _ & [? E] & _); now rewrite E] |].
  split; [apply Hop; [intros msg Hm; unfold NeighborsInt; now rewrite Hm
                     | intros Hd; destruct (Hgood Hd) as (_ & _ & _ & _ & _ & [? E] & _); now rewrite E] |].
  split; [apply Hop; [intros msg Hm; unfold BboxesInt; now rewrite Hm
                     | intros Hd; destruct (Hgood Hd) as (_ & _ & _ & _ & _ & _ & [? E] & _); now rewrite E] |].
  split; [apply Hop; [intros msg Hm; unfold Shift; now rewrite Hm
                     | intros Hd; destruct (Hgood Hd) as (_ & _ & _ & _ & _ & _ & _ & [? E]); now rewrite E] |].
  split; [exact Hbad | exact Hgood].
Qed.

(** *** The precision table *)

Lemma FindBitDepth_range_none (entries : list (Z * float64)) (distance : float64) :
  (forall kv, In kv entries -> gtb (snd kv) distance = false) ->
  FindBitDepth_range entries distance = 0.
Proof.
  induction entries as [| [key value] rest IH]; intros Hno; [reflexivity |].
  cbn [FindBitDepth_range].
  pose proof (Hno (key, value) (or_introl eq_refl)) as Hkv. cbn [snd] in Hkv.
  rewrite Hkv. apply IH. intros kv Hin. apply Hno. now right.
Qed.

(** When no radius of the table exceeds the distance, every order of the
    range ends in the sentinel. *)
Lemma FindBitDepth_no_entry (order : list (Z * float64)) (distance : float64) :
  range_order order ->
  (forall kv, In kv bitsToDistanceInMeters -> gtb (snd kv) distance = false) ->
  FindBitDepth order distance = 0.
Proof.
  intros Hperm Hno. apply FindBitDepth_range_none.
  intros kv Hin. apply Hno. eapply Permutation_in; eassumption.
Qed.

Lemma table_radii : forallb radius_ok bitsToDistanceInMeters = true.
Proof. vm_compute. reflexivity. Qed.

Lemma gtb_below (value distance : float64) (bound : Z) :
  valid value = true -> is_finite value = true ->
  val value <= bound * 2 ^ 1074 -> Z.abs bound < 2 ^ 53 ->
  valid distance = true -> leb (of_int bound) distance = true ->
  gtb value distance = false.
Proof.
  intros Vv Fv Hv Hb Vd Hd.
  pose proof (of_int_exact bound Hb) as Hbound.
  destruct distance as [s | s | | s m e].
  - rewrite (gtb_val _ _ _ _ (represents_self _ Vv Fv) (represents_self _ Vd eq_refl)).
    rewrite (leb_val _ _ _ _ Hbound (represents_self _ Vd eq_refl)) in Hd.
    apply Z.leb_le in Hd. apply Z.ltb_ge. lia.
  - destruct s.
    + destruct Hbound as (_ & Fb & _).
      destruct (of_int bound) as [? | [] | | [] ? ?]; discriminate.
    + destruct value as [? | ? | | [] ? ?]; try discriminate Fv; reflexivity.
  - destruct (of_int bound) as [? | [] | | [] ? ?]; discriminate.
  - rewrite (gtb_val _ _ _ _ (represents_self _ Vv Fv) (represents_self _ Vd eq_refl)).
    rewrite (leb_val _ _ _ _ Hbound (represents_self _ Vd eq_refl)) in Hd.
    apply Z.leb_le in Hd. apply Z.ltb_ge. lia.
Qed.

(** From the largest radius of the table on, the answer is [0]. *)
Lemma FindBitDepth_far (order : list (Z * float64)) (distanceMeters : float64) :
  range_order order -> valid distanceMeters = true ->
  leb (of_int 10018863) distanceMeters = true ->
  FindBitDepth order distanceMeters = 0.
Proof.
  intros Hperm Vd Hd. apply FindBitDepth_no_entry; [exact Hperm |].
  intros kv Hin. pose proof table_radii as Hall.
  rewrite forallb_forall in Hall. specialize (Hall kv Hin).
  unfold radius_ok in Hall.
  apply andb_prop in Hall as [Hall Hle]. apply andb_prop in Hall as [Vv Fv].
  apply Z.leb_le in Hle.
  apply (gtb_below _ _ 10018863); try assumption. vm_compute; reflexivity.
Qed.

(** C8.  [FindBitDepth] is to answer [0] only when no radius of the table
    exceeds the distance.  The entry of key 52 answers [MaxBitDepth - 52],
    the sentinel itself: at half a metre every radius of the table exceeds
    the distance, and a range that meets key 52 first answers [0] all the
    same. *)
Theorem FindBitDepth_sentinel_collision :
  range_order bitsToDistanceInMeters /\
  forallb (fun kv => gtb (snd kv) (of_dec 5 1)) bitsToDistanceInMeters = true /\
  FindBitDepth bitsToDistanceInMeters (of_dec 5 1) = 0.
Proof.
  split; [apply Permutation_refl |]. split; vm_compute; reflexivity.
Qed.

(** The sibling revision answers [0] only when it found nothing. *)
Lemma RadiusSlice_range_zero (values : list float64) (key : Z) (distance : float64) :
  0 <= key -> key + Z.of_nat (List.length values) <= 25 ->
  (RadiusSlice.FindBitDepth_range key values distance = 0
   <-> forall value, In value values -> gtb value distance = false).
Proof.
  revert key. induction values as [| value rest IH]; intros key Hk Hlen.
  - cbn. split; [intros _ v [] | reflexivity].
  - cbn [RadiusSlice.FindBitDepth_range List.length] in *.
    destruct (gtb value distance) eqn:Hg.
    + split.
      * unfold MaxBitDepth.
        rewrite (wrap64_small (key * 2)) by int64_lia.
        rewrite wrap64_small by int64_lia.
        lia.
      * intros Hno. rewrite (Hno value (or_introl eq_refl)) in Hg. discriminate.
    + rewrite IH by lia. split.
      * intros Hno v [<- | Hin]; [exact Hg | now apply Hno].
      * intros Hno v Hin. apply Hno. now right.
Qed.

Lemma RadiusSlice_FindBitDepth_zero (distance : float64) :
  RadiusSlice.FindBitDepth distance = 0
  <-> forall value, In value RadiusSlice.bitsToRadiusMap ->
                    gtb value distance = false.
Proof.
  unfold RadiusSlice.FindBitDepth. apply RadiusSlice_range_zero; [lia |].
  cbn. lia.
Qed.

(** * More facts about binary64 and the package *)

(** *** The cell of a point *)

Lemma in_cell_bisect (H t a x : Z) :
  0 <= t <= 1073 -> 0 <= a < 2 ^ t -> in_cell H t a x ->
  in_cell H (t + 1)
    (2 * a + (if grid H (t + 1) (2 * a + 1) <? x then 1 else 0)) x.
Proof.
  intros Ht Ha [Hlo Hhi].
  assert (P : 2 ^ (t + 1) = 2 * 2 ^ t)
    by (rewrite Z.pow_add_r by lia; change (2 ^ 1) with 2; lia).
  rewrite (grid_refine H t a) in Hlo by lia.
  rewrite (grid_refine H t (a + 1)) in Hhi by lia.
  replace (2 * (a + 1)) with (2 * a + 1 + 1) in Hhi by lia.
  unfold in_cell. rewrite P.
  destruct (Z.ltb_spec (grid H (t + 1) (2 * a + 1)) x) as [Hlt | Hge].
  - split; [right; exact Hlt |]. destruct Hhi as [-> | Hhi]; [left; lia | right; exact Hhi].
  - rewrite Z.add_0_r. split; [| right; exact Hge].
    destruct Hlo as [-> | Hlo]; [left; lia | right; exact Hlo].
Qed.

Lemma in_cell_unique (H s a a' x : Z) :
  0 < H -> 0 <= s <= 1074 -> 0 <= a < 2 ^ s -> 0 <= a' < 2 ^ s ->
  in_cell H s a x -> in_cell H s a' x -> a = a'.
Proof.
  intros HH Hs Ha Ha' [Lo Hi] [Lo' Hi'].
  destruct (Z.lt_trichotomy a a') as [Hlt | [Heq | Hgt]]; [exfalso | exact Heq | exfalso].
  - destruct Hi as [-> | Hi]; [lia |]. destruct Lo' as [-> | Lo']; [lia |].
    assert (grid H s (a + 1) <= grid H s a') by (apply grid_le; lia). lia.
  - destruct Hi' as [-> | Hi']; [lia |]. destruct Lo as [-> | Lo]; [lia |].
    assert (grid H s (a' + 1) <= grid H s a) by (apply grid_le; lia). lia.
Qed.

(** Where [in_cell] puts a value: inside, below or above the grid. *)
Lemma in_cell_clamp (H s a x : Z) :
  0 < H -> 0 <= s <= 1074 ->
  grid H s a < x <= grid H s (a + 1) ->
  in_cell H s (clamp s a) x.
Proof.
  intros HH Hs [Lo Hi]. pose proof (pow2_pos s ltac:(lia)) as Ps.
  unfold in_cell, clamp.
  destruct (Z_lt_le_dec a 0) as [Hneg | Hnn].
  - replace (Z.max 0 (Z.min (2 ^ s - 1) a)) with 0 by lia.
    split; [left; reflexivity |]. right.
    assert (grid H s (a + 1) <= grid H s (0 + 1)) by (apply grid_le; lia). lia.
  - destruct (Z_lt_le_dec a (2 ^ s)) as [Hin | Hout].
    + replace (Z.max 0 (Z.min (2 ^ s - 1) a)) with a by lia. auto.
    + replace (Z.max 0 (Z.min (2 ^ s - 1) a)) with (2 ^ s - 1) by lia.
      split; [right | left; reflexivity].
      assert (grid H s (2 ^ s - 1) <= grid H s a) by (apply grid_le; lia). lia.
Qed.

Lemma clamp_range (s a : Z) : 0 <= s -> 0 <= clamp s a < 2 ^ s.
Proof. intros Hs. pose proof (pow2_pos s Hs). unfold clamp. lia. Qed.

Lemma rowOf_range (h s : Z) : 0 <= s -> 0 <= rowOf h s < 2 ^ s.
Proof.
  intros Hs. pose proof (latIndex_range (bitOf h) s (Z.to_nat s)) as R.
  rewrite Z2Nat.id in R by lia. exact R.
Qed.

Lemma colOf_range (h s : Z) : 0 <= s -> 0 <= colOf h s < 2 ^ s.
Proof.
  intros Hs. pose proof (lngIndex_range (bitOf h) s (Z.to_nat s)) as R.
  rewrite Z2Nat.id in R by lia. exact R.
Qed.

Lemma encode_cell_inv_step (latitude longitude : float64) (la ln t : Z)
  (v : EncodeVars) :
  represents latitude la -> represents longitude ln ->
  0 <= t < 26 -> encode_cell_inv la ln t v ->
  encode_cell_inv la ln (t + 1)
    (EncodeInt_body latitude longitude (EncodeInt_body latitude longitude v)).
Proof.
  intros Hla Hln Ht (Hbt & Hg & Clat & Clng & Xlat & Xlng).
  pose proof (rowOf_range (geohash v) t ltac:(lia)) as Rlat.
  pose proof (colOf_range (geohash v) t ltac:(lia)) as Rlng.
  assert (H4 : 4 ^ t <= 4 ^ 25) by (apply Z.pow_le_mono_r; lia).
  change (4 ^ 25) with 1125899906842624 in H4.
  destruct (EncodeInt_body_pair latitude longitude la ln t _ _ v Hla Hln Hbt Ht
              Clat Rlat Clng Rlng
              ltac:(change (2 ^ 60) with 1152921504606846976; lia))
    as (Hbt' & Clat' & Clng' & Hg').
  pose proof (in_cell_bisect 90 t _ la ltac:(lia) Rlat Xlat) as Xlat'.
  pose proof (in_cell_bisect 180 t _ ln ltac:(lia) Rlng Xlng) as Xlng'.
  set (v' := EncodeInt_body latitude longitude (EncodeInt_body latitude longitude v)) in *.
  set (blng := if grid 180 (t + 1) (2 * colOf (geohash v) t + 1) <? ln then 1 else 0) in *.
  set (blat := if grid 90 (t + 1) (2 * rowOf (geohash v) t + 1) <? la then 1 else 0) in *.
  assert (Hblng : 0 <= blng <= 1) by (unfold blng; apply choice_range).
  assert (Hblat : 0 <= blat <= 1) by (unfold blat; apply choice_range).
  destruct (index_extend (geohash v) blng blat t ltac:(lia) Hblng Hblat) as [Ilat Ilng].
  unfold encode_cell_inv, rowOf, colOf in *. rewrite Hg', Ilat, Ilng.
  split; [exact Hbt' |].
  split; [rewrite Z.pow_add_r by lia; change (4 ^ 1) with 4; lia |].
  auto.
Qed.

(** The encoder on any finite point: the hash it returns spells the cell
    the point falls into. *)
Lemma EncodeInt_cell (latitude longitude : float64) (d la ln : Z) :
  valid_depth d ->
  represents latitude la -> represents longitude ln ->
  exists g,
    EncodeInt latitude longitude d = Ok g /\ 0 <= g < 2 ^ d /\
    in_cell 90 (Z.quot d 2) (rowOf g (Z.quot d 2)) la /\
    in_cell 180 (Z.quot d 2) (colOf g (Z.quot d 2)) ln.
Proof.
  intros Hd Hla Hln.
  destruct (valid_depth_steps d Hd) as [Hs Hds].
  set (s := Z.quot d 2) in *.
  destruct (EncodeInt_loop_pairs latitude longitude s (encode_cell_inv la ln)
              ltac:(lia)
              (fun t v Ht HI => encode_cell_inv_step latitude longitude la ln t v
                                  Hla Hln ltac:(lia) HI)
              (fun t v HI => proj1 HI)
              (Z.to_nat s) 0 EncodeInt_init ltac:(lia) ltac:(lia))
    as (v & Hv & Hbt & Hg & _ & _ & Xlat & Xlng).
  { unfold encode_cell_inv, rowOf, colOf, in_cell.
    cbn [bitsTotal geohash minLat maxLat minLng maxLng EncodeInt_init
         Z.to_nat latIndex lngIndex].
    split; [reflexivity |]. split; [simpl; lia |].
    split; [exact cell_init_lat |]. split; [exact cell_init_lng |].
    split; split; left; reflexivity. }
  exists (geohash v).
  rewrite <- to_nat_double, <- Hds in Hv by lia.
  split.
  - unfold EncodeInt. rewrite (validateBitDepth_ok d Hd). cbn [bind].
    rewrite Hv. reflexivity.
  - rewrite pow4 in Hg by lia. rewrite <- Hds in Hg. auto.
Qed.

(** *** Exact products *)

Lemma digits_lower (m : positive) (k : Z) :
  2 ^ k <= Zpos m -> k < Zpos (digits2_pos m).
Proof.
  intros Hk. pose proof (digits2_pos_bounds m) as [_ Hhi].
  apply pow2_lt_inv; lia.
Qed.

(** A valid float of magnitude at least [2^52] units is normal. *)
Lemma normal_mantissa (s : bool) (m : positive) (e : Z) :
  valid (S754_finite s m e) = true -> 2 ^ 52 <= mag m e ->
  2 ^ 52 <= Zpos m.
Proof.
  intros V Hm. destruct (valid_finite_emin _ _ _ V) as [Le _].
  destruct (valid_finite_digits _ _ _ V) as [_ Hd].
  destruct (Z.eq_dec e emin) as [-> | Hne].
  - unfold mag in Hm. rewrite Z.sub_diag, Z.pow_0_r in Hm. lia.
  - specialize (Hd ltac:(lia)). pose proof (digits2_pos_bounds m) as [Hlo _].
    rewrite Hd in Hlo. exact Hlo.
Qed.

Lemma val_mag (s : bool) (m : positive) (e : Z) :
  val (S754_finite s m e) = cond_Zopp s (mag m e).
Proof. reflexivity. Qed.

Lemma abs_cond_Zopp (s : bool) (z : Z) : Z.abs (cond_Zopp s z) = Z.abs z.
Proof. destruct s; cbn [cond_Zopp]; [apply Z.abs_opp | reflexivity]. Qed.

Lemma cond_Zopp_mul (s1 s2 : bool) (a b : Z) :
  cond_Zopp s1 a * cond_Zopp s2 b = cond_Zopp (xorb s1 s2) (a * b).
Proof. destruct s1, s2; cbn [cond_Zopp xorb]; ring. Qed.

(** The product of two normal floats is exact when binary64 holds it and
    it stays clear of the subnormals. *)
Lemma mul_exact (x y : float64) (a b c : Z) :
  represents x a -> represents y b ->
  2 ^ 52 <= Z.abs a -> 2 ^ 52 <= Z.abs b ->
  a * b = c * 2 ^ 1074 -> exact c -> 2 ^ 105 <= Z.abs c ->
  represents (mul x y) c.
Proof.
  intros (Vx & Fx & Hx) (Vy & Fy & Hy) Na Nb Hc Hex Hbig.
  destruct x as [sx | sx | | sx mx ex]; try discriminate Fx;
    [cbn in Hx; subst a; cbn in Na; lia |].
  destruct y as [sy | sy | | sy my ey]; try discriminate Fy;
    [cbn in Hy; subst b; cbn in Nb; lia |].
  rewrite val_mag in Hx, Hy. subst a b. rewrite abs_cond_Zopp in Na, Nb.
  destruct (valid_finite_emin _ _ _ Vx) as [Lx Ux].
  destruct (valid_finite_emin _ _ _ Vy) as [Ly Uy].
  pose proof (mag_pos mx ex Lx) as Px. pose proof (mag_pos my ey Ly) as Py.
  rewrite Z.abs_eq in Na, Nb by lia.
  pose proof (normal_mantissa _ _ _ Vx Na) as Mx.
  pose proof (normal_mantissa _ _ _ Vy Nb) as My.
  pose proof (digits2_pos_bounds mx) as [_ Bx].
  pose proof (digits2_pos_bounds my) as [_ By].
  destruct (valid_finite_digits _ _ _ Vx) as [Dx _].
  destruct (valid_finite_digits _ _ _ Vy) as [Dy _].
  assert (Bx' : Zpos mx < 2 ^ 53)
    by (apply Z.lt_le_trans with (1 := Bx); apply Z.pow_le_mono_r; lia).
  assert (By' : Zpos my < 2 ^ 53)
    by (apply Z.lt_le_trans with (1 := By); apply Z.pow_le_mono_r; lia).
  unfold emin in *.
  (* the exponent of the product is not below [emin] *)
  rewrite cond_Zopp_mul in Hc. unfold mag, emin in Hc.
  assert (Hprod : Zpos mx * 2 ^ (ex - -1074) * (Zpos my * 2 ^ (ey - -1074))
                  = Zpos (mx * my) * 2 ^ (ex + ey + 2148)).
  { replace (ex + ey + 2148) with ((ex - -1074) + (ey - -1074)) by lia.
    rewrite Z.pow_add_r, Pos2Z.inj_mul by lia. ring. }
  rewrite Hprod in Hc.
  assert (Habs : Z.abs c * 2 ^ 1074 = Zpos (mx * my) * 2 ^ (ex + ey + 2148)).
  { pose proof (pow2_pos (ex + ey + 2148) ltac:(lia)) as P.
    pose proof (pow2_pos 1074 ltac:(lia)) as P'.
    destruct (xorb sx sy); cbn [cond_Zopp] in Hc; nia. }
  assert (HE : -1074 <= ex + ey).
  { assert (2 ^ (105 + 1074) < 2 ^ (106 + (ex + ey + 2148))).
    { rewrite !Z.pow_add_r by lia.
      apply Z.le_lt_trans with (Z.abs c * 2 ^ 1074).
      - apply Z.mul_le_mono_nonneg_r; [apply Z.pow_nonneg |]; lia.
      - rewrite Habs. rewrite Pos2Z.inj_mul.
        apply Z.mul_lt_mono_pos_r; [apply pow2_pos; lia |].
        change (2 ^ 106) with (2 ^ 53 * 2 ^ 53).
        apply Z.mul_lt_mono_nonneg; lia. }
    apply pow2_lt_inv in H; lia. }
  assert (Hcv : Z.abs c = Zpos (mx * my) * 2 ^ (ex + ey - -1074)).
  { replace (ex + ey + 2148) with (ex + ey - -1074 + 1074) in Habs by lia.
    rewrite Z.pow_add_r, Z.mul_assoc in Habs by lia.
    apply Z.mul_cancel_r in Habs; [exact Habs |].
    apply Z.neq_sym, Z.lt_neq, pow2_pos; lia. }
  assert (Hcs : c = cond_Zopp (xorb sx sy) (Zpos (mx * my) * 2 ^ (ex + ey - -1074))).
  { replace (ex + ey + 2148) with (ex + ey - -1074 + 1074) in Hc by lia.
    rewrite Z.pow_add_r, Z.mul_assoc in Hc by lia.
    pose proof (pow2_pos 1074 ltac:(lia)) as P'.
    destruct (xorb sx sy); cbn [cond_Zopp] in *; nia. }
  assert (Hex' : exact (Zpos (mx * my) * 2 ^ (ex + ey - -1074))).
  { rewrite <- Hcv. destruct (Z.abs_spec c) as [[_ ->] | [_ ->]];
      [exact Hex | now apply exact_opp]. }
  destruct (exact_shape (mx * my) (ex + ey - -1074) ltac:(lia) Hex') as [Hsz Hdiv].
  assert (HD : 104 < Zpos (digits2_pos (mx * my))).
  { apply digits_lower. rewrite Pos2Z.inj_mul.
    change (2 ^ 104) with (2 ^ 52 * 2 ^ 52). apply Z.mul_le_mono_nonneg; lia. }
  destruct (Hdiv ltac:(lia)) as [K HK].
  set (D := Zpos (digits2_pos (mx * my))) in *.
  assert (Hn : exists n : positive, Zpos n = D - 53)
    by (exists (Z.to_pos (D - 53)); rewrite Z2Pos.id; lia).
  destruct Hn as [n Hn].
  unfold mul, SFmul.
  rewrite (binary_round_aux_shr (xorb sx sy) (mx * my) K (ex + ey) n).
  - assert (HdK : D = Zpos (digits2_pos K) + (D - 53))
      by (apply digits_mul_pow2; [lia | exact HK]).
    split; [| split; [reflexivity |]].
    + apply valid_finite_intro; [rewrite fexp_eq |]; lia.
    + rewrite Hcs. unfold val, emin. f_equal. rewrite HK, Hn.
      rewrite (pow2_split (ex + ey + (D - 53) - -1074) (ex + ey - -1074)) by lia.
      replace (ex + ey + (D - 53) - -1074 - (ex + ey - -1074)) with (D - 53) by lia.
      ring.
  - fold D. rewrite fexp_eq. lia.
  - rewrite Hn. exact HK.
  - lia.
Qed.

(** A zero factor gives zero. *)
Lemma mul_zero_l (x y : float64) :
  represents x 0 -> is_finite y = true -> represents (mul x y) 0.
Proof.
  intros (Vx & Fx & Hx) Fy.
  destruct x as [sx | sx | | sx mx ex]; try discriminate Fx.
  - destruct y as [sy | sy | | sy my ey]; try discriminate Fy; repeat split.
  - exfalso. destruct (valid_finite_emin _ _ _ Vx) as [Lx _].
    pose proof (mag_pos mx ex Lx). rewrite val_mag in Hx.
    destruct sx; cbn [cond_Zopp] in Hx; lia.
Qed.

(** *** Hashes and cells *)

(** The decoder on a hash below [2^53], by row and column. *)
Lemma DecodeInt_cells (h d : Z) :
  valid_depth d -> 0 <= h < 2 ^ 53 ->
  let s := Z.quot d 2 in
  exists b p,
    DecodeBboxInt h d = Ok b /\ DecodeInt h d = Ok p /\
    cell 90 s (rowOf h s) (bMinLat b) (bMaxLat b) /\
    cell 180 s (colOf h s) (bMinLng b) (bMaxLng b) /\
    represents (lat p) (grid 90 (s + 1) (2 * rowOf h s + 1)) /\
    represents (lng p) (grid 180 (s + 1) (2 * colOf h s + 1)) /\
    represents (latErr p) (90 * 2 ^ (1074 - s)) /\
    represents (lngErr p) (180 * 2 ^ (1074 - s)).
Proof.
  intros Hd Hh s. destruct (valid_depth_steps d Hd) as [Hs _]. fold s in Hs.
  destruct (DecodeInt_spec h d Hd) as (b & p & H). fold s in H.
  destruct (index_getBit h s Hh ltac:(lia)) as [Ilat Ilng].
  rewrite Ilat, Ilng in H. exists b, p. exact H.
Qed.

(** Encoding the centre of the cell of a hash gives the hash, whichever
    floats hold the centre. *)
Lemma EncodeInt_centre (latitude longitude : float64) (h d : Z) :
  valid_depth d -> 0 <= h < 2 ^ d ->
  represents latitude (grid 90 (Z.quot d 2 + 1) (2 * rowOf h (Z.quot d 2) + 1)) ->
  represents longitude (grid 180 (Z.quot d 2 + 1) (2 * colOf h (Z.quot d 2) + 1)) ->
  EncodeInt latitude longitude d = Ok h.
Proof.
  intros Hd Hh Plat Plng.
  destruct (valid_depth_steps d Hd) as [Hs Hds].
  set (s := Z.quot d 2) in *.
  assert (Hh53 : 0 <= h < 2 ^ 53).
  { split; [lia |]. apply Z.lt_le_trans with (2 ^ d); [lia |].
    apply Z.pow_le_mono_r; lia. }
  destruct (index_getBit h s Hh53 ltac:(lia)) as [Ilat Ilng].
  unfold rowOf, colOf in Plat, Plng. rewrite <- Ilat in Plat. rewrite <- Ilng in Plng.
  destruct (EncodeInt_loop_pairs latitude longitude s (reencode_inv h s)
              ltac:(lia)
              (fun t v Ht HI => reencode_inv_step latitude longitude h s t v Hh53
                                  ltac:(lia) ltac:(lia) Plat Plng HI)
              (fun t v HI => proj1 HI)
              (Z.to_nat s) 0 EncodeInt_init ltac:(lia) ltac:(lia))
    as (v & Hv & Hbt & Hg & _ & _).
  { unfold reencode_inv.
    cbn [bitsTotal geohash minLat maxLat minLng maxLng EncodeInt_init
         Z.to_nat latIndex lngIndex].
    split; [reflexivity |]. split; [| split; [exact cell_init_lat | exact cell_init_lng]].
    rewrite Z.sub_0_r, pow4, <- Hds by lia.
    symmetry. apply Z.div_small. exact Hh. }
  rewrite <- to_nat_double, <- Hds in Hv by lia.
  unfold EncodeInt. rewrite (validateBitDepth_ok d Hd). cbn [bind].
  rewrite Hv. cbn [bind]. rewrite Hg, Z.sub_diag. simpl. now rewrite Z.div_1_r.
Qed.

(** A hash is its row and its column. *)
Lemma hash_of_cell (g h d : Z) :
  valid_depth d -> 0 <= g < 2 ^ d -> 0 <= h < 2 ^ d ->
  rowOf g (Z.quot d 2) = rowOf h (Z.quot d 2) ->
  colOf g (Z.quot d 2) = colOf h (Z.quot d 2) ->
  g = h.
Proof.
  intros Hd Hg Hh Hr Hc.
  assert (Hh53 : 0 <= h < 2 ^ 53).
  { split; [lia |]. apply Z.lt_le_trans with (2 ^ d); [lia |].
    apply Z.pow_le_mono_r; destruct Hd; lia. }
  destruct (DecodeInt_cells h d Hd Hh53) as (b & p & _ & _ & _ & _ & Plat & Plng & _).
  pose proof (EncodeInt_centre (lat p) (lng p) h d Hd Hh Plat Plng) as E1.
  rewrite <- Hr in Plat. rewrite <- Hc in Plng.
  pose proof (EncodeInt_centre (lat p) (lng p) g d Hd Hg Plat Plng) as E2.
  congruence.
Qed.

(** The centre of a cell falls into it. *)
Lemma centre_in_cell (H s a : Z) :
  0 < H -> 0 <= s <= 1073 ->
  grid H s a < grid H (s + 1) (2 * a + 1) <= grid H s (a + 1).
Proof.
  intros HH Hs. destruct (half_cell H s a Hs) as [E1 E2].
  assert (0 < H * 2 ^ (1074 - s))
    by (apply Z.mul_pos_pos; [lia | apply pow2_pos; lia]).
  lia.
Qed.

(** *** Neighbours *)

Lemma grid_shift (H s a x : Z) :
  0 <= s <= 1073 ->
  grid H (s + 1) (2 * a + 1) + H * x * 2 ^ (1074 - s) * 2
  = grid H (s + 1) (2 * (a + x) + 1).
Proof.
  intros Hs. unfold grid.
  replace (1074 - s) with (1074 - (s + 1) + 1) by lia.
  rewrite (Z.pow_add_r 2 (1074 - (s + 1)) 1) by lia. change (2 ^ 1) with 2. ring.
Qed.

(** The coordinate [NeighborInt] encodes: the centre moved by [x] cells,
    exactly. *)
Lemma neighbour_coordinate (H s a x : Z) (c e : float64) :
  0 < H <= 180 -> 1 <= s <= 26 -> 0 <= a < 2 ^ s -> Z.abs x <= 2 ^ 32 ->
  represents c (grid H (s + 1) (2 * a + 1)) ->
  represents e (H * 2 ^ (1074 - s)) ->
  represents (add c (mul (mul (of_int x) e) (of_int 2)))
    (grid H (s + 1) (2 * (a + x) + 1)).
Proof.
  intros HH Hs Ha Hx Hc He.
  change (2 ^ 32) with 4294967296 in Hx.
  pose proof (pow2_pos (1074 - s) ltac:(lia)) as Pq.
  assert (Pbig : 2 ^ 1048 <= 2 ^ (1074 - s)) by (apply Z.pow_le_mono_r; lia).
  assert (Hs2 : 2 ^ s <= 2 ^ 26) by (apply Z.pow_le_mono_r; lia).
  change (2 ^ 26) with 67108864 in Hs2.
  assert (Hmove : represents (mul (mul (of_int x) e) (of_int 2))
                    (H * x * 2 ^ (1074 - s) * 2)).
  { destruct (Z.eq_dec x 0) as [-> | Hnz].
    - replace (H * 0 * 2 ^ (1074 - s) * 2) with 0 by ring.
      apply mul_zero_l; [| reflexivity].
      apply mul_zero_l; [apply (of_int_exact 0); reflexivity | apply He].
    - assert (X1 : 1 <= Z.abs x) by lia.
      assert (HX : 1 <= Z.abs (H * x)) by (rewrite Z.abs_mul; nia).
      assert (HXu : Z.abs (H * x) <= 180 * 4294967296) by (rewrite Z.abs_mul; nia).
      assert (M1 : represents (mul (of_int x) e) (H * x * 2 ^ (1074 - s))).
      { apply (mul_exact _ _ (x * 2 ^ 1074) (H * 2 ^ (1074 - s))).
        - apply of_int_exact. change (2 ^ 53) with 9007199254740992. lia.
        - exact He.
        - rewrite Z.abs_mul, (Z.abs_eq (2 ^ 1074)) by (apply Z.pow_nonneg; lia).
          apply Z.le_trans with (1 * 2 ^ 1074);
            [rewrite Z.mul_1_l; apply Z.pow_le_mono_r; lia
            | apply Z.mul_le_mono_nonneg_r; [apply Z.pow_nonneg |]; lia].
        - rewrite Z.abs_mul, (Z.abs_eq (2 ^ (1074 - s))) by lia.
          apply Z.le_trans with (1 * 2 ^ 1048);
            [rewrite Z.mul_1_l; apply Z.pow_le_mono_r; lia |].
          apply Z.mul_le_mono_nonneg; lia.
        - ring.
        - apply exact_scaled; [| lia].
          change (2 ^ 53) with 9007199254740992. lia.
        - rewrite Z.abs_mul, (Z.abs_eq (2 ^ (1074 - s))) by lia.
          apply Z.le_trans with (1 * 2 ^ 1048);
            [rewrite Z.mul_1_l; apply Z.pow_le_mono_r; lia |].
          apply Z.mul_le_mono_nonneg; lia. }
      apply (mul_exact _ _ (H * x * 2 ^ (1074 - s)) (2 * 2 ^ 1074)).
      + exact M1.
      + apply (of_int_exact 2). reflexivity.
      + rewrite Z.abs_mul, (Z.abs_eq (2 ^ (1074 - s))) by lia.
        apply Z.le_trans with (1 * 2 ^ 1048);
          [rewrite Z.mul_1_l; apply Z.pow_le_mono_r; lia |].
        apply Z.mul_le_mono_nonneg; lia.
      + rewrite Z.abs_eq by (apply Z.mul_nonneg_nonneg; [lia | apply Z.pow_nonneg; lia]).
        apply Z.le_trans with (1 * 2 ^ 1074);
          [rewrite Z.mul_1_l; apply Z.pow_le_mono_r; lia
          | apply Z.mul_le_mono_nonneg_r; [apply Z.pow_nonneg |]; lia].
      + ring.
      + replace (H * x * 2 ^ (1074 - s) * 2) with (H * x * 2 * 2 ^ (1074 - s)) by ring.
        apply exact_scaled; [| lia].
        rewrite Z.abs_mul. change (Z.abs 2) with 2.
        change (2 ^ 53) with 9007199254740992. lia.
      + rewrite !Z.abs_mul, (Z.abs_eq (2 ^ (1074 - s))) by lia.
        change (Z.abs 2) with 2. rewrite <- Z.abs_mul.
        apply Z.le_trans with (1 * 2 ^ 1048 * 1);
          [rewrite Z.mul_1_l, Z.mul_1_r; apply Z.pow_le_mono_r; lia |].
        repeat (apply Z.mul_le_mono_nonneg; try lia). }
  rewrite <- grid_shift by lia.
  apply add_exact; [exact Hc | exact Hmove |].
  rewrite grid_shift by lia. unfold grid.
  replace (H * (2 * (2 * (a + x) + 1) - 2 ^ (s + 1)) * 2 ^ (1074 - (s + 1)))
    with (H * (2 * (a + x) + 1 - 2 ^ s) * 2 ^ (1074 - s)).
  - apply exact_scaled; [| lia].
    rewrite Z.abs_mul, (Z.abs_eq H) by lia.
    assert (Z.abs (2 * (a + x) + 1 - 2 ^ s) <= 3 * 4294967296) by lia.
    change (2 ^ 53) with 9007199254740992. nia.
  - rewrite (Z.pow_add_r 2 s 1) by lia.
    replace (1074 - s) with (1074 - (s + 1) + 1) by lia.
    rewrite (Z.pow_add_r 2 (1074 - (s + 1)) 1) by lia. change (2 ^ 1) with 2. ring.
Qed.

Lemma NeighborInt_moves (h : Z) (b : bearing) (d : Z) :
  valid_depth d -> 0 <= h < 2 ^ 53 ->
  Z.abs (x b) <= 2 ^ 32 -> Z.abs (y b) <= 2 ^ 32 ->
  exists n,
    NeighborInt h b d = Ok n /\ 0 <= n < 2 ^ d /\
    rowOf n (Z.quot d 2) = clamp (Z.quot d 2) (rowOf h (Z.quot d 2) + x b) /\
    colOf n (Z.quot d 2) = clamp (Z.quot d 2) (colOf h (Z.quot d 2) + y b).
Proof.
  intros Hd Hh Hx Hy. destruct (valid_depth_steps d Hd) as [Hs Hds].
  destruct (DecodeInt_cells h d Hd Hh)
    as (bb & p & _ & Hp & _ & _ & Plat & Plng & Elat & Elng).
  set (s := Z.quot d 2) in *.
  pose proof (rowOf_range h s ltac:(lia)) as Rr.
  pose proof (colOf_range h s ltac:(lia)) as Rc.
  pose proof (neighbour_coordinate 90 s _ (x b) _ _ ltac:(lia) ltac:(lia) Rr Hx Plat Elat) as Nlat.
  pose proof (neighbour_coordinate 180 s _ (y b) _ _ ltac:(lia) ltac:(lia) Rc Hy Plng Elng) as Nlng.
  destruct (EncodeInt_cell _ _ d _ _ Hd Nlat Nlng) as (n & Hn & Rn & Xlat & Xlng).
  fold s in Xlat, Xlng.
  exists n. split; [| split; [exact Rn | split]].
  - unfold NeighborInt. rewrite (validateBitDepth_ok d Hd), Hp. cbn [bind]. exact Hn.
  - apply (in_cell_unique 90 s _ _ _ ltac:(lia) ltac:(lia)
             (rowOf_range n s ltac:(lia)) (clamp_range s _ ltac:(lia)) Xlat).
    apply in_cell_clamp; try lia. apply centre_in_cell; lia.
  - apply (in_cell_unique 180 s _ _ _ ltac:(lia) ltac:(lia)
             (colOf_range n s ltac:(lia)) (clamp_range s _ ltac:(lia)) Xlng).
    apply in_cell_clamp; try lia. apply centre_in_cell; lia.
Qed.

Lemma clamp_inside (s a : Z) : 0 <= a < 2 ^ s -> clamp s a = a.
Proof. intros Ha. unfold clamp. lia. Qed.

(** *** The encoder, cell by cell *)

Lemma EncodeInt_cell_iff (latitude longitude : float64) (d la ln g : Z) :
  valid_depth d ->
  represents latitude la -> represents longitude ln ->
  EncodeInt latitude longitude d = Ok g <->
  0 <= g < 2 ^ d /\
  in_cell 90 (Z.quot d 2) (rowOf g (Z.quot d 2)) la /\
  in_cell 180 (Z.quot d 2) (colOf g (Z.quot d 2)) ln.
Proof.
  intros Hd Hla Hln. destruct (valid_depth_steps d Hd) as [Hs Hds].
  destruct (EncodeInt_cell latitude longitude d la ln Hd Hla Hln)
    as (g' & Hg' & Rg' & Clat & Clng).
  split.
  - intros Hg. rewrite Hg' in Hg. injection Hg as <-. auto.
  - intros (Rg & Dlat & Dlng). rewrite Hg'. f_equal.
    apply (hash_of_cell g' g d Hd Rg' Rg).
    + apply (in_cell_unique 90 (Z.quot d 2) _ _ la); try lia; try assumption;
        apply rowOf_range; lia.
    + apply (in_cell_unique 180 (Z.quot d 2) _ _ ln); try lia; try assumption;
        apply colOf_range; lia.
Qed.

(** A value beyond the domain shares its cell with the nearest bound. *)
Lemma in_cell_saturate (H s a x : Z) :
  0 < H -> 0 <= s <= 1074 -> 0 <= a < 2 ^ s ->
  in_cell H s a x ->
  in_cell H s a (Z.max (- H * 2 ^ 1074) (Z.min (H * 2 ^ 1074) x)).
Proof.
  intros HH Hs Ha [Lo Hi].
  assert (G0 : grid H s 0 = - H * 2 ^ 1074).
  { unfold grid. rewrite (pow2_split 1074 s) by lia. ring. }
  assert (G1 : grid H s (2 ^ s) = H * 2 ^ 1074).
  { unfold grid. rewrite (pow2_split 1074 s) by lia. ring. }
  assert (L0 : grid H s 0 <= grid H s a) by (apply grid_le; lia).
  assert (L1 : grid H s (a + 1) <= grid H s (2 ^ s)) by (apply grid_le; lia).
  assert (L2 : grid H s a < grid H s (a + 1)) by (apply grid_lt; lia).
  split.
  - destruct Lo as [-> | Lo]; [left; reflexivity |].
    destruct (Z.eq_dec a 0) as [-> | Hne]; [left; reflexivity |]. right. lia.
  - destruct Hi as [-> | Hi]; [left; reflexivity |].
    destruct (Z.eq_dec a (2 ^ s - 1)) as [-> | Hne]; [left; reflexivity |].
    right. lia.
Qed.

(** *** Hashes of one point at two depths *)

Lemma EncodeInt_loop_resume (latitude longitude : float64) (d d' : Z) :
  0 <= d <= d' -> d' <= 52 ->
  forall (fuel : nat) (v : EncodeVars),
    0 <= bitsTotal v <= d -> fuel = Z.to_nat (d - bitsTotal v) ->
    exists v',
      EncodeInt_loop fuel latitude longitude d v = Ok v' /\
      bitsTotal v' = d /\
      EncodeInt_loop (fuel + Z.to_nat (d' - d)) latitude longitude d' v
      = EncodeInt_loop (Z.to_nat (d' - d)) latitude longitude d' v'.
Proof.
  intros Hd Hd'. induction fuel as [| fuel IH]; intros v Hb Hf.
  - assert (E : bitsTotal v = d) by lia.
    exists v. cbn [EncodeInt_loop Nat.add]. rewrite E, Z.ltb_irrefl. auto.
  - cbn [EncodeInt_loop Nat.add].
    replace (bitsTotal v <? d) with true by (symmetry; apply Z.ltb_lt; lia).
    replace (bitsTotal v <? d') with true by (symmetry; apply Z.ltb_lt; lia).
    assert (Hb' : bitsTotal (EncodeInt_body latitude longitude v) = bitsTotal v + 1)
      by (apply EncodeInt_body_bitsTotal; int64_lia).
    apply IH; rewrite Hb'; lia.
Qed.

Lemma EncodeInt_loop_append (latitude longitude : float64) (d : Z) :
  0 <= d <= 52 ->
  forall (fuel : nat) (v : EncodeVars),
    0 <= bitsTotal v <= d -> fuel = Z.to_nat (d - bitsTotal v) ->
    0 <= geohash v < 2 ^ bitsTotal v ->
    exists v',
      EncodeInt_loop fuel latitude longitude d v = Ok v' /\
      geohash v * 2 ^ Z.of_nat fuel <= geohash v'
        < (geohash v + 1) * 2 ^ Z.of_nat fuel.
Proof.
  intros Hd. induction fuel as [| fuel IH]; intros v Hb Hf Hg.
  - assert (E : bitsTotal v = d) by lia.
    exists v. cbn [EncodeInt_loop]. rewrite E, Z.ltb_irrefl.
    split; [reflexivity |]. change (2 ^ Z.of_nat 0) with 1. lia.
  - cbn [EncodeInt_loop].
    replace (bitsTotal v <? d) with true by (symmetry; apply Z.ltb_lt; lia).
    assert (Hb' : bitsTotal (EncodeInt_body latitude longitude v) = bitsTotal v + 1)
      by (apply EncodeInt_body_bitsTotal; int64_lia).
    assert (Hlt : 2 ^ bitsTotal v <= 2 ^ 51) by (apply Z.pow_le_mono_r; lia).
    change (2 ^ 51) with 2251799813685248 in Hlt.
    destruct (EncodeInt_body_geohash latitude longitude v
                ltac:(change (2 ^ 62) with 4611686018427387904; lia))
      as (b & Hb01 & Hg').
    destruct (IH (EncodeInt_body latitude longitude v)) as (v' & Hv' & Lo & Hi);
      rewrite ?Hb', ?Hg'; try lia.
    { rewrite Z.pow_add_r by lia. change (2 ^ 1) with 2. lia. }
    exists v'. split; [exact Hv' |].
    rewrite Hg' in Lo, Hi.
    rewrite Nat2Z.inj_succ, Z.pow_succ_r by lia.
    pose proof (pow2_pos (Z.of_nat fuel) ltac:(lia)) as P.
    nia.
Qed.

Lemma EncodeInt_top_bits (latitude longitude : float64) (d d' : Z) :
  valid_depth d -> valid_depth d' -> d <= d' ->
  exists g g',
    EncodeInt latitude longitude d = Ok g /\
    EncodeInt latitude longitude d' = Ok g' /\
    0 <= g' < 2 ^ d' /\
    g * 2 ^ (d' - d) <= g' < (g + 1) * 2 ^ (d' - d) /\
    g = Z.shiftr g' (d' - d).
Proof.
  intros Hd Hd' Hle.
  destruct (EncodeInt_total latitude longitude d Hd) as (v & Hv & Bv & Ev & Rv).
  destruct (EncodeInt_total latitude longitude d' Hd') as (v' & Hv' & Bv' & Ev' & Rv').
  destruct Hd as [Hr He]. destruct Hd' as [Hr' He'].
  destruct (EncodeInt_loop_resume latitude longitude d d' ltac:(lia) ltac:(lia)
              (Z.to_nat d) EncodeInt_init) as (w & Hw & Bw & Eq);
    try (cbn; lia).
  rewrite Hv in Hw. injection Hw as <-.
  replace (Z.to_nat d + Z.to_nat (d' - d))%nat with (Z.to_nat d') in Eq by lia.
  rewrite Hv' in Eq.
  destruct (EncodeInt_loop_append latitude longitude d' ltac:(lia)
              (Z.to_nat (d' - d)) v) as (w' & Hw' & Lo & Hi);
    rewrite ?Bv; try lia.
  rewrite Hw' in Eq. injection Eq as <-.
  rewrite Z2Nat.id in Lo, Hi by lia.
  exists (geohash v), (geohash v'). repeat split; try assumption; try lia.
  rewrite Z.shiftr_div_pow2 by lia.
  pose proof (pow2_pos (d' - d) ltac:(lia)) as P.
  apply Z.div_unique with (geohash v' - geohash v * 2 ^ (d' - d)); [lia | ring].
Qed.

(** *** [Shift] *)

Lemma Shift_scale (value d : Z) :
  valid_depth d -> 0 <= value < 2 ^ d ->
  Shift value d = Ok (value * 2 ^ (52 - d)) /\
  0 <= value * 2 ^ (52 - d) < 2 ^ 52 /\
  Z.shiftr (value * 2 ^ (52 - d)) (52 - d) = value.
Proof.
  intros Hd Hv. rewrite (Shift_ok value d Hd). destruct Hd as [Hr _].
  pose proof (pow2_pos (52 - d) ltac:(lia)) as P.
  assert (E : 2 ^ 52 = 2 ^ d * 2 ^ (52 - d))
    by (rewrite <- Z.pow_add_r by lia; f_equal; lia).
  assert (B : 0 <= value * 2 ^ (52 - d) < 2 ^ 52) by (rewrite E; nia).
  rewrite Z.shiftl_mul_pow2 by lia.
  rewrite wrap64_small
    by (change (2 ^ 52) with 4503599627370496 in B; int64_lia).
  split; [reflexivity | split; [exact B |]].
  rewrite Z.shiftr_div_pow2 by lia. apply Z.div_mul. lia.
Qed.

(** *** Hashes below zero *)

Lemma land_1_opp (q : Z) : Z.land (- q) 1 = Z.land q 1.
Proof.
  change 1 with (Z.ones 1). rewrite !Z.land_ones by lia.
  change (2 ^ 1) with 2.
  pose proof (Z.mod_pos_bound q 2 ltac:(lia)).
  pose proof (Z.mod_pos_bound (- q) 2 ltac:(lia)).
  pose proof (Z.div_mod q 2 ltac:(lia)).
  pose proof (Z.div_mod (- q) 2 ltac:(lia)).
  lia.
Qed.

Lemma getBit_opp (geohash position : Z) :
  0 <= geohash < 2 ^ 53 -> 0 <= position <= 52 ->
  getBit (- geohash) position = getBit geohash position.
Proof.
  intros Hh Hp. unfold getBit, to_int.
  destruct (getBit_quotient geohash position Hh Hp) as (V & F & Hv).
  assert (R : represents (div (of_int (- geohash)) (pow2 position))
                (- geohash * 2 ^ (1074 - position))).
  { apply (div_pow2_exact _ (- geohash * 2 ^ 1074)).
    - apply of_int_exact. lia.
    - lia.
    - rewrite (pow2_split 1074 position) by lia. lia.
    - destruct (Z.eq_dec geohash 0) as [-> | Hnz]; [left; reflexivity | right].
      pose proof (pow2_pos 1074 ltac:(lia)).
      rewrite Z.abs_neq by nia.
      apply Z.le_trans with (1 * 2 ^ 1074).
      + rewrite Z.mul_1_l. apply Z.pow_le_mono_r; lia.
      + nia. }
  destruct R as (V' & F' & Hv').
  rewrite (trunc_Z_val _ V F), Hv, (trunc_Z_val _ V' F'), Hv'.
  pose proof (pow2_pos position ltac:(lia)) as Pp.
  pose proof (pow2_pos (1074 - position) ltac:(lia)) as Pq.
  pose proof (pow2_pos 1074 ltac:(lia)) as P.
  assert (Hq : Z.quot (geohash * 2 ^ (1074 - position)) (2 ^ 1074)
               = geohash / 2 ^ position).
  { rewrite Z.quot_div_nonneg by nia.
    rewrite (pow2_split 1074 (1074 - position)) by lia.
    replace (1074 - (1074 - position)) with position by lia.
    rewrite Z.div_mul_cancel_r by lia. reflexivity. }
  rewrite Z.mul_opp_l, Z.quot_opp_l by lia. rewrite Hq.
  assert (Hr : 0 <= geohash / 2 ^ position < 2 ^ 53).
  { split; [apply Z.div_pos; lia |].
    apply Z.le_lt_trans with geohash; [apply Z.div_le_upper_bound; nia | lia]. }
  change (2 ^ 53) with 9007199254740992 in Hr.
  replace ((- 2 ^ 63 <=? geohash / 2 ^ position) && (geohash / 2 ^ position <? 2 ^ 63))
    with true
    by (symmetry; apply andb_true_intro; split;
        [apply Z.leb_le | apply Z.ltb_lt]; int64_lia).
  replace ((- 2 ^ 63 <=? - (geohash / 2 ^ position))
           && (- (geohash / 2 ^ position) <? 2 ^ 63))
    with true
    by (symmetry; apply andb_true_intro; split;
        [apply Z.leb_le | apply Z.ltb_lt]; int64_lia).
  apply land_1_opp.
Qed.

Lemma DecodeBboxInt_opp (h d : Z) :
  0 <= h < 2 ^ 53 -> DecodeBboxInt (- h) d = DecodeBboxInt h d.
Proof.
  intros Hh. unfold DecodeBboxInt.
  destruct (valid_depth_dec d) as [Hd | Hd].
  - destruct (valid_depth_steps d Hd) as [Hs Hds].
    rewrite (validateBitDepth_ok d Hd). cbn [bind].
    apply DecodeBboxInt_loop_ext; try lia.
    intros p Hp. apply getBit_opp; [exact Hh | lia].
  - destruct (validateBitDepth_panic d Hd) as [msg ->]. reflexivity.
Qed.

(** *** Distinct hashes, distinct cells *)

Lemma DecodeInt_inj (g h d : Z) :
  valid_depth d -> 0 <= g < 2 ^ d -> 0 <= h < 2 ^ d ->
  DecodeInt g d = DecodeInt h d -> g = h.
Proof.
  intros Hd Hg Hh E.
  assert (B : forall n, 0 <= n < 2 ^ d -> 0 <= n < 2 ^ 53).
  { intros n Hn. split; [lia |]. apply Z.lt_le_trans with (2 ^ d); [lia |].
    apply Z.pow_le_mono_r; destruct Hd; lia. }
  destruct (DecodeInt_cells g d Hd (B g Hg)) as (b & p & _ & Hp & _ & _ & Plat & Plng & _).
  destruct (DecodeInt_cells h d Hd (B h Hh)) as (b' & p' & _ & Hp' & _ & _ & Plat' & Plng' & _).
  rewrite Hp, Hp' in E. injection E as ->.
  pose proof (EncodeInt_centre (lat p') (lng p') h d Hd Hh Plat' Plng') as E2.
  pose proof (EncodeInt_centre (lat p') (lng p') g d Hd Hg Plat Plng) as E1.
  congruence.
Qed.

Lemma DecodeBboxInt_inj (g h d : Z) :
  valid_depth d -> 0 <= g < 2 ^ d -> 0 <= h < 2 ^ d ->
  DecodeBboxInt g d = DecodeBboxInt h d -> g = h.
Proof.
  intros Hd Hg Hh E. apply (DecodeInt_inj g h d Hd Hg Hh).
  unfold DecodeInt. rewrite E. reflexivity.
Qed.

(** *** The decoded box as rational numbers *)

Lemma to_Q_grid (x : float64) (H s j : Z) :
  represents x (grid H s j) -> 0 <= s <= 1074 ->
  (to_Q x == inject_Z (- H) + inject_Z (2 * H * j) / inject_Z (2 ^ s))%Q.
Proof.
  intros (_ & _ & Hv) Hs. unfold to_Q. rewrite Hv.
  pose proof (pow2_pos s ltac:(lia)) as Ps.
  pose proof (pow2_pos (1074 - s) ltac:(lia)) as Pq.
  assert (Hne : ~ (inject_Z (2 ^ s) == 0)%Q).
  { unfold Qeq, inject_Z. cbn. lia. }
  rewrite <- (Qmult_inj_r _ _ (inject_Z (2 ^ s)) Hne).
  rewrite Qmult_plus_distr_l.
  unfold Qdiv. rewrite <- Qmult_assoc, (Qmult_comm (/ _)), Qmult_inv_r by exact Hne.
  rewrite Qmult_1_r. rewrite <- !inject_Z_mult, <- inject_Z_plus.
  unfold Qeq, Qmult, inject_Z. cbn [Qnum Qden].
  rewrite Z.mul_1_r, Pos.mul_1_r.
  change (Z.pos (2 ^ 1074)) with (2 ^ 1074).
  unfold grid. rewrite (pow2_split 1074 s) by lia. ring.
Qed.

(** *** The nine cells of [NeighborsInt] *)

Lemma NeighborInt_inside (h : Z) (b : bearing) (d : Z) :
  valid_depth d -> 0 <= h < 2 ^ d ->
  Z.abs (x b) <= 1 -> Z.abs (y b) <= 1 ->
  1 <= rowOf h (Z.quot d 2) <= 2 ^ Z.quot d 2 - 2 ->
  1 <= colOf h (Z.quot d 2) <= 2 ^ Z.quot d 2 - 2 ->
  forall n, NeighborInt h b d = Ok n ->
    rowOf n (Z.quot d 2) = rowOf h (Z.quot d 2) + x b /\
    colOf n (Z.quot d 2) = colOf h (Z.quot d 2) + y b.
Proof.
  intros Hd Hh Hx Hy Hr Hc n Hn.
  assert (Hh53 : 0 <= h < 2 ^ 53).
  { split; [lia |]. apply Z.lt_le_trans with (2 ^ d); [lia |].
    apply Z.pow_le_mono_r; destruct Hd; lia. }
  destruct (NeighborInt_moves h b d Hd Hh53) as (n' & Hn' & _ & Er & Ec);
    try (change (2 ^ 32) with 4294967296; lia).
  rewrite Hn in Hn'. injection Hn' as <-.
  rewrite clamp_inside in Er, Ec by lia. auto.
Qed.

(** *** What [FindBitDepth] answers *)

Lemma FindBitDepth_range_entry (entries : list (Z * float64)) (distance : float64) :
  (forall kv, In kv entries -> 0 <= fst kv <= 52) ->
  (exists kv, In kv entries /\ gtb (snd kv) distance = true /\
              FindBitDepth_range entries distance = 52 - fst kv) \/
  (FindBitDepth_range entries distance = 0 /\
   forall kv, In kv entries -> gtb (snd kv) distance = false).
Proof.
  induction entries as [| [key value] rest IH]; intros Hk.
  - right. split; [reflexivity | intros kv []].
  - cbn [FindBitDepth_range]. destruct (gtb value distance) eqn:G.
    + left. exists (key, value). cbn [fst snd]. split; [left; reflexivity |].
      split; [exact G |].
      pose proof (Hk (key, value) (or_introl eq_refl)) as R. cbn [fst] in R.
      unfold MaxBitDepth. apply wrap64_small. int64_lia.
    + destruct IH as [(kv & Hin & Hg & Hr) | [Hr Hall]].
      * intros kv Hin. apply Hk. right. exact Hin.
      * left. exists kv. split; [right; exact Hin | auto].
      * right. split; [exact Hr |]. intros kv [<- | Hin]; [exact G | auto].
Qed.

Lemma table_keys :
  forallb (fun kv : Z * float64 =>
             (4 <=? fst kv) && (fst kv <=? 52) && Z.even (fst kv))
    bitsToDistanceInMeters = true.
Proof. vm_compute. reflexivity. Qed.

(** *** The slice of the sibling revision *)

Lemma RadiusSlice_range_first (values : list float64) (key : Z) (distance : float64) :
  0 <= key -> key + Z.of_nat (List.length values) <= 25 ->
  (RadiusSlice.FindBitDepth_range key values distance = 0 /\
   forall value, In value values -> gtb value distance = false) \/
  (exists (i : nat) (value : float64),
     nth_error values i = Some value /\ gtb value distance = true /\
     RadiusSlice.FindBitDepth_range key values distance
     = 52 - 2 * (key + Z.of_nat i) /\
     forall (j : nat) (value' : float64),
       (j < i)%nat -> nth_error values j = Some value' ->
       gtb value' distance = false).
Proof.
  revert key. induction values as [| value rest IH]; intros key Hk Hl.
  - left. split; [reflexivity | intros v []].
  - cbn [RadiusSlice.FindBitDepth_range]. cbn [List.length] in Hl.
    destruct (gtb value distance) eqn:G.
    + right. exists 0%nat, value. split; [reflexivity |]. split; [exact G |].
      split.
      * unfold MaxBitDepth. rewrite (wrap64_small (key * 2)) by int64_lia.
        rewrite wrap64_small by int64_lia. lia.
      * intros j v' Hj. lia.
    + destruct (IH (key + 1) ltac:(lia) ltac:(lia))
        as [[Hr Hall] | (i & v & Hn & Hg & Hr & Hbefore)].
      * left. split; [exact Hr |]. intros v [<- | Hin]; [exact G | auto].
      * right. exists (S i), v. split; [exact Hn |]. split; [exact Hg |].
        split; [rewrite Hr; lia |].
        intros [| j] v' Hj Hn'.
        -- cbn in Hn'. injection Hn' as <-. exact G.
        -- cbn in Hn'. apply (Hbefore j v'); [lia | exact Hn'].
Qed.

(** *** Division with an integer quotient *)

Lemma new_location_0 (n : Z) : new_location n 0 = loc_Exact.
Proof.
  unfold new_location, new_location_even, new_location_odd.
  destruct (Z.even n); reflexivity.
Qed.

(** The quotient of two magnitudes, against their lengths. *)
Lemma quotient_digits (mx my : positive) (ex ey K n : Z) :
  0 <= ex -> 0 <= ey -> 0 <= n -> 0 <= K < 2 ^ n ->
  Zpos mx * 2 ^ ex = K * (Zpos my * 2 ^ ey) ->
  Zpos (digits2_pos mx) + ex - (Zpos (digits2_pos my) + ey) - 1 < n.
Proof.
  intros Hex Hey Hn HK HA.
  pose proof (digits2_pos_bounds mx) as [Xlo Xhi].
  pose proof (digits2_pos_bounds my) as [Ylo Yhi].
  set (d1 := Zpos (digits2_pos mx)) in *. set (d2 := Zpos (digits2_pos my)) in *.
  assert (Hd1 : 0 < d1) by (unfold d1; lia).
  assert (Hd2 : 0 < d2) by (unfold d2; lia).
  pose proof (pow2_pos ex Hex) as Px. pose proof (pow2_pos ey Hey) as Py.
  assert (H : 2 ^ (d1 - 1 + ex) < 2 ^ (n + (d2 + ey))).
  { rewrite !Z.pow_add_r by lia.
    apply Z.le_lt_trans with (Zpos mx * 2 ^ ex);
      [apply Z.mul_le_mono_nonneg_r; lia |].
    rewrite HA. apply Z.mul_lt_mono_nonneg; try lia.
    apply Z.mul_lt_mono_pos_r; lia. }
  apply pow2_lt_inv in H; lia.
Qed.

Lemma div_exact_int (x y : float64) (a b k : Z) :
  represents x a -> represents y b -> b <> 0 -> a = k * b ->
  Z.abs k < 2 ^ 53 ->
  represents (div x y) (k * 2 ^ 1074).
Proof.
  intros (Vx & Fx & Hx) (Vy & Fy & Hy) Hb Hk Hk53.
  destruct y as [sy | sy | | sy my ey]; try discriminate Fy;
    [simpl in Hy; congruence |].
  destruct x as [sx | sx | | sx mx ex]; try discriminate Fx.
  - simpl in Hx. assert (k = 0) by nia. subst k. repeat split.
  - destruct (valid_finite_emin _ _ _ Vx) as [Lx Ux].
    destruct (valid_finite_emin _ _ _ Vy) as [Ly Uy].
    unfold emin in Lx, Ly.
    pose proof (mag_pos mx ex Lx) as PA. pose proof (mag_pos my ey Ly) as PB.
    rewrite val_mag in Hx, Hy.
    set (K := Z.abs k) in *.
    assert (HA : mag mx ex = K * mag my ey).
    { apply (f_equal Z.abs) in Hk. rewrite Z.abs_mul, <- Hx, <- Hy in Hk.
      rewrite !abs_cond_Zopp in Hk.
      rewrite (Z.abs_eq (mag mx ex)), (Z.abs_eq (mag my ey)) in Hk by lia.
      exact Hk. }
    assert (HK1 : 1 <= K) by nia.
    assert (Hsign : k = cond_Zopp (xorb sx sy) K).
    { apply (Z.mul_reg_r _ _ (mag my ey)); [lia |].
      destruct sx, sy; unfold cond_Zopp in *; cbn [xorb]; nia. }
    unfold mag, emin in HA, PA, PB.
    replace (ex - -1074) with (ex + 1074) in HA, PA by lia.
    replace (ey - -1074) with (ey + 1074) in HA, PB by lia.
    set (Kp := Z.to_pos K).
    assert (HKp : Zpos Kp = K) by (unfold Kp; rewrite Z2Pos.id; lia).
    pose proof (digits2_pos_bounds Kp) as [Klo Khi]. rewrite HKp in Klo, Khi.
    pose proof (digits2_pos_bounds mx) as [Xlo Xhi].
    pose proof (digits2_pos_bounds my) as [Ylo Yhi].
    unfold div, SFdiv, SFdiv_core_binary. cbn [Zdigits2]. rewrite fexp_eq.
    set (d1 := Zpos (digits2_pos mx)) in *.
    set (d2 := Zpos (digits2_pos my)) in *.
    set (dk := Zpos (digits2_pos Kp)) in *.
    assert (Hdk1 : 0 < dk) by (unfold dk; lia).
    assert (Hdk : dk <= 53).
    { assert (2 ^ (dk - 1) < 2 ^ 53) by lia. apply pow2_lt_inv in H; lia. }
    assert (HD : d1 + ex - (d2 + ey) <= dk).
    { pose proof (quotient_digits mx my (ex + 1074) (ey + 1074) K dk
                    ltac:(lia) ltac:(lia) ltac:(lia) ltac:(lia) HA) as Q.
      fold d1 d2 in Q. lia. }
    set (e' := Z.min (Z.max (d1 + ex - (d2 + ey) - 53) (-1074)) (ex - ey)).
    assert (He' : e' <= dk - 53) by (unfold e'; lia).
    assert (He'0 : e' <= 0) by lia.
    set (s := ex - ey - e').
    assert (Hs : 0 <= s) by (unfold s, e'; lia).
    pose proof (pow2_pos (- e') ltac:(lia)) as Pe.
    assert (Hm' : Zpos mx * 2 ^ s = K * 2 ^ (- e') * Zpos my).
    { apply (Z.mul_reg_r _ _ (2 ^ (ey + 1074))); [lia |].
      rewrite <- Z.mul_assoc, <- Z.pow_add_r by lia.
      replace (s + (ey + 1074)) with (ex + 1074 + - e') by (unfold s; lia).
      rewrite Z.pow_add_r by lia. rewrite Z.mul_assoc, HA. ring. }
    assert (Hm : match s with
                 | 0 => Zpos mx
                 | Zpos _ => Z.shiftl (Zpos mx) s
                 | Zneg _ => 0
                 end = K * 2 ^ (- e') * Zpos my).
    { rewrite <- Hm'. destruct s as [| p | p] eqn:Es; [cbn; lia | | lia].
      rewrite Z.shiftl_mul_pow2 by lia. reflexivity. }
    rewrite Hm, div_eucl_mul by lia. rewrite new_location_0.
    set (Qp := Z.to_pos (K * 2 ^ (- e'))).
    assert (HQp : Zpos Qp = K * 2 ^ (- e')) by (unfold Qp; rewrite Z2Pos.id; nia).
    rewrite <- HQp.
    assert (HdQ : Zpos (digits2_pos Qp) = dk + - e').
    { apply digits_mul_pow2; [lia |]. rewrite HQp, HKp. reflexivity. }
    pose proof (pow2_pos (53 - dk) ltac:(lia)) as P53.
    set (Mp := Z.to_pos (K * 2 ^ (53 - dk))).
    assert (HMp : Zpos Mp = K * 2 ^ (53 - dk)) by (unfold Mp; rewrite Z2Pos.id; nia).
    assert (HdM : Zpos (digits2_pos Mp) = 53).
    { rewrite (digits_mul_pow2 Kp Mp (53 - dk));
        [fold dk; lia | lia | rewrite HMp, HKp; reflexivity]. }
    assert (Hval : Zpos Mp * 2 ^ (dk - 53 + 1074) = K * 2 ^ 1074).
    { rewrite HMp, <- Z.mul_assoc, <- Z.pow_add_r by lia. do 2 f_equal. lia. }
    rewrite Hsign.
    destruct (dk - 53 - e') as [| n | n] eqn:Hn; [| | lia].
    + assert (Ee : e' = dk - 53) by lia.
      assert (EQ : Qp = Mp).
      { apply Pos2Z.inj. rewrite HQp, HMp. do 2 f_equal. lia. }
      rewrite binary_round_aux_id by (rewrite ?HdQ, ?fexp_eq; lia).
      rewrite EQ, Ee. split; [| split; [reflexivity |]].
      * apply valid_finite_intro; [rewrite HdM, fexp_eq |]; lia.
      * rewrite val_mag. unfold mag, emin.
        replace (dk - 53 - -1074) with (dk - 53 + 1074) by lia. rewrite Hval.
        destruct (xorb sx sy); unfold cond_Zopp; lia.
    + rewrite (binary_round_aux_shr (xorb sx sy) Qp Mp e' n).
      * replace (e' + Zpos n) with (dk - 53) by lia.
        split; [| split; [reflexivity |]].
        -- apply valid_finite_intro; [rewrite HdM, fexp_eq |]; lia.
        -- rewrite val_mag. unfold mag, emin.
           replace (dk - 53 - -1074) with (dk - 53 + 1074) by lia. rewrite Hval.
           destruct (xorb sx sy); unfold cond_Zopp; lia.
      * rewrite HdQ, fexp_eq. lia.
      * rewrite HQp, HMp, <- Z.mul_assoc, <- Z.pow_add_r by lia.
        do 2 f_equal. lia.
      * lia.
Qed.

(** *** Integer and fractional parts *)

Lemma signbit_val (x : float64) (v : Z) :
  represents x v -> v <> 0 -> signbit x = (v <? 0).
Proof.
  intros (Vx & Fx & Hx) Hv.
  destruct x as [s | s | | s m e]; try discriminate Fx; [simpl in Hx; lia |].
  destruct (valid_finite_emin _ _ _ Vx) as [L _].
  pose proof (mag_pos m e L) as P. rewrite val_mag in Hx. cbn [signbit].
  destruct s; unfold cond_Zopp in Hx; symmetry;
    [apply Z.ltb_lt | apply Z.ltb_ge]; lia.
Qed.

Lemma neg_represents (x : float64) (v : Z) :
  represents x v -> represents (neg x) (- v).
Proof.
  intros (Vx & Fx & Hx).
  destruct x as [s | s | | s m e]; try discriminate Fx.
  - simpl in Hx. subst v. repeat split.
  - split; [exact Vx | split; [reflexivity |]].
    rewrite val_mag in Hx. unfold neg, SFopp. rewrite val_mag.
    destruct s; unfold cond_Zopp in *; cbn [negb]; lia.
Qed.

Lemma signbit_neg (x : float64) :
  is_finite x = true -> signbit (neg x) = negb (signbit x).
Proof. destruct x; try discriminate; reflexivity. Qed.

Lemma Copysign_represents (y f : float64) (w : Z) :
  represents y w -> (w <> 0 -> signbit y = signbit f) ->
  represents (Copysign y f) w /\ signbit (Copysign y f) = signbit f.
Proof.
  intros Hy Hs. unfold Copysign.
  destruct (Bool.eqb (signbit y) (signbit f)) eqn:E.
  - apply eqb_prop in E. auto.
  - assert (Hw : w = 0).
    { destruct (Z.eq_dec w 0) as [Hz | Hnz]; [exact Hz |].
      rewrite (Hs Hnz), eqb_reflx in E. discriminate. }
    subst w. split; [exact (neg_represents y 0 Hy) |].
    rewrite signbit_neg by (destruct Hy as (_ & F & _); exact F).
    destruct (signbit y), (signbit f); try reflexivity; discriminate.
Qed.

Lemma shiftl_neg_bound (m : positive) (e : Z) :
  e < 0 -> 0 <= Z.shiftl (Zpos m) e <= Zpos m.
Proof.
  intros He. rewrite Z.shiftl_div_pow2 by lia.
  pose proof (pow2_pos (- e) ltac:(lia)) as P.
  split; [apply Z.div_pos; lia |].
  apply Z.div_le_upper_bound; [lia | nia].
Qed.

Lemma trunc_represents (x : float64) (v : Z) :
  represents x v ->
  represents (trunc x) (Z.quot v (2 ^ 1074) * 2 ^ 1074) /\
  signbit (trunc x) = signbit x.
Proof.
  intros (Vx & Fx & Hx).
  pose proof (trunc_Z_val x Vx Fx) as T. rewrite Hx in T.
  destruct x as [s | s | | s m e]; try discriminate Fx.
  - simpl in Hx. subst v. repeat split.
  - cbn [trunc_Z] in T. injection T as T.
    change (Z.pow_pos 2 1074) with (2 ^ 1074) in T. cbn [trunc].
    destruct (valid_finite_emin _ _ _ Vx) as [L _]. unfold emin in L.
    destruct (valid_finite_digits _ _ _ Vx) as [Dm _].
    pose proof (digits2_pos_bounds m) as [_ Mhi].
    assert (Hm53 : Zpos m < 2 ^ 53).
    { apply Z.lt_le_trans with (1 := Mhi). apply Z.pow_le_mono_r; lia. }
    destruct (Z.leb_spec 0 e) as [He | He].
    + split; [| reflexivity]. split; [exact Vx | split; [reflexivity |]].
      rewrite Hx, <- T. rewrite <- Hx, val_mag. unfold mag, emin.
      rewrite Z.shiftl_mul_pow2 by lia.
      replace (e - -1074) with (e + 1074) by lia. rewrite Z.pow_add_r by lia.
      destruct s; unfold cond_Zopp; ring.
    + pose proof (shiftl_neg_bound m e He) as B.
      destruct (Z.shiftl (Zpos m) e) as [| q | q] eqn:Eq; [| | lia].
      * rewrite <- T. destruct s; repeat split.
      * assert (R : represents
                      (binary_normalize prec emax (cond_Zopp s (Zpos q)) 0 s)
                      (cond_Zopp s (Zpos q) * 2 ^ (0 - emin))).
        { apply binary_normalize_exact; [unfold emin; lia |].
          exists (cond_Zopp s (Zpos q)), (0 - emin).
          split; [reflexivity |]. rewrite abs_cond_Zopp. unfold emin. lia. }
        change (2 ^ (0 - emin)) with (2 ^ 1074) in R. rewrite <- T.
        split; [exact R |].
        pose proof (pow2_pos 1074 ltac:(lia)).
        rewrite (signbit_val _ _ R).
        -- cbn [signbit].
           destruct s; unfold cond_Zopp; [apply Z.ltb_lt | apply Z.ltb_ge]; nia.
        -- destruct s; unfold cond_Zopp; nia.
Qed.

(** The fractional part of a binary64 is a binary64. *)
Lemma exact_rem (x : float64) (v : Z) :
  represents x v -> exact (Z.rem v (2 ^ 1074)).
Proof.
  intros (Vx & Fx & Hx).
  destruct x as [s | s | | s m e]; try discriminate Fx.
  - simpl in Hx. subst v. rewrite Z.rem_0_l by (pose proof (pow2_pos 1074); lia).
    apply exact_0.
  - destruct (valid_finite_emin _ _ _ Vx) as [L _]. unfold emin in L.
    destruct (valid_finite_digits _ _ _ Vx) as [Dm _].
    pose proof (digits2_pos_bounds m) as [_ Mhi].
    assert (Hm53 : Zpos m < 2 ^ 53).
    { apply Z.lt_le_trans with (1 := Mhi). apply Z.pow_le_mono_r; lia. }
    pose proof (pow2_pos 1074 ltac:(lia)) as PU.
    rewrite val_mag in Hx. unfold mag, emin in Hx.
    replace (e - -1074) with (e + 1074) in Hx by lia.
    assert (Hr : exact (Z.rem (Zpos m * 2 ^ (e + 1074)) (2 ^ 1074))).
    { pose proof (pow2_pos (e + 1074) ltac:(lia)) as Pe.
      rewrite Z.rem_mod_nonneg by lia.
      destruct (Z_le_gt_dec 0 e) as [He | He].
      - rewrite Z.pow_add_r, Z.mul_assoc, Z.mod_mul by lia. apply exact_0.
      - rewrite (pow2_split 1074 (e + 1074)) by lia.
        replace (1074 - (e + 1074)) with (- e) by lia.
        pose proof (pow2_pos (- e) ltac:(lia)) as Pn.
        rewrite Z.mul_mod_distr_r by lia.
        exists (Zpos m mod 2 ^ (- e)), (e + 1074).
        split; [reflexivity |].
        pose proof (Z.mod_pos_bound (Zpos m) (2 ^ (- e)) Pn).
        pose proof (Z.mod_le (Zpos m) (2 ^ (- e)) ltac:(lia) Pn). lia. }
    subst v. destruct s; unfold cond_Zopp; [| exact Hr].
    rewrite Z.rem_opp_l by lia. apply exact_opp. exact Hr.
Qed.

Lemma Modf_represents (f : float64) (v : Z) :
  represents f v ->
  represents (fst (Modf f)) (Z.quot v (2 ^ 1074) * 2 ^ 1074) /\
  represents (snd (Modf f)) (Z.rem v (2 ^ 1074)) /\
  signbit (snd (Modf f)) = signbit f.
Proof.
  intros Hf. pose proof Hf as (Vf & Ff & Hv).
  pose proof (pow2_pos 1074 ltac:(lia)) as PU.
  destruct f as [s | s | | s m e] eqn:Ef; try discriminate Ff.
  - simpl in Hv. subst v. cbn [Modf fst snd].
    rewrite Z.rem_0_l by lia. repeat split.
  - rewrite <- Ef in *. 
    assert (EM : Modf f = (trunc f, Copysign (sub f (trunc f)) f))
      by (rewrite Ef; reflexivity).
    rewrite EM. cbn [fst snd].
    destruct (trunc_represents f v Hf) as [Ht St].
    split; [exact Ht |].
    assert (Hsub : represents (sub f (trunc f)) (Z.rem v (2 ^ 1074))).
    { replace (Z.rem v (2 ^ 1074)) with (v - Z.quot v (2 ^ 1074) * 2 ^ 1074)
        by (pose proof (Z.quot_rem' v (2 ^ 1074)); lia).
      apply sub_exact; [exact Hf | exact Ht |].
      replace (v - Z.quot v (2 ^ 1074) * 2 ^ 1074) with (Z.rem v (2 ^ 1074))
        by (pose proof (Z.quot_rem' v (2 ^ 1074)); lia).
      exact (exact_rem f v Hf). }
    apply Copysign_represents; [exact Hsub |].
    intros Hnz. rewrite (signbit_val _ _ Hsub Hnz).
    assert (Hvnz : v <> 0) by (intros ->; rewrite Z.rem_0_l in Hnz; lia).
    rewrite (signbit_val _ _ Hf Hvnz).
    pose proof (Z.rem_sign_nz v (2 ^ 1074) ltac:(lia) Hnz) as Sg.
    destruct (Z.ltb_spec v 0), (Z.ltb_spec (Z.rem v (2 ^ 1074)) 0);
      try reflexivity; exfalso.
    + rewrite (Z.sgn_neg v), (Z.sgn_pos (Z.rem _ _)) in Sg by lia. lia.
    + rewrite (Z.sgn_pos v), (Z.sgn_neg (Z.rem _ _)) in Sg by lia. lia.
Qed.

(** *** [math.Floor], [math.Ceil] and [round] *)

Lemma eqb_val (x y : float64) (a b : Z) :
  represents x a -> represents y b -> eqb x y = (a =? b).
Proof.
  intros (Vx & Fx & Hx) (Vy & Fy & Hy). unfold eqb, SFeqb.
  rewrite (compare_val x y Vx Vy Fx Fy), Hx, Hy.
  destruct (Z.compare_spec a b) as [E | L | G]; symmetry;
    [apply Z.eqb_eq | apply Z.eqb_neq | apply Z.eqb_neq]; lia.
Qed.

(** A binary64 with a fractional part is below [2^52]. *)
Lemma fraction_small (x : float64) (v : Z) :
  represents x v -> Z.rem v (2 ^ 1074) <> 0 -> Z.abs v < 2 ^ 52 * 2 ^ 1074.
Proof.
  intros (Vx & Fx & Hx) Hr.
  pose proof (pow2_pos 1074 ltac:(lia)) as PU.
  destruct x as [s | s | | s m e]; try discriminate Fx.
  - simpl in Hx. subst v. rewrite Z.rem_0_l in Hr; lia.
  - destruct (valid_finite_emin _ _ _ Vx) as [L _]. unfold emin in L.
    destruct (valid_finite_digits _ _ _ Vx) as [Dm _].
    pose proof (digits2_pos_bounds m) as [_ Mhi].
    assert (Hm53 : Zpos m < 2 ^ 53).
    { apply Z.lt_le_trans with (1 := Mhi). apply Z.pow_le_mono_r; lia. }
    rewrite val_mag in Hx. rewrite <- Hx, abs_cond_Zopp.
    unfold mag, emin. replace (e - -1074) with (e + 1074) by lia.
    pose proof (pow2_pos (e + 1074) ltac:(lia)) as Pe.
    rewrite Z.abs_eq by lia.
    destruct (Z_le_gt_dec 0 e) as [He | He].
    + exfalso. apply Hr. rewrite <- Hx. unfold mag, emin.
      replace (e - -1074) with (e + 1074) by lia.
      rewrite Z.pow_add_r, Z.mul_assoc by lia.
      destruct s; unfold cond_Zopp; rewrite ?Z.rem_opp_l by lia;
        rewrite Z.rem_mul by lia; reflexivity.
    + assert (2 ^ (e + 1074) <= 2 ^ 1073) by (apply Z.pow_le_mono_r; lia).
      change (2 ^ 1074) with (2 * 2 ^ 1073).
      change (2 ^ 52) with 4503599627370496.
      change (2 ^ 53) with 9007199254740992 in Hm53.
      pose proof (pow2_pos 1073 ltac:(lia)). nia.
Qed.

Lemma Floor_represents (x : float64) (v : Z) :
  represents x v -> represents (Floor x) (v / 2 ^ 1074 * 2 ^ 1074).
Proof.
  intros Hx. pose proof Hx as (Vx & Fx & Hv).
  pose proof (pow2_pos 1074 ltac:(lia)) as PU.
  destruct x as [s | s | | [|] m e] eqn:Ex; try discriminate Fx.
  - simpl in Hv. subst v. cbn [Floor]. rewrite Z.div_0_l by lia. exact Hx.
  - rewrite <- Ex in *.
    assert (EF : Floor x
                 = let '(d, fract) := Modf (neg x) in
                   neg (if neqb fract (S754_zero false)
                        then add d (of_int 1) else d))
      by (rewrite Ex; reflexivity).
    rewrite EF. clear EF.
    pose proof (neg_represents x v Hx) as Hn.
    destruct (Modf_represents (neg x) (- v) Hn) as (Hd & Hf & _).
    destruct (Modf (neg x)) as [d fract]. cbn [fst snd] in Hd, Hf.
    assert (Hvneg : v < 0).
    { destruct (valid_finite_emin _ _ _ ltac:(rewrite Ex in Vx; exact Vx)) as [L _].
      pose proof (mag_pos m e L). rewrite Ex, val_mag in Hv.
      unfold cond_Zopp in Hv. lia. }
    rewrite Z.rem_mod_nonneg in Hf by lia.
    rewrite Z.quot_div_nonneg in Hd by lia.
    unfold neqb.
    rewrite (eqb_val fract (S754_zero false) _ 0 Hf ltac:(repeat split)).
    destruct (Z.eqb_spec ((- v) mod 2 ^ 1074) 0) as [Ez | Enz]; cbn [negb].
    + replace (v / 2 ^ 1074 * 2 ^ 1074) with (- (- v / 2 ^ 1074 * 2 ^ 1074)).
      * apply neg_represents. exact Hd.
      * pose proof (Z.div_opp_l_z (- v) (2 ^ 1074) ltac:(lia) Ez) as E.
        rewrite Z.opp_involutive in E. rewrite E. ring.
    + replace (v / 2 ^ 1074 * 2 ^ 1074)
        with (- (- v / 2 ^ 1074 * 2 ^ 1074 + 1 * 2 ^ 1074)).
      * apply neg_represents. apply add_exact; [exact Hd | |].
        -- apply of_int_exact. change (2 ^ 53) with 9007199254740992. lia.
        -- exists (- v / 2 ^ 1074 + 1), 1074. split; [ring |]. split; [| lia].
           assert (Hs : Z.abs (- v) < 2 ^ 52 * 2 ^ 1074).
           { apply (fraction_small (neg x)); [exact Hn |].
             rewrite Z.rem_mod_nonneg by lia. exact Enz. }
           rewrite Z.abs_eq in Hs by lia.
           assert (- v / 2 ^ 1074 < 2 ^ 52)
             by (apply Z.div_lt_upper_bound; lia).
           assert (0 <= - v / 2 ^ 1074) by (apply Z.div_pos; lia).
           change (2 ^ 53) with 9007199254740992.
           change (2 ^ 52) with 4503599627370496 in *. lia.
      * pose proof (Z.div_opp_l_nz (- v) (2 ^ 1074) ltac:(lia) Enz) as E.
        rewrite Z.opp_involutive in E. rewrite E. ring.
  - rewrite <- Ex in *.
    assert (EF : Floor x = fst (Modf x)) by (rewrite Ex; reflexivity).
    rewrite EF.
    destruct (Modf_represents x v Hx) as (Hd & _).
    assert (Hvpos : 0 < v).
    { destruct (valid_finite_emin _ _ _ ltac:(rewrite Ex in Vx; exact Vx)) as [L _].
      pose proof (mag_pos m e L). rewrite Ex, val_mag in Hv.
      unfold cond_Zopp in Hv. lia. }
    rewrite Z.quot_div_nonneg in Hd by lia. exact Hd.
Qed.

Lemma Ceil_represents (x : float64) (v : Z) :
  represents x v -> represents (Ceil x) (- (- v / 2 ^ 1074) * 2 ^ 1074).
Proof.
  intros Hx. unfold Ceil.
  replace (- (- v / 2 ^ 1074) * 2 ^ 1074) with (- (- v / 2 ^ 1074 * 2 ^ 1074)) by ring.
  apply neg_represents, Floor_represents, neg_represents. exact Hx.
Qed.

Lemma mul_one_l (x : float64) : valid x = true -> mul (pow10 0) x = x.
Proof.
  intros Vx. destruct x as [s | s | | s m e]; try reflexivity.
  destruct (valid_finite_emin _ _ _ Vx) as [L U]. unfold emin in L.
  destruct (valid_finite_digits _ _ _ Vx) as [D Dn]. unfold emin in Dn.
  change (pow10 0) with (S754_finite false 4503599627370496 (-52)).
  unfold mul, SFmul. cbn [xorb].
  assert (Hd : Zpos (digits2_pos (4503599627370496 * m)) = Zpos (digits2_pos m) + 52).
  { apply digits_mul_pow2; [lia |]. rewrite Pos2Z.inj_mul.
    change (Zpos 4503599627370496) with (2 ^ 52). ring. }
  rewrite (binary_round_aux_shr s (4503599627370496 * m) m (-52 + e) 52).
  - f_equal. lia.
  - rewrite Hd, fexp_eq. destruct (Z.eq_dec e (-1074)) as [-> | Hne]; [lia |].
    rewrite Dn by lia. lia.
  - rewrite Pos2Z.inj_mul. change (Zpos 4503599627370496) with (2 ^ 52).
    change (2 ^ Zpos 52) with (2 ^ 52). ring.
  - lia.
Qed.

(** The choice [round] makes between [Ceil] and [Floor], on integers:
    [U] is one unit, [h] half of it, [sgn] the sign bit of [v]. *)
Lemma round_half_up_Z (h v : Z) (sgn : bool) :
  0 < h -> (sgn = false -> 0 <= v) -> (sgn = true -> v <= 0) ->
  (if (if sgn then - h else h) <=? Z.rem v (2 * h)
   then - (- v / (2 * h)) else v / (2 * h))
  = (2 * v + 2 * h) / (2 * (2 * h)).
Proof.
  intros Hh Hpos Hneg. set (U := 2 * h).
  assert (HU : 0 < U) by (unfold U; lia).
  pose proof (Z.div_mod v U ltac:(lia)) as Hv.
  pose proof (Z.mod_pos_bound v U HU) as Hm.
  set (q := v / U) in *. set (m := v mod U) in *.
  assert (HC : - v / U = if m =? 0 then - q else - q - 1).
  { destruct (Z.eqb_spec m 0) as [E | E]; symmetry.
    - apply (Z.div_unique (- v) U (- q) 0); lia.
    - apply (Z.div_unique (- v) U (- q - 1) (U - m)); lia. }
  assert (HT : (2 * v + U) / (2 * U) = if h <=? m then q + 1 else q).
  { destruct (Z.leb_spec h m) as [E | E]; symmetry.
    - apply (Z.div_unique (2 * v + U) (2 * U) (q + 1) (2 * m - U)); unfold U in *; lia.
    - apply (Z.div_unique (2 * v + U) (2 * U) q (2 * m + U)); unfold U in *; lia. }
  assert (HR : Z.rem v U = if sgn then (if m =? 0 then 0 else m - U) else m).
  { destruct sgn.
    - specialize (Hneg eq_refl).
      rewrite <- (Z.opp_involutive v) at 1. rewrite Z.rem_opp_l by lia.
      rewrite Z.rem_mod_nonneg by lia.
      destruct (Z.eqb_spec m 0) as [E | E].
      + rewrite <- (Z.mod_unique (- v) U (- q) 0); lia.
      + rewrite <- (Z.mod_unique (- v) U (- q - 1) (U - m)); lia.
    - rewrite Z.rem_mod_nonneg by auto with zarith. reflexivity. }
  rewrite HR, HC, HT.
  destruct sgn; destruct (Z.eqb_spec m 0); destruct (Z.leb_spec h m);
    repeat match goal with
           | |- context [?a <=? ?b] => destruct (Z.leb_spec a b)
           end; unfold U in *; lia.
Qed.

Lemma sign_of_val (x : float64) (v : Z) :
  represents x v ->
  (signbit x = false -> 0 <= v) /\ (signbit x = true -> v <= 0).
Proof.
  intros Hx. destruct (Z.eq_dec v 0) as [-> | Hnz]; [split; lia |].
  rewrite (signbit_val x v Hx Hnz).
  destruct (Z.ltb_spec v 0); split; intros; try discriminate; lia.
Qed.

Lemma round_represents (val : float64) (v : Z) :
  represents val v ->
  represents (round val (of_dec 5 1) 0)
    ((2 * v + 2 ^ 1074) / (2 * 2 ^ 1074) * 2 ^ 1074).
Proof.
  intros Hx. pose proof Hx as (Vx & Fx & Hv).
  pose proof (pow2_pos 1074 ltac:(lia)) as PU.
  pose proof (pow2_pos 1073 ltac:(lia)) as Ph.
  unfold round. rewrite (mul_one_l val Vx).
  destruct (Modf_represents val v Hx) as (_ & Hf & Sf).
  destruct (Modf val) as [i div']. cbn [snd] in Hf, Sf.
  assert (Ed : Copysign div' val = div')
    by (unfold Copysign; rewrite Sf, eqb_reflx; reflexivity).
  rewrite Ed.
  change (of_dec 5 1) with (S754_finite false 4503599627370496 (-53)).
  set (half := S754_finite false 4503599627370496 (-53)).
  assert (Hhalf : represents half (2 ^ 1073)) by (repeat split).
  assert (Hro : represents (Copysign half val)
                  (if signbit val then - 2 ^ 1073 else 2 ^ 1073)).
  { unfold Copysign. change (signbit half) with false.
    destruct (signbit val); cbn [Bool.eqb]; [| exact Hhalf].
    exact (neg_represents half _ Hhalf). }
  unfold geb. rewrite (leb_val _ _ _ _ Hro Hf).
  destruct (sign_of_val val v Hx) as [Spos Sneg].
  pose proof (round_half_up_Z (2 ^ 1073) v (signbit val) Ph Spos Sneg) as HZ.
  change (2 * 2 ^ 1073) with (2 ^ 1074) in HZ.
  rewrite <- HZ. change (pow10 0) with (pow2 0).
  set (c := (if signbit val then - 2 ^ 1073 else 2 ^ 1073) <=? Z.rem v (2 ^ 1074)).
  assert (Hr : represents (if c then Ceil val else Floor val)
                 ((if c then - (- v / 2 ^ 1074) else v / 2 ^ 1074) * 2 ^ 1074)).
  { destruct c; [apply Ceil_represents | apply Floor_represents]; exact Hx. }
  set (R := if c then - (- v / 2 ^ 1074) else v / 2 ^ 1074) in *.
  apply (div_pow2_exact _ (R * 2 ^ 1074)); [exact Hr | lia | | ].
  - change (2 ^ 0) with 1. ring.
  - destruct (Z.eq_dec R 0) as [-> | Hnz]; [left; reflexivity | right].
    rewrite Z.abs_mul, (Z.abs_eq (2 ^ 1074)) by lia.
    apply Z.le_trans with (1 * 2 ^ 1074).
    + rewrite Z.mul_1_l. apply Z.pow_le_mono_r; lia.
    + apply Z.mul_le_mono_nonneg_r; lia.
Qed.

(** *** The step counts of [BboxesInt] *)

Lemma to_int_integer (x : float64) (k : Z) :
  represents x (k * 2 ^ 1074) -> - 2 ^ 63 <= k < 2 ^ 63 -> to_int x = k.
Proof.
  intros (Vx & Fx & Hx) Hk. unfold to_int.
  rewrite (trunc_Z_val x Vx Fx), Hx.
  rewrite Z.quot_mul by (pose proof (pow2_pos 1074); lia).
  replace ((- 2 ^ 63 <=? k) && (k <? 2 ^ 63)) with true; [reflexivity |].
  symmetry. apply andb_true_intro. split; [apply Z.leb_le | apply Z.ltb_lt]; lia.
Qed.

Lemma round_integer (x : float64) (k : Z) :
  represents x (k * 2 ^ 1074) ->
  represents (round x (of_dec 5 1) 0) (k * 2 ^ 1074).
Proof.
  intros Hx. pose proof (round_represents x _ Hx) as R.
  pose proof (pow2_pos 1074 ltac:(lia)) as PU.
  replace ((2 * (k * 2 ^ 1074) + 2 ^ 1074) / (2 * 2 ^ 1074)) with k in R;
    [exact R |].
  apply (Z.div_unique _ _ k (2 ^ 1074)); lia.
Qed.

Lemma step_count (H s j0 j1 : Z) (lo1 lo0 err : float64) :
  0 < H <= 180 -> 1 <= s <= 26 -> 0 <= j0 <= 2 ^ s -> 0 <= j1 <= 2 ^ s ->
  represents lo1 (grid H s j1) -> represents lo0 (grid H s j0) ->
  represents err (H * 2 ^ (1074 - s)) ->
  to_int (round (div (sub lo1 lo0) (mul err (of_int 2))) (of_dec 5 1) 0)
  = j1 - j0.
Proof.
  intros HH Hs Hj0 Hj1 H1 H0 He.
  assert (Hs2 : 2 ^ s <= 2 ^ 26) by (apply Z.pow_le_mono_r; lia).
  change (2 ^ 26) with 67108864 in Hs2.
  pose proof (pow2_pos (1074 - s) ltac:(lia)) as Pq.
  assert (Pbig : 2 ^ 1048 <= 2 ^ (1074 - s)) by (apply Z.pow_le_mono_r; lia).
  assert (Hsub : represents (sub lo1 lo0) (grid H s j1 - grid H s j0)).
  { apply sub_exact; [exact H1 | exact H0 |]. rewrite grid_diff.
    replace (H * 2 ^ (1074 - s) * 2 * (j1 - j0))
      with (2 * H * (j1 - j0) * 2 ^ (1074 - s)) by ring.
    apply exact_scaled; [| lia].
    change (2 ^ 53) with 9007199254740992. apply Z.abs_lt. nia. }
  assert (Hper : represents (mul err (of_int 2)) (2 * H * 2 ^ (1074 - s))).
  { apply (mul_exact err (of_int 2) (H * 2 ^ (1074 - s)) (2 * 2 ^ 1074)).
    - exact He.
    - apply of_int_exact. change (2 ^ 53) with 9007199254740992. lia.
    - rewrite Z.abs_eq by nia.
      apply Z.le_trans with (1 * 2 ^ 1048); [| nia].
      rewrite Z.mul_1_l. apply Z.pow_le_mono_r; lia.
    - pose proof (pow2_pos 1074 ltac:(lia)). rewrite Z.abs_eq by lia.
      apply Z.le_trans with (1 * 2 ^ 1074); [| lia].
      rewrite Z.mul_1_l. apply Z.pow_le_mono_r; lia.
    - ring.
    - apply exact_scaled; [| lia].
      change (2 ^ 53) with 9007199254740992. apply Z.abs_lt. lia.
    - rewrite Z.abs_eq by nia.
      apply Z.le_trans with (1 * 2 ^ 1048); [| nia].
      rewrite Z.mul_1_l. apply Z.pow_le_mono_r; lia. }
  assert (Hdiv : represents (div (sub lo1 lo0) (mul err (of_int 2)))
                   ((j1 - j0) * 2 ^ 1074)).
  { apply (div_exact_int _ _ _ _ (j1 - j0) Hsub Hper).
    - nia.
    - rewrite grid_diff. ring.
    - change (2 ^ 53) with 9007199254740992. apply Z.abs_lt. lia. }
  apply to_int_integer; [apply round_integer; exact Hdiv |].
  int64_lia.
Qed.

(** *** The two loops of [BboxesInt] *)

Lemma BboxesInt_lng_run (d hsw : Z) (lngStep : float64) (lat K : Z) (f : Z -> Z) :
  to_int lngStep = K -> K < 2 ^ 62 ->
  (forall j, 0 <= j <= K -> NeighborInt hsw (mkBearing lat j) d = Ok (f j)) ->
  forall (fuel : nat) (lng : Z) (out : list Z),
    0 <= lng -> K + 1 - lng <= Z.of_nat fuel ->
    BboxesInt_lng fuel hsw d lngStep lat lng out
    = Ok (out ++ map (fun j => f (Z.of_nat j))
                   (seq (Z.to_nat lng) (Z.to_nat (K + 1 - lng)))).
Proof.
  intros HK Hb Hf. change (2 ^ 62) with 4611686018427387904 in Hb.
  induction fuel as [| fuel IH]; intros lng out Hlng Hfuel;
    cbn [BboxesInt_lng]; rewrite HK;
    destruct (Z.leb_spec lng K) as [Hle | Hgt]; try lia.
  - replace (Z.to_nat (K + 1 - lng)) with 0%nat by lia.
    cbn [seq map]. rewrite app_nil_r. reflexivity.
  - rewrite (Hf lng) by lia. cbn [bind].
    rewrite wrap64_small by int64_lia.
    rewrite IH by lia. f_equal. rewrite <- app_assoc. f_equal.
    replace (Z.to_nat (K + 1 - lng)) with (S (Z.to_nat (K + 1 - (lng + 1)))) by lia.
    replace (Z.to_nat (lng + 1)) with (S (Z.to_nat lng)) by lia.
    cbn [seq map app]. rewrite Z2Nat.id by lia. reflexivity.
  - replace (Z.to_nat (K + 1 - lng)) with 0%nat by lia.
    cbn [seq map]. rewrite app_nil_r. reflexivity.
Qed.

Lemma BboxesInt_lat_run (d hsw : Z) (latStep lngStep : float64) (Kr Kc : Z)
  (F : Z -> Z -> Z) :
  to_int latStep = Kr -> Kr < 2 ^ 62 ->
  to_int lngStep = Kc -> Kc < 2 ^ 62 ->
  (forall i j, 0 <= i <= Kr -> 0 <= j <= Kc ->
     NeighborInt hsw (mkBearing i j) d = Ok (F i j)) ->
  forall (fuel : nat) (lat : Z) (out : list Z),
    0 <= lat -> Kr + 1 - lat <= Z.of_nat fuel ->
    BboxesInt_lat fuel hsw d latStep lngStep lat out
    = Ok (out ++ flat_map
                   (fun i => map (fun j => F (Z.of_nat i) (Z.of_nat j))
                               (seq 0 (Z.to_nat (Kc + 1))))
                   (seq (Z.to_nat lat) (Z.to_nat (Kr + 1 - lat)))).
Proof.
  intros HKr Hbr HKc Hbc HF. change (2 ^ 62) with 4611686018427387904 in Hbr.
  induction fuel as [| fuel IH]; intros lat out Hlat Hfuel;
    cbn [BboxesInt_lat]; rewrite HKr;
    destruct (Z.leb_spec lat Kr) as [Hle | Hgt]; try lia.
  - replace (Z.to_nat (Kr + 1 - lat)) with 0%nat by lia.
    cbn [seq flat_map]. rewrite app_nil_r. reflexivity.
  - rewrite HKc.
    rewrite (BboxesInt_lng_run d hsw lngStep lat Kc (F lat) HKc Hbc)
      by (try lia; intros j Hj; apply HF; lia).
    cbn [bind]. rewrite wrap64_small by int64_lia.
    rewrite IH by lia. f_equal. rewrite <- app_assoc. f_equal.
    replace (Z.to_nat (Kr + 1 - lat)) with (S (Z.to_nat (Kr + 1 - (lat + 1)))) by lia.
    replace (Z.to_nat (lat + 1)) with (S (Z.to_nat lat)) by lia.
    cbn [seq flat_map]. rewrite Z2Nat.id by lia.
    replace (Kc + 1 - 0) with (Kc + 1) by lia. reflexivity.
  - replace (Z.to_nat (Kr + 1 - lat)) with 0%nat by lia.
    cbn [seq flat_map]. rewrite app_nil_r. reflexivity.
Qed.

(** A list written row by row. *)
Lemma rows_length (A : Type) (F : nat -> nat -> A) (C R a : nat) :
  List.length (flat_map (fun i => map (F i) (seq 0 C)) (seq a R)) = (R * C)%nat.
Proof.
  revert a. induction R as [| R IH]; intros a; cbn [seq flat_map]; [reflexivity |].
  rewrite length_app, length_map, length_seq, IH. reflexivity.
Qed.

Lemma rows_nth (A : Type) (F : nat -> nat -> A) (C R a i j : nat) :
  (i < R)%nat -> (j < C)%nat ->
  nth_error (flat_map (fun i => map (F i) (seq 0 C)) (seq a R)) (i * C + j)
  = Some (F (a + i)%nat j).
Proof.
  revert a i. induction R as [| R IH]; intros a i Hi Hj; [lia |].
  cbn [seq flat_map]. destruct i as [| i].
  - cbn [Nat.mul Nat.add]. rewrite nth_error_app1 by (rewrite length_map, length_seq; lia).
    rewrite nth_error_map, nth_error_seq.
    destruct (Nat.ltb_spec j C); [| lia]. rewrite Nat.add_0_r. reflexivity.
  - rewrite nth_error_app2 by (rewrite length_map, length_seq; cbn; lia).
    rewrite length_map, length_seq.
    replace (S i * C + j - C)%nat with (i * C + j)%nat by (cbn; lia).
    rewrite IH by lia. f_equal. f_equal. lia.
Qed.

Lemma BboxesInt_rows (minLat minLon maxLat maxLon : float64) (d : Z) :
  valid_depth d ->
  exists hsw hne l,
    EncodeInt minLat minLon d = Ok hsw /\
    EncodeInt maxLat maxLon d = Ok hne /\
    BboxesInt minLat minLon maxLat maxLon d = Ok l /\
    let s := Z.quot d 2 in
    let rows := rowOf hne s - rowOf hsw s + 1 in
    let cols := colOf hne s - colOf hsw s + 1 in
    (rows <= 0 \/ cols <= 0 -> l = []) /\
    (0 < rows -> 0 < cols ->
     List.length l = Z.to_nat (rows * cols) /\
     forall i j, 0 <= i < rows -> 0 <= j < cols ->
       exists n,
         nth_error l (Z.to_nat (i * cols + j)) = Some n /\
         NeighborInt hsw (mkBearing i j) d = Ok n /\
         0 <= n < 2 ^ d /\
         rowOf n s = rowOf hsw s + i /\ colOf n s = colOf hsw s + j).
Proof.
  intros Hd. destruct (valid_depth_steps d Hd) as [Hs Hds].
  destruct (EncodeInt_total minLat minLon d Hd) as (v0 & _ & _ & E0 & R0).
  destruct (EncodeInt_total maxLat maxLon d Hd) as (v1 & _ & _ & E1 & R1).
  set (hsw := geohash v0) in *. set (hne := geohash v1) in *.
  assert (B : forall n, 0 <= n < 2 ^ d -> 0 <= n < 2 ^ 53).
  { intros n Hn. split; [lia |]. apply Z.lt_le_trans with (2 ^ d); [lia |].
    apply Z.pow_le_mono_r; destruct Hd; lia. }
  destruct (DecodeInt_cells hsw d Hd (B hsw R0))
    as (sw & p & Bsw & Psw & [Lsw _] & [_ Gsw] & _ & _ & Elat & Elng).
  destruct (DecodeInt_cells hne d Hd (B hne R1))
    as (ne & p1 & Bne & _ & [Lne _] & [_ Gne] & _).
  set (s := Z.quot d 2) in *.
  pose proof (rowOf_range hsw s ltac:(lia)) as Rr0.
  pose proof (colOf_range hsw s ltac:(lia)) as Rc0.
  pose proof (rowOf_range hne s ltac:(lia)) as Rr1.
  pose proof (colOf_range hne s ltac:(lia)) as Rc1.
  assert (Hs2 : 2 ^ s <= 2 ^ 26) by (apply Z.pow_le_mono_r; lia).
  change (2 ^ 26) with 67108864 in Hs2.
  set (Kr := rowOf hne s - rowOf hsw s). set (Kc := colOf hne s - colOf hsw s).
  pose proof (step_count 90 s (rowOf hsw s) (rowOf hne s) _ _ _
                ltac:(lia) ltac:(lia) ltac:(lia) ltac:(lia) Lne Lsw Elat) as Slat.
  pose proof (step_count 180 s (colOf hsw s + 1) (colOf hne s + 1) _ _ _
                ltac:(lia) ltac:(lia) ltac:(lia) ltac:(lia) Gne Gsw Elng) as Slng.
  replace (colOf hne s + 1 - (colOf hsw s + 1)) with Kc in Slng by (unfold Kc; lia).
  fold Kr in Slat.
  set (F := fun i j : Z =>
              match NeighborInt hsw (mkBearing i j) d with
              | Ok n => n
              | _ => 0
              end).
  assert (HF : forall i j, NeighborInt hsw (mkBearing i j) d = Ok (F i j)).
  { intros i j. unfold F.
    destruct (NeighborInt_ok hsw (mkBearing i j) d Hd) as [n ->]. reflexivity. }
  exists hsw, hne.
  eexists. split; [exact E0 | split; [exact E1 |]]. split.
  - unfold BboxesInt. rewrite (validateBitDepth_ok d Hd). cbn [bind].
    rewrite E0, E1. cbn [bind]. rewrite Psw, Bsw, Bne. cbn [bind].
    rewrite Slat.
    rewrite (BboxesInt_lat_run d hsw _ _ Kr Kc F Slat
               ltac:(change (2 ^ 62) with 4611686018427387904; unfold Kr; lia)
               Slng
               ltac:(change (2 ^ 62) with 4611686018427387904; unfold Kc; lia)
               ltac:(intros; apply HF)) by lia.
    cbn [app]. reflexivity.
  - cbn zeta. fold Kr Kc.
    replace (Z.to_nat 0) with 0%nat by reflexivity.
    replace (Kr + 1 - 0) with (Kr + 1) by lia.
    set (C := Z.to_nat (Kc + 1)). set (R := Z.to_nat (Kr + 1)).
    set (G := fun i j : nat => F (Z.of_nat i) (Z.of_nat j)).
    change (flat_map (fun i : nat => map (fun j : nat => F (Z.of_nat i) (Z.of_nat j)) (seq 0 C)) (seq 0 R))
      with (flat_map (fun i => map (G i) (seq 0 C)) (seq 0 R)).
    split.
    + intros Hz. apply length_zero_iff_nil. rewrite rows_length.
      destruct Hz; [replace R with 0%nat by lia | replace C with 0%nat by lia]; lia.
    + intros Hr Hc. split.
      * rewrite rows_length. unfold R, C. rewrite Z2Nat.inj_mul by lia. reflexivity.
      * intros i j Hi Hj. exists (F i j).
        split; [| split; [apply HF |]].
        -- replace (Z.to_nat (i * (Kc + 1) + j))
             with (Z.to_nat i * C + Z.to_nat j)%nat by (unfold C; nia).
           rewrite rows_nth by (unfold R, C; lia).
           unfold G. cbn [Nat.add]. rewrite !Z2Nat.id by lia. reflexivity.
        -- destruct (NeighborInt_moves hsw (mkBearing i j) d Hd (B hsw R0))
             as (n & Hn & Rn & Er & Ec);
             try (cbn [x y]; change (2 ^ 32) with 4294967296; lia).
           rewrite HF in Hn. injection Hn as <-.
           fold s in Er, Ec. cbn [x y] in Er, Ec.
           rewrite clamp_inside in Er, Ec by (unfold Kr, Kc in *; lia).
           auto.
Qed.

(** * Further properties of the package *)

(** ** [EncodeInt] *)

(** X1.  For finite coordinates and a valid bit depth, [EncodeInt] returns
    [g] exactly when [g] is the hash in [[0, 2^d)] whose row holds the
    latitude and whose column holds the longitude.  A cell is open below
    and closed above; the first and last cells of a row or column also
    take everything beyond their outer edge. *)
Theorem EncodeInt_cell_of_point (latitude longitude : float64) (d la ln g : Z) :
  valid_depth d ->
  represents latitude la -> represents longitude ln ->
  EncodeInt latitude longitude d = Ok g <->
  0 <= g < 2 ^ d /\
  in_cell 90 (Z.quot d 2) (rowOf g (Z.quot d 2)) la /\
  in_cell 180 (Z.quot d 2) (colOf g (Z.quot d 2)) ln.
Proof. exact (EncodeInt_cell_iff latitude longitude d la ln g). Qed.

Lemma EncodeInt_cell_of_point_witness :
  EncodeInt (of_int 48) (of_int 2) 32 = Ok 3490855088 <->
  0 <= 3490855088 < 2 ^ 32 /\
  in_cell 90 (Z.quot 32 2) (rowOf 3490855088 (Z.quot 32 2)) (48 * 2 ^ 1074) /\
  in_cell 180 (Z.quot 32 2) (colOf 3490855088 (Z.quot 32 2)) (2 * 2 ^ 1074).
Proof.
  apply EncodeInt_cell_of_point.
  - split; [lia | reflexivity].
  - repeat split.
  - repeat split.
Defined.

(** X2.  [EncodeInt] does not turn down coordinates outside the domain: a
    finite point is encoded as the nearest point of
    [[-90, 90] x [-180, 180]]. *)
Theorem EncodeInt_saturates (latitude longitude latitude' longitude' : float64)
  (d la ln : Z) :
  valid_depth d ->
  represents latitude la -> represents longitude ln ->
  represents latitude' (Z.max (- 90 * 2 ^ 1074) (Z.min (90 * 2 ^ 1074) la)) ->
  represents longitude' (Z.max (- 180 * 2 ^ 1074) (Z.min (180 * 2 ^ 1074) ln)) ->
  EncodeInt latitude longitude d = EncodeInt latitude' longitude' d.
Proof.
  intros Hd Hla Hln Hla' Hln'. destruct (valid_depth_steps d Hd) as [Hs Hds].
  destruct (EncodeInt_cell latitude longitude d la ln Hd Hla Hln)
    as (g & Hg & Rg & Clat & Clng).
  rewrite Hg. symmetry.
  apply (EncodeInt_cell_iff latitude' longitude' d _ _ g Hd Hla' Hln').
  split; [exact Rg | split].
  - apply in_cell_saturate; try lia; [apply rowOf_range; lia | exact Clat].
  - apply in_cell_saturate; try lia; [apply colOf_range; lia | exact Clng].
Qed.

Lemma EncodeInt_saturates_witness :
  EncodeInt (of_int 100) (of_int (-200)) 32
  = EncodeInt (of_int 90) (of_int (-180)) 32.
Proof.
  apply (EncodeInt_saturates _ _ _ _ 32 (100 * 2 ^ 1074) (- 200 * 2 ^ 1074)).
  - split; [lia | reflexivity].
  - repeat split.
  - repeat split.
  - repeat split.
  - repeat split.
Defined.

(** X3.  The hash of a point at a valid depth [d] is the top [d] bits of
    its hash at any deeper valid depth [d'], for every pair of floats. *)
Theorem EncodeInt_prefix (latitude longitude : float64) (d d' : Z) :
  valid_depth d -> valid_depth d' -> d <= d' ->
  exists g g',
    EncodeInt latitude longitude d = Ok g /\
    EncodeInt latitude longitude d' = Ok g' /\
    0 <= g' < 2 ^ d' /\
    g * 2 ^ (d' - d) <= g' < (g + 1) * 2 ^ (d' - d) /\
    g = Z.shiftr g' (d' - d).
Proof. exact (EncodeInt_top_bits latitude longitude d d'). Qed.

Lemma EncodeInt_prefix_witness :
  exists g g',
    EncodeInt (of_int 48) (of_int 2) 20 = Ok g /\
    EncodeInt (of_int 48) (of_int 2) 52 = Ok g' /\
    0 <= g' < 2 ^ 52 /\
    g * 2 ^ (52 - 20) <= g' < (g + 1) * 2 ^ (52 - 20) /\
    g = Z.shiftr g' (52 - 20).
Proof.
  apply EncodeInt_prefix.
  - split; [lia | reflexivity].
  - split; [lia | reflexivity].
  - lia.
Defined.

(** X4.  At a valid depth, encoding the centre that [DecodeInt] returns for
    the hash of a point gives the hash of the point again, for every pair
    of floats. *)
Theorem EncodeInt_of_centre (latitude longitude : float64) (d : Z) :
  valid_depth d ->
  exists h p,
    EncodeInt latitude longitude d = Ok h /\
    DecodeInt h d = Ok p /\
    EncodeInt (lat p) (lng p) d = Ok h.
Proof.
  intros Hd.
  destruct (EncodeInt_total latitude longitude d Hd) as (v & _ & _ & E & R).
  assert (R53 : 0 <= geohash v < 2 ^ 53).
  { split; [lia |]. apply Z.lt_le_trans with (2 ^ d); [lia |].
    apply Z.pow_le_mono_r; destruct Hd; lia. }
  destruct (DecodeInt_cells (geohash v) d Hd R53)
    as (b & p & _ & Hp & _ & _ & Plat & Plng & _).
  exists (geohash v), p. split; [exact E | split; [exact Hp |]].
  exact (EncodeInt_centre (lat p) (lng p) (geohash v) d Hd R Plat Plng).
Qed.

Lemma EncodeInt_of_centre_witness :
  exists h p,
    EncodeInt (of_dec 378324 4) (of_dec 1125584 4) 52 = Ok h /\
    DecodeInt h 52 = Ok p /\
    EncodeInt (lat p) (lng p) 52 = Ok h.
Proof.
  apply EncodeInt_of_centre. split; [lia | reflexivity].
Defined.

(** ** [Shift] *)

(** X5.  For a hash [value] of a valid depth [d], [Shift] returns
    [value * 2^(52 - d)] without overflow, a hash of depth 52, and
    shifting it right by [52 - d] gives [value] back. *)
Theorem Shift_exact (value d : Z) :
  valid_depth d -> 0 <= value < 2 ^ d ->
  Shift value d = Ok (value * 2 ^ (52 - d)) /\
  0 <= value * 2 ^ (52 - d) < 2 ^ 52 /\
  Z.shiftr (value * 2 ^ (52 - d)) (52 - d) = value.
Proof. exact (Shift_scale value d). Qed.

Lemma Shift_exact_witness :
  Shift 852259 20 = Ok (852259 * 2 ^ (52 - 20)) /\
  0 <= 852259 * 2 ^ (52 - 20) < 2 ^ 52 /\
  Z.shiftr (852259 * 2 ^ (52 - 20)) (52 - 20) = 852259.
Proof.
  apply Shift_exact.
  - split; [lia | reflexivity].
  - split; [lia | reflexivity].
Defined.

(** X6.  [Shift] of the hash of a point at depth [d] is the least hash of
    depth 52 in the cell of the point: the hash of the point at depth 52
    lies at most [2^(52 - d) - 1] above it. *)
Theorem Shift_brackets_EncodeInt (latitude longitude : float64) (d : Z) :
  valid_depth d ->
  exists g g52 sh,
    EncodeInt latitude longitude d = Ok g /\
    EncodeInt latitude longitude 52 = Ok g52 /\
    Shift g d = Ok sh /\
    sh <= g52 < sh + 2 ^ (52 - d).
Proof.
  intros Hd.
  assert (H52 : valid_depth 52) by (split; [lia | reflexivity]).
  destruct (EncodeInt_top_bits latitude longitude d 52 Hd H52 ltac:(destruct Hd; lia))
    as (g & g52 & Hg & Hg52 & R52 & [Lo Hi] & Sh).
  assert (Rg : 0 <= g < 2 ^ d).
  { destruct (EncodeInt_total latitude longitude d Hd) as (v & _ & _ & Ev & Rv).
    rewrite Hg in Ev. injection Ev as ->. exact Rv. }
  destruct (Shift_scale g d Hd Rg) as (Hs & _ & _).
  exists g, g52, (g * 2 ^ (52 - d)). repeat split; try assumption; lia.
Qed.

Lemma Shift_brackets_EncodeInt_witness :
  exists g g52 sh,
    EncodeInt (of_int 48) (of_int 2) 20 = Ok g /\
    EncodeInt (of_int 48) (of_int 2) 52 = Ok g52 /\
    Shift g 20 = Ok sh /\
    sh <= g52 < sh + 2 ^ (52 - 20).
Proof.
  apply Shift_brackets_EncodeInt. split; [lia | reflexivity].
Defined.

(** ** The decoders *)

(** X7.  A hash below zero is decoded as its absolute value, at every
    depth: [getBit] truncates the quotient towards zero and keeps its
    lowest bit. *)
Theorem decoders_ignore_sign (h d : Z) (b : bearing) :
  0 <= h < 2 ^ 53 ->
  DecodeBboxInt (- h) d = DecodeBboxInt h d /\
  DecodeInt (- h) d = DecodeInt h d /\
  NeighborInt (- h) b d = NeighborInt h b d.
Proof.
  intros Hh. pose proof (DecodeBboxInt_opp h d Hh) as E.
  assert (E' : DecodeInt (- h) d = DecodeInt h d)
    by (unfold DecodeInt; rewrite E; reflexivity).
  split; [exact E | split; [exact E' |]].
  unfold NeighborInt. rewrite E'. reflexivity.
Qed.

Lemma decoders_ignore_sign_witness :
  DecodeBboxInt (- 1702789509) 32 = DecodeBboxInt 1702789509 32 /\
  DecodeInt (- 1702789509) 32 = DecodeInt 1702789509 32 /\
  NeighborInt (- 1702789509) North 32 = NeighborInt 1702789509 North 32.
Proof.
  apply (decoders_ignore_sign 1702789509 32 North). split; [lia | reflexivity].
Defined.

(** X8.  At a valid depth [d], two hashes in [[0, 2^d)] with the same
    bounding box, or with the same centre and error terms, are equal. *)
Theorem decode_injective (g h d : Z) :
  valid_depth d -> 0 <= g < 2 ^ d -> 0 <= h < 2 ^ d ->
  (DecodeBboxInt g d = DecodeBboxInt h d -> g = h) /\
  (DecodeInt g d = DecodeInt h d -> g = h).
Proof.
  intros Hd Hg Hh. split.
  - exact (DecodeBboxInt_inj g h d Hd Hg Hh).
  - exact (DecodeInt_inj g h d Hd Hg Hh).
Qed.

Lemma decode_injective_witness :
  (DecodeBboxInt 5 4 = DecodeBboxInt 9 4 -> 5 = 9) /\
  (DecodeInt 5 4 = DecodeInt 9 4 -> 5 = 9).
Proof.
  apply decode_injective.
  - split; [lia | reflexivity].
  - split; [lia | reflexivity].
  - split; [lia | reflexivity].
Defined.

(** X9.  The box of a hash in [[0, 2^53)] at a valid depth of [2 s] bits,
    as rational numbers: with [r] the row and [c] the column of the hash,
    latitudes from [-90 + 180 r / 2^s] to [-90 + 180 (r + 1) / 2^s] and
    longitudes from [-180 + 360 c / 2^s] to [-180 + 360 (c + 1) / 2^s]. *)
Theorem DecodeBboxInt_closed_form (h d : Z) :
  valid_depth d -> 0 <= h < 2 ^ 53 ->
  exists b,
    DecodeBboxInt h d = Ok b /\
    (to_Q (bMinLat b)
     == inject_Z (-90) + inject_Z (180 * rowOf h (Z.quot d 2)) / inject_Z (2 ^ Z.quot d 2))%Q /\
    (to_Q (bMaxLat b)
     == inject_Z (-90) + inject_Z (180 * (rowOf h (Z.quot d 2) + 1)) / inject_Z (2 ^ Z.quot d 2))%Q /\
    (to_Q (bMinLng b)
     == inject_Z (-180) + inject_Z (360 * colOf h (Z.quot d 2)) / inject_Z (2 ^ Z.quot d 2))%Q /\
    (to_Q (bMaxLng b)
     == inject_Z (-180) + inject_Z (360 * (colOf h (Z.quot d 2) + 1)) / inject_Z (2 ^ Z.quot d 2))%Q.
Proof.
  intros Hd Hh. destruct (valid_depth_steps d Hd) as [Hs _].
  destruct (DecodeInt_cells h d Hd Hh) as (b & p & Hb & _ & [L1 L2] & [G1 G2] & _).
  exists b. split; [exact Hb |].
  pose proof (to_Q_grid _ _ _ _ L1 ltac:(lia)) as E1.
  pose proof (to_Q_grid _ _ _ _ L2 ltac:(lia)) as E2.
  pose proof (to_Q_grid _ _ _ _ G1 ltac:(lia)) as E3.
  pose proof (to_Q_grid _ _ _ _ G2 ltac:(lia)) as E4.
  repeat split; assumption.
Qed.

Lemma DecodeBboxInt_closed_form_witness :
  exists b,
    DecodeBboxInt 1702789509 32 = Ok b /\
    (to_Q (bMinLat b)
     == inject_Z (-90) + inject_Z (180 * rowOf 1702789509 (Z.quot 32 2)) / inject_Z (2 ^ Z.quot 32 2))%Q /\
    (to_Q (bMaxLat b)
     == inject_Z (-90) + inject_Z (180 * (rowOf 1702789509 (Z.quot 32 2) + 1)) / inject_Z (2 ^ Z.quot 32 2))%Q /\
    (to_Q (bMinLng b)
     == inject_Z (-180) + inject_Z (360 * colOf 1702789509 (Z.quot 32 2)) / inject_Z (2 ^ Z.quot 32 2))%Q /\
    (to_Q (bMaxLng b)
     == inject_Z (-180) + inject_Z (360 * (colOf 1702789509 (Z.quot 32 2) + 1)) / inject_Z (2 ^ Z.quot 32 2))%Q.
Proof.
  apply DecodeBboxInt_closed_form.
  - split; [lia | reflexivity].
  - split; [lia | reflexivity].
Defined.

(** ** [NeighborInt] *)

(** X10.  For a hash in [[0, 2^53)], a valid depth and a bearing of at most
    [2^32] cells each way, [NeighborInt] returns the hash of the cell
    [x] rows to the north and [y] columns to the east, stopping at the
    border of the grid: it does not wrap around, neither at the poles nor
    at the antimeridian. *)
Theorem NeighborInt_cell (h : Z) (b : bearing) (d : Z) :
  valid_depth d -> 0 <= h < 2 ^ 53 ->
  Z.abs (x b) <= 2 ^ 32 -> Z.abs (y b) <= 2 ^ 32 ->
  exists n,
    NeighborInt h b d = Ok n /\ 0 <= n < 2 ^ d /\
    rowOf n (Z.quot d 2) = clamp (Z.quot d 2) (rowOf h (Z.quot d 2) + x b) /\
    colOf n (Z.quot d 2) = clamp (Z.quot d 2) (colOf h (Z.quot d 2) + y b).
Proof. exact (NeighborInt_moves h b d). Qed.

Lemma NeighborInt_cell_witness :
  exists n,
    NeighborInt 1702789509 North 32 = Ok n /\ 0 <= n < 2 ^ 32 /\
    rowOf n (Z.quot 32 2) = clamp (Z.quot 32 2) (rowOf 1702789509 (Z.quot 32 2) + x North) /\
    colOf n (Z.quot 32 2) = clamp (Z.quot 32 2) (colOf 1702789509 (Z.quot 32 2) + y North).
Proof.
  apply NeighborInt_cell.
  - split; [lia | reflexivity].
  - split; [lia | reflexivity].
  - cbn. lia.
  - cbn. lia.
Defined.

(** X11.  A step that the border stops entirely leaves a hash of
    [[0, 2^d)] where it is: [NeighborInt] returns the hash itself; so it
    does for the bearing [{0, 0}]. *)
Theorem NeighborInt_fixed (h : Z) (b : bearing) (d : Z) :
  valid_depth d -> 0 <= h < 2 ^ d ->
  Z.abs (x b) <= 2 ^ 32 -> Z.abs (y b) <= 2 ^ 32 ->
  clamp (Z.quot d 2) (rowOf h (Z.quot d 2) + x b) = rowOf h (Z.quot d 2) ->
  clamp (Z.quot d 2) (colOf h (Z.quot d 2) + y b) = colOf h (Z.quot d 2) ->
  NeighborInt h b d = Ok h.
Proof.
  intros Hd Hh Hx Hy Hr Hc.
  assert (Hh53 : 0 <= h < 2 ^ 53).
  { split; [lia |]. apply Z.lt_le_trans with (2 ^ d); [lia |].
    apply Z.pow_le_mono_r; destruct Hd; lia. }
  destruct (NeighborInt_moves h b d Hd Hh53 Hx Hy) as (n & Hn & Rn & Er & Ec).
  rewrite Hn. f_equal. apply (hash_of_cell n h d Hd Rn Hh); congruence.
Qed.

Lemma NeighborInt_fixed_witness :
  NeighborInt (2 ^ 32 - 1) NorthEast 32 = Ok (2 ^ 32 - 1).
Proof.
  apply NeighborInt_fixed.
  - split; [lia | reflexivity].
  - split; [discriminate | reflexivity].
  - cbn. lia.
  - cbn. lia.
  - vm_compute. reflexivity.
  - vm_compute. reflexivity.
Defined.

(** X12.  When the neighbour of a hash of [[0, 2^d)] lies inside the grid,
    the step with the opposite bearing leads back to the hash. *)
Theorem NeighborInt_inverse (h : Z) (b : bearing) (d : Z) :
  valid_depth d -> 0 <= h < 2 ^ d ->
  0 <= rowOf h (Z.quot d 2) + x b < 2 ^ Z.quot d 2 ->
  0 <= colOf h (Z.quot d 2) + y b < 2 ^ Z.quot d 2 ->
  exists n,
    NeighborInt h b d = Ok n /\
    NeighborInt n (mkBearing (- x b) (- y b)) d = Ok h.
Proof.
  intros Hd Hh Hr Hc. destruct (valid_depth_steps d Hd) as [Hs Hds].
  set (s := Z.quot d 2) in *.
  pose proof (rowOf_range h s ltac:(lia)) as Rr.
  pose proof (colOf_range h s ltac:(lia)) as Rc.
  assert (Hs2 : 2 ^ s <= 2 ^ 26) by (apply Z.pow_le_mono_r; lia).
  change (2 ^ 26) with 67108864 in Hs2.
  assert (Hh53 : 0 <= h < 2 ^ 53).
  { split; [lia |]. apply Z.lt_le_trans with (2 ^ d); [lia |].
    apply Z.pow_le_mono_r; destruct Hd; lia. }
  assert (Hn53 : forall n, 0 <= n < 2 ^ d -> 0 <= n < 2 ^ 53).
  { intros n Hn. split; [lia |]. apply Z.lt_le_trans with (2 ^ d); [lia |].
    apply Z.pow_le_mono_r; destruct Hd; lia. }
  destruct (NeighborInt_moves h b d Hd Hh53) as (n & Hn & Rn & Er & Ec);
    try (change (2 ^ 32) with 4294967296; lia).
  fold s in Er, Ec. rewrite clamp_inside in Er, Ec by lia.
  exists n. split; [exact Hn |].
  destruct (NeighborInt_moves n (mkBearing (- x b) (- y b)) d Hd (Hn53 n Rn))
    as (m & Hm & Rm & Er' & Ec');
    try (cbn [x y]; change (2 ^ 32) with 4294967296; lia).
  fold s in Er', Ec'. cbn [x y] in Er', Ec'.
  rewrite Er in Er'. rewrite Ec in Ec'.
  rewrite clamp_inside in Er', Ec' by lia.
  rewrite Hm. f_equal. apply (hash_of_cell m h d Hd Rm Hh); fold s; lia.
Qed.

Lemma NeighborInt_inverse_witness :
  exists n,
    NeighborInt 1702789509 North 32 = Ok n /\
    NeighborInt n (mkBearing (- x North) (- y North)) 32 = Ok 1702789509.
Proof.
  apply NeighborInt_inverse.
  - split; [lia | reflexivity].
  - split; [lia | reflexivity].
  - vm_compute. split; [discriminate | reflexivity].
  - vm_compute. split; [discriminate | reflexivity].
Defined.

(** ** [NeighborsInt] *)

(** X13.  For a hash in [[0, 2^d)] whose cell touches no border of the
    grid, the nine hashes of [NeighborsInt] are pairwise distinct. *)
Theorem NeighborsInt_distinct (h d : Z) :
  valid_depth d -> 0 <= h < 2 ^ d ->
  1 <= rowOf h (Z.quot d 2) <= 2 ^ Z.quot d 2 - 2 ->
  1 <= colOf h (Z.quot d 2) <= 2 ^ Z.quot d 2 - 2 ->
  exists l, NeighborsInt h d = Ok l /\ NoDup l.
Proof.
  intros Hd Hh Hr Hc.
  destruct (NeighborsInt_ok h d Hd)
    as (n & ne & e & se & s & sw & w & nw
        & Hn & Hne & He & Hse & Hs & Hsw & Hw & Hnw & Hl).
  eexists. split; [exact Hl |].
  pose proof (fun b Hx Hy => NeighborInt_inside h b d Hd Hh Hx Hy Hr Hc) as M.
  destruct (M North ltac:(cbn; lia) ltac:(cbn; lia) n Hn) as [R1 C1].
  destruct (M NorthEast ltac:(cbn; lia) ltac:(cbn; lia) ne Hne) as [R2 C2].
  destruct (M East ltac:(cbn; lia) ltac:(cbn; lia) e He) as [R3 C3].
  destruct (M SouthEast ltac:(cbn; lia) ltac:(cbn; lia) se Hse) as [R4 C4].
  destruct (M South ltac:(cbn; lia) ltac:(cbn; lia) s Hs) as [R5 C5].
  destruct (M SouthWest ltac:(cbn; lia) ltac:(cbn; lia) sw Hsw) as [R6 C6].
  destruct (M West ltac:(cbn; lia) ltac:(cbn; lia) w Hw) as [R7 C7].
  destruct (M NorthWest ltac:(cbn; lia) ltac:(cbn; lia) nw Hnw) as [R8 C8].
  cbn [x y North NorthEast East SouthEast South SouthWest West NorthWest]
    in R1, C1, R2, C2, R3, C3, R4, C4, R5, C5, R6, C6, R7, C7, R8, C8.
  clear M Hn Hne He Hse Hs Hsw Hw Hnw Hl.
  repeat (constructor;
          [cbn [In]; intros F;
           repeat (destruct F as [F | F]; [rewrite F in *; lia |]); exact F |]).
  constructor.
Qed.

Lemma NeighborsInt_distinct_witness :
  exists l, NeighborsInt 1702789509 32 = Ok l /\ NoDup l.
Proof.
  apply NeighborsInt_distinct.
  - split; [lia | reflexivity].
  - split; [lia | reflexivity].
  - vm_compute. split; discriminate.
  - vm_compute. split; discriminate.
Defined.

(** ** [FindBitDepth] *)

(** X14.  Whatever order the range over the table takes, [FindBitDepth]
    answers an even number in [[0, 48]]: either [MaxBitDepth - key] for an
    entry of the table whose radius exceeds the distance, or [0] with no
    radius of the table exceeding the distance.  It never answers 50 or
    52. *)
Theorem FindBitDepth_answers (order : list (Z * float64)) (distanceMeters : float64) :
  range_order order ->
  0 <= FindBitDepth order distanceMeters <= 48 /\
  Z.even (FindBitDepth order distanceMeters) = true /\
  ((exists kv, In kv bitsToDistanceInMeters /\
               gtb (snd kv) distanceMeters = true /\
               FindBitDepth order distanceMeters = MaxBitDepth - fst kv) \/
   (FindBitDepth order distanceMeters = 0 /\
    forall kv, In kv bitsToDistanceInMeters ->
               gtb (snd kv) distanceMeters = false)).
Proof.
  intros Hp. unfold range_order in Hp. unfold FindBitDepth, MaxBitDepth.
  pose proof table_keys as K. rewrite forallb_forall in K.
  assert (Hk : forall kv, In kv order ->
                 4 <= fst kv <= 52 /\ Z.even (fst kv) = true).
  { intros kv Hin. pose proof (K kv (Permutation_in _ Hp Hin)) as E.
    apply andb_prop in E. destruct E as [E E3].
    apply andb_prop in E. destruct E as [E1 E2].
    apply Z.leb_le in E1, E2. split; [lia | exact E3]. }
  destruct (FindBitDepth_range_entry order distanceMeters
              ltac:(intros kv Hin; destruct (Hk kv Hin); lia))
    as [(kv & Hin & Hg & Hr) | [Hr Hall]].
  - destruct (Hk kv Hin) as [R E]. rewrite Hr.
    split; [lia |]. split.
    + replace (52 - fst kv) with (fst kv + 2 * (26 - fst kv)) by lia.
      rewrite Z.even_add_mul_2. exact E.
    + left. exists kv. split; [exact (Permutation_in _ Hp Hin) | auto].
  - rewrite Hr. split; [lia |]. split; [reflexivity |]. right.
    split; [reflexivity |]. intros kv Hin.
    apply Hall. exact (Permutation_in _ (Permutation_sym Hp) Hin).
Qed.

Lemma FindBitDepth_answers_witness :
  0 <= FindBitDepth bitsToDistanceInMeters (of_int 100) <= 48 /\
  Z.even (FindBitDepth bitsToDistanceInMeters (of_int 100)) = true /\
  ((exists kv, In kv bitsToDistanceInMeters /\
               gtb (snd kv) (of_int 100) = true /\
               FindBitDepth bitsToDistanceInMeters (of_int 100)
               = MaxBitDepth - fst kv) \/
   (FindBitDepth bitsToDistanceInMeters (of_int 100) = 0 /\
    forall kv, In kv bitsToDistanceInMeters ->
               gtb (snd kv) (of_int 100) = false)).
Proof.
  apply FindBitDepth_answers. apply Permutation_refl.
Defined.

(** X15.  From the largest radius of the table on (10018863 metres),
    [FindBitDepth] answers [0] in every order of the range, also for a
    distance of [+Inf]. *)
Theorem FindBitDepth_beyond_table (order : list (Z * float64))
  (distanceMeters : float64) :
  range_order order -> valid distanceMeters = true ->
  leb (of_int 10018863) distanceMeters = true ->
  FindBitDepth order distanceMeters = 0.
Proof. exact (FindBitDepth_far order distanceMeters). Qed.

Lemma FindBitDepth_beyond_table_witness :
  FindBitDepth bitsToDistanceInMeters (of_int 20000000) = 0.
Proof.
  apply FindBitDepth_beyond_table.
  - apply Permutation_refl.
  - reflexivity.
  - reflexivity.
Defined.

(** X16.  The sibling revision with the slice of radii: [FindBitDepth]
    answers [0] when no radius exceeds the distance, and otherwise
    [52 - 2 i], a depth in [[4, 52]], for the first index [i] whose radius
    exceeds the distance. *)
Theorem RadiusSlice_FindBitDepth_deepest (distance : float64) :
  (RadiusSlice.FindBitDepth distance = 0 /\
   forall value, In value RadiusSlice.bitsToRadiusMap ->
                 gtb value distance = false) \/
  (exists (i : nat) (value : float64),
     nth_error RadiusSlice.bitsToRadiusMap i = Some value /\
     gtb value distance = true /\
     RadiusSlice.FindBitDepth distance = 52 - 2 * Z.of_nat i /\
     4 <= RadiusSlice.FindBitDepth distance <= 52 /\
     forall (j : nat) (value' : float64),
       (j < i)%nat -> nth_error RadiusSlice.bitsToRadiusMap j = Some value' ->
       gtb value' distance = false).
Proof.
  unfold RadiusSlice.FindBitDepth.
  destruct (RadiusSlice_range_first RadiusSlice.bitsToRadiusMap 0 distance
              ltac:(lia) ltac:(cbn; lia))
    as [H | (i & v & Hn & Hg & Hr & Hb)]; [left; exact H | right].
  exists i, v. split; [exact Hn |]. split; [exact Hg |].
  rewrite Hr. split; [f_equal |].
  assert (Hi : (i < 25)%nat).
  { change 25%nat with (List.length RadiusSlice.bitsToRadiusMap).
    apply nth_error_Some. rewrite Hn. discriminate. }
  split; [lia | exact Hb].
Qed.

(** ** [round] *)

(** X17.  With [roundOn = 0.5] and [places = 0], [round] of a finite float
    is the integer [floor (val + 1/2)]: to the nearest integer, a tie
    going up, also below zero. *)
Theorem round_is_half_up (val : float64) :
  valid val = true -> is_finite val = true ->
  exists n : Z,
    (to_Q (round val (of_dec 5 1) 0) == inject_Z n)%Q /\
    (inject_Z n <= to_Q val + (1 # 2))%Q /\
    (to_Q val + (1 # 2) < inject_Z n + 1)%Q /\
    valid (round val (of_dec 5 1) 0) = true /\
    is_finite (round val (of_dec 5 1) 0) = true.
Proof.
  intros Vx Fx.
  pose proof (round_represents val (Float64.val val) (represents_self val Vx Fx))
    as (Vr & Fr & Hr).
  pose proof (pow2_pos 1074 ltac:(lia)) as PU.
  set (v := Float64.val val) in *.
  set (n := (2 * v + 2 ^ 1074) / (2 * 2 ^ 1074)) in *.
  pose proof (Z.div_mod (2 * v + 2 ^ 1074) (2 * 2 ^ 1074) ltac:(lia)) as Hd.
  pose proof (Z.mod_pos_bound (2 * v + 2 ^ 1074) (2 * 2 ^ 1074) ltac:(lia)) as Hm.
  fold n in Hd.
  exists n. unfold to_Q. rewrite Hr. fold v.
  change (Z.pos (2 ^ 1074)) with (2 ^ 1074) in *.
  repeat split; try assumption.
  - unfold Qeq, inject_Z. cbn [Qnum Qden]. 
    change (Z.pos (2 ^ 1074)) with (2 ^ 1074). lia.
  - unfold Qle, Qplus, inject_Z. cbn [Qnum Qden].
    rewrite Pos2Z.inj_mul. change (Z.pos (2 ^ 1074)) with (2 ^ 1074). lia.
  - unfold Qlt, Qplus, inject_Z. cbn [Qnum Qden].
    rewrite Pos2Z.inj_mul. change (Z.pos (2 ^ 1074)) with (2 ^ 1074). lia.
Qed.

Lemma round_is_half_up_witness :
  exists n : Z,
    (to_Q (round (of_dec (-25) 1) (of_dec 5 1) 0) == inject_Z n)%Q /\
    (inject_Z n <= to_Q (of_dec (-25) 1) + (1 # 2))%Q /\
    (to_Q (of_dec (-25) 1) + (1 # 2) < inject_Z n + 1)%Q /\
    valid (round (of_dec (-25) 1) (of_dec 5 1) 0) = true /\
    is_finite (round (of_dec (-25) 1) (of_dec 5 1) 0) = true.
Proof.
  apply round_is_half_up.
  - reflexivity.
  - reflexivity.
Defined.

(** ** [BboxesInt] *)

(** X18.  At a valid depth and for every four floats, [BboxesInt] returns
    the cells of the rectangle of the grid between the cell of
    [(minLat, minLon)] and the cell of [(maxLat, maxLon)], row by row from
    the south-west corner, west to east within a row: with [rows] and
    [cols] the number of rows and columns, entry [i * cols + j] is the hash
    of row [i] and column [j] of the rectangle.  The list is empty when the
    second cell lies south or west of the first. *)
Theorem BboxesInt_row_major (minLat minLon maxLat maxLon : float64) (d : Z) :
  valid_depth d ->
  exists hsw hne l,
    EncodeInt minLat minLon d = Ok hsw /\
    EncodeInt maxLat maxLon d = Ok hne /\
    BboxesInt minLat minLon maxLat maxLon d = Ok l /\
    let s := Z.quot d 2 in
    let rows := rowOf hne s - rowOf hsw s + 1 in
    let cols := colOf hne s - colOf hsw s + 1 in
    (rows <= 0 \/ cols <= 0 -> l = []) /\
    (0 < rows -> 0 < cols ->
     List.length l = Z.to_nat (rows * cols) /\
     forall i j, 0 <= i < rows -> 0 <= j < cols ->
       exists n,
         nth_error l (Z.to_nat (i * cols + j)) = Some n /\
         NeighborInt hsw (mkBearing i j) d = Ok n /\
         0 <= n < 2 ^ d /\
         rowOf n s = rowOf hsw s + i /\ colOf n s = colOf hsw s + j).
Proof. exact (BboxesInt_rows minLat minLon maxLat maxLon d). Qed.

Lemma BboxesInt_row_major_witness :
  exists hsw hne l,
    EncodeInt (of_int 30) (of_int 120) 30 = Ok hsw /\
    EncodeInt (of_dec 3001 2) (of_dec 12002 2) 30 = Ok hne /\
    BboxesInt (of_int 30) (of_int 120) (of_dec 3001 2) (of_dec 12002 2) 30 = Ok l /\
    let s := Z.quot 30 2 in
    let rows := rowOf hne s - rowOf hsw s + 1 in
    let cols := colOf hne s - colOf hsw s + 1 in
    (rows <= 0 \/ cols <= 0 -> l = []) /\
    (0 < rows -> 0 < cols ->
     List.length l = Z.to_nat (rows * cols) /\
     forall i j, 0 <= i < rows -> 0 <= j < cols ->
       exists n,
         nth_error l (Z.to_nat (i * cols + j)) = Some n /\
         NeighborInt hsw (mkBearing i j) 30 = Ok n /\
         0 <= n < 2 ^ 30 /\
         rowOf n s = rowOf hsw s + i /\ colOf n s = colOf hsw s + j).
Proof.
  apply BboxesInt_row_major. split; [lia | reflexivity].
Defined.

(** X19.  When the cell of [(maxLat, maxLon)] lies neither south nor west
    of the cell of [(minLat, minLon)], the list of [BboxesInt] starts with
    the hash of the first and ends with the hash of the second; when the
    two hashes are equal it is that one hash. *)
Theorem BboxesInt_corners (minLat minLon maxLat maxLon : float64) (d hsw hne : Z)
  (l : list Z) :
  valid_depth d ->
  EncodeInt minLat minLon d = Ok hsw ->
  EncodeInt maxLat maxLon d = Ok hne ->
  BboxesInt minLat minLon maxLat maxLon d = Ok l ->
  rowOf hsw (Z.quot d 2) <= rowOf hne (Z.quot d 2) ->
  colOf hsw (Z.quot d 2) <= colOf hne (Z.quot d 2) ->
  nth_error l 0 = Some hsw /\
  nth_error l (List.length l - 1) = Some hne /\
  (hsw = hne -> l = [hsw]).
Proof.
  intros Hd E0 E1 El Hr Hc.
  destruct (BboxesInt_rows minLat minLon maxLat maxLon d Hd)
    as (hsw' & hne' & l' & E0' & E1' & El' & _ & Hgrid).
  rewrite E0 in E0'. injection E0' as <-.
  rewrite E1 in E1'. injection E1' as <-.
  rewrite El in El'. injection El' as <-.
  cbn zeta in Hgrid.
  set (s := Z.quot d 2) in *.
  set (rows := rowOf hne s - rowOf hsw s + 1) in *.
  set (cols := colOf hne s - colOf hsw s + 1) in *.
  destruct (Hgrid ltac:(lia) ltac:(lia)) as [Hlen Hnth].
  destruct (EncodeInt_total minLat minLon d Hd) as (v0 & _ & _ & T0 & R0).
  rewrite E0 in T0. injection T0 as T0. rewrite <- T0 in R0.
  destruct (EncodeInt_total maxLat maxLon d Hd) as (v1 & _ & _ & T1 & R1).
  rewrite E1 in T1. injection T1 as T1. rewrite <- T1 in R1.
  assert (First : nth_error l 0 = Some hsw).
  { destruct (Hnth 0 0 ltac:(lia) ltac:(lia)) as (n & Nn & _ & Rn & Er & Ec).
    replace (Z.to_nat (0 * cols + 0)) with 0%nat in Nn by lia.
    rewrite Nn. f_equal.
    apply (hash_of_cell n hsw d Hd Rn R0); fold s; lia. }
  assert (Last : nth_error l (List.length l - 1) = Some hne).
  { destruct (Hnth (rows - 1) (cols - 1) ltac:(lia) ltac:(lia))
      as (n & Nn & _ & Rn & Er & Ec).
    replace (Z.to_nat ((rows - 1) * cols + (cols - 1)))
      with (List.length l - 1)%nat in Nn by (rewrite Hlen; nia).
    rewrite Nn. f_equal.
    apply (hash_of_cell n hne d Hd Rn R1); fold s; unfold rows, cols in *; lia. }
  split; [exact First | split; [exact Last |]].
  intros ->. assert (Hone : List.length l = 1%nat).
  { rewrite Hlen. unfold rows, cols. replace (rowOf hne s - rowOf hne s + 1) with 1 by lia.
    replace (colOf hne s - colOf hne s + 1) with 1 by lia. reflexivity. }
  destruct l as [| a [| b l]]; try discriminate Hone.
  cbn in First. injection First as ->. reflexivity.
Qed.

Lemma BboxesInt_corners_witness :
  nth_error [966367641; 966367643; 966367665; 966367644; 966367646;
             966367668; 966367645; 966367647; 966367669] 0
  = Some 966367641 /\
  nth_error [966367641; 966367643; 966367665; 966367644; 966367646;
             966367668; 966367645; 966367647; 966367669]
    (List.length [966367641; 966367643; 966367665; 966367644; 966367646;
                  966367668; 966367645; 966367647; 966367669] - 1)
  = Some 966367669 /\
  (966367641 = 966367669 ->
   [966367641; 966367643; 966367665; 966367644; 966367646;
    966367668; 966367645; 966367647; 966367669] = [966367641]).
Proof.
  apply (BboxesInt_corners (of_int 30) (of_int 120) (of_dec 3001 2)
           (of_dec 12002 2) 30).
  - split; [lia | reflexivity].
  - vm_compute. reflexivity.
  - vm_compute. reflexivity.
  - vm_compute. reflexivity.
  - vm_compute. discriminate.
  - vm_compute. discriminate.
Defined.

(** X20.  At a valid depth and for every four floats, no hash occurs twice
    in the list of [BboxesInt]. *)
Theorem BboxesInt_distinct (minLat minLon maxLat maxLon : float64) (d : Z) :
  valid_depth d ->
  exists l, BboxesInt minLat minLon maxLat maxLon d = Ok l /\ NoDup l.
Proof.
  intros Hd.
  destruct (BboxesInt_rows minLat minLon maxLat maxLon d Hd)
    as (hsw & hne & l & E0 & E1 & El & Hempty & Hgrid).
  exists l. split; [exact El |]. cbn zeta in Hempty, Hgrid.
  set (s := Z.quot d 2) in *.
  set (rows := rowOf hne s - rowOf hsw s + 1) in *.
  set (cols := colOf hne s - colOf hsw s + 1) in *.
  destruct (Z_le_gt_dec rows 0) as [Hr | Hr];
    [rewrite (Hempty (or_introl Hr)); constructor |].
  destruct (Z_le_gt_dec cols 0) as [Hc | Hc];
    [rewrite (Hempty (or_intror Hc)); constructor |].
  destruct (Hgrid ltac:(lia) ltac:(lia)) as [Hlen Hnth].
  assert (Hat : forall a : nat, (a < List.length l)%nat ->
            exists n, nth_error l a = Some n /\
              rowOf n s = rowOf hsw s + Z.of_nat a / cols /\
              colOf n s = colOf hsw s + Z.of_nat a mod cols).
  { intros a Ha.
    pose proof (Z.div_mod (Z.of_nat a) cols ltac:(lia)) as Dm.
    pose proof (Z.mod_pos_bound (Z.of_nat a) cols ltac:(lia)) as Mb.
    assert (0 <= Z.of_nat a / cols) by (apply Z.div_pos; lia).
    assert (Z.of_nat a / cols < rows).
    { apply Z.div_lt_upper_bound; [lia |]. rewrite Hlen in Ha. nia. }
    destruct (Hnth (Z.of_nat a / cols) (Z.of_nat a mod cols) ltac:(lia) ltac:(lia))
      as (n & Nn & _ & _ & Er & Ec).
    exists n. split; [| auto].
    rewrite <- Nn. f_equal. nia. }
  apply NoDup_nth_error. intros a b Ha Hab.
  destruct (Hat a Ha) as (n & Na & Ra & Ca).
  assert (Hb : (b < List.length l)%nat).
  { apply nth_error_Some. rewrite <- Hab, Na. discriminate. }
  destruct (Hat b Hb) as (m & Nb & Rb & Cb).
  rewrite Na, Nb in Hab. injection Hab as <-.
  pose proof (Z.div_mod (Z.of_nat a) cols ltac:(lia)).
  pose proof (Z.div_mod (Z.of_nat b) cols ltac:(lia)).
  assert (Z.of_nat a / cols = Z.of_nat b / cols) by lia.
  assert (Z.of_nat a mod cols = Z.of_nat b mod cols) by lia.
  nia.
Qed.

Lemma BboxesInt_distinct_witness :
  exists l,
    BboxesInt (of_int 30) (of_int 120) (of_dec 3001 2) (of_dec 12002 2) 30 = Ok l /\
    NoDup l.
Proof.
  apply BboxesInt_distinct. split; [lia | reflexivity].
Defined.
